(** * jingo: a shallow embedding of the instruction-compiling JSON encoders

    The development follows the package file by file:
    buffer.go, ptrconvert.go, sliceencoder.go, mapencoder.go and
    structencoder.go.  A Go [unsafe.Pointer] handed to an instruction is
    modelled by the value it points to; reading that value through a layout
    it does not have is the outcome [BadRead]. *)

From Stdlib Require Import List String Ascii ZArith Lia Bool Arith.
From Stdlib.Strings Require Import Byte.
From Stdlib Require Import Permutation Sorted DecimalString.
Import ListNotations.

Set Implicit Arguments.
Set Warnings "-register-all".

(* ------------------------------------------------------------------------- *)
(** ** Bytes and text *)

Definition bytes := list byte.

Definition bs (s : string) : bytes := list_byte_of_string s.
Arguments bs s%_string.

(** What a Go call can do: return, panic with a message, or read memory
    through a layout the pointee does not have. *)
Inductive outcome (A : Type) : Type :=
| Done (a : A)
| Panic (msg : string)
| BadRead.
Arguments Done {A} a.
Arguments Panic {A} msg%_string.
Arguments BadRead {A}.

Definition bind {A B} (m : outcome A) (k : A -> outcome B) : outcome B :=
  match m with
  | Done a => k a
  | Panic msg => Panic msg
  | BadRead => BadRead
  end.

Declare Scope go_scope.
Delimit Scope go_scope with go.
Notation "x <- m ;; k" := (bind m (fun x => k))
  (at level 61, m at next level, right associativity) : go_scope.
Notation "m ;;; k" := (bind m k)
  (at level 60, right associativity) : go_scope.
Open Scope go_scope.

(* ------------------------------------------------------------------------- *)
(** ** Values in caller memory *)

(** Numbers are kept as [Z] and narrowed by the conversion that reads them.
    A floating-point number is kept as the text [strconv.AppendFloat] with
    format ['f'] and precision [-1] yields for it, a [time.Time] as its
    RFC 3339 text and its [String()] text: the package does no arithmetic on
    either.  A map lists its entries in the order the runtime iterator
    visits them at this call; [None] is the nil map. *)
Inductive Value : Type :=
| VBool (b : bool)
| VInt (z : Z)
| VFloat (text : bytes)
| VString (s : bytes)
| VPtr (p : option Value)
| VSlice (elems : list Value)
| VArray (elems : list Value)
| VMap (m : option (list (Value * Value)))
| VStruct (fields : list Value)
| VTime (rfc3339 str : bytes)
| VOther.

(* ------------------------------------------------------------------------- *)
(** ** buffer.go *)

Record Buffer : Type := mkBuffer { Bytes : bytes }.

Definition Write (b : Buffer) (v : bytes) : Buffer :=
  {| Bytes := Bytes b ++ v |}.

Definition WriteByte (b : Buffer) (v : byte) : Buffer :=
  {| Bytes := Bytes b ++ [v] |}.

Definition Reset (b : Buffer) : Buffer :=
  {| Bytes := firstn 0 (Bytes b) |}.

(** An instruction: [func(unsafe.Pointer, *Buffer)]. *)
Definition Instr := Value -> Buffer -> outcome Buffer.

(* ------------------------------------------------------------------------- *)
(** ** ptrconvert.go *)

Definition wrapU (w : Z) (z : Z) : Z := (z mod 2 ^ w)%Z.

Definition wrapS (w : Z) (z : Z) : Z :=
  let m := (z mod 2 ^ w)%Z in
  if (m <? 2 ^ (w - 1))%Z then m else (m - 2 ^ w)%Z.

(** [strconv.AppendInt(dst, i, 10)] and [strconv.AppendUint(dst, i, 10)]. *)
Definition formatBase10 (z : Z) : bytes :=
  list_byte_of_string (NilZero.string_of_int (Z.to_int z)).

Definition btrue : bytes := bs "true".
Definition bfalse : bytes := bs "false".

Definition ptrBoolToBuf (v : Value) (b : Buffer) : outcome Buffer :=
  match v with
  | VBool r =>
      let b := if r then Write b btrue else b in
      Done (Write b bfalse)
  | _ => BadRead
  end.

Definition ptrSignedToBuf (w : Z) (v : Value) (b : Buffer) : outcome Buffer :=
  match v with
  | VInt z => Done (Write b (formatBase10 (wrapS w z)))
  | _ => BadRead
  end.

Definition ptrUnsignedToBuf (w : Z) (v : Value) (b : Buffer) : outcome Buffer :=
  match v with
  | VInt z => Done (Write b (formatBase10 (wrapU w z)))
  | _ => BadRead
  end.

Definition ptrIntToBuf : Instr := ptrSignedToBuf 64.
Definition ptrInt8ToBuf : Instr := ptrSignedToBuf 8.
Definition ptrInt16ToBuf : Instr := ptrSignedToBuf 16.
Definition ptrInt32ToBuf : Instr := ptrSignedToBuf 32.
Definition ptrInt64ToBuf : Instr := ptrSignedToBuf 64.
Definition ptrUintToBuf : Instr := ptrUnsignedToBuf 64.
Definition ptrUint8ToBuf : Instr := ptrUnsignedToBuf 8.
Definition ptrUint16ToBuf : Instr := ptrUnsignedToBuf 16.
Definition ptrUint32ToBuf : Instr := ptrUnsignedToBuf 32.
Definition ptrUint64ToBuf : Instr := ptrUnsignedToBuf 64.

Definition ptrFloatToBuf (v : Value) (b : Buffer) : outcome Buffer :=
  match v with
  | VFloat text => Done (Write b text)
  | _ => BadRead
  end.

Definition ptrFloat32ToBuf : Instr := ptrFloatToBuf.
Definition ptrFloat64ToBuf : Instr := ptrFloatToBuf.

Definition ptrStringToBuf (v : Value) (b : Buffer) : outcome Buffer :=
  match v with
  | VString s => Done (Write b s)
  | _ => BadRead
  end.

(* ------------------------------------------------------------------------- *)
(** ** What the package asks of [reflect] *)

Module reflect.

Inductive Kind : Type :=
| Invalid | Bool
| Int | Int8 | Int16 | Int32 | Int64
| Uint | Uint8 | Uint16 | Uint32 | Uint64 | Uintptr
| Float32 | Float64 | Complex64 | Complex128
| Array | Chan | Func | Interface | Map | Ptr | Slice | String | Struct
| UnsafePointer.

Definition Kind_eqb (a b : Kind) : bool :=
  match a, b with
  | Invalid, Invalid | Bool, Bool | Int, Int | Int8, Int8 | Int16, Int16
  | Int32, Int32 | Int64, Int64 | Uint, Uint | Uint8, Uint8
  | Uint16, Uint16 | Uint32, Uint32 | Uint64, Uint64 | Uintptr, Uintptr
  | Float32, Float32 | Float64, Float64 | Complex64, Complex64
  | Complex128, Complex128 | Array, Array | Chan, Chan | Func, Func
  | Interface, Interface | Map, Map | Ptr, Ptr | Slice, Slice
  | String, String | Struct, Struct | UnsafePointer, UnsafePointer => true
  | _, _ => false
  end.

(** [Kind.String()]. *)
Definition Kind_String (k : Kind) : string :=
  match k with
  | Invalid => "invalid" | Bool => "bool"
  | Int => "int" | Int8 => "int8" | Int16 => "int16" | Int32 => "int32"
  | Int64 => "int64"
  | Uint => "uint" | Uint8 => "uint8" | Uint16 => "uint16"
  | Uint32 => "uint32" | Uint64 => "uint64" | Uintptr => "uintptr"
  | Float32 => "float32" | Float64 => "float64"
  | Complex64 => "complex64" | Complex128 => "complex128"
  | Array => "array" | Chan => "chan" | Func => "func"
  | Interface => "interface" | Map => "map" | Ptr => "ptr"
  | Slice => "slice" | String => "string" | Struct => "struct"
  | UnsafePointer => "unsafe.Pointer"
  end%string.

(** The methods a named type declares that the package looks for.  A body
    receives the value of the declaring type and yields the text the
    method returns ([String], [MarshalText], whose error the package
    drops) or appends to the buffer ([JSONEncode]). *)
Inductive Receiver : Type := ByValue | ByPointer.

Record Method : Type := mkMethod { recv : Receiver; body : Value -> bytes }.

Record MethodSet : Type := mkMethodSet {
  mString : option Method;
  mJSONEncode : option Method;
  mMarshalText : option Method
}.

Definition noMethods : MethodSet := mkMethodSet None None None.

(** Types are finite trees: a type that refers to itself, on which the
    constructors of the package do not return, has no counterpart here.
    Interface types are kept without their methods.  [Tag] holds what
    [Tag.Get("json")] returns for the field. *)
Inductive rtype : Type :=
| Basic (k : Kind) (ms : MethodSet)
| ArrayOf (len : nat) (elem : rtype) (ms : MethodSet)
| ChanOf (elem : rtype)
| FuncOf
| InterfaceOf
| MapOf (key elem : rtype) (ms : MethodSet)
| PtrTo (elem : rtype)
| SliceOf (elem : rtype) (ms : MethodSet)
| StructOf (fields : list StructField) (ms : MethodSet)
| timeType
with StructField : Type :=
| mkStructField (Name : string) (Tag : string) (Typ : rtype).

Definition Name (f : StructField) : string :=
  match f with mkStructField n _ _ => n end.
Definition Tag (f : StructField) : string :=
  match f with mkStructField _ t _ => t end.
Definition Typ (f : StructField) : rtype :=
  match f with mkStructField _ _ t => t end.

Definition KindOf (t : rtype) : Kind :=
  match t with
  | Basic k _ => k
  | ArrayOf _ _ _ => Array
  | ChanOf _ => Chan
  | FuncOf => Func
  | InterfaceOf => Interface
  | MapOf _ _ _ => Map
  | PtrTo _ => Ptr
  | SliceOf _ _ => Slice
  | StructOf _ _ => Struct
  | timeType => Struct
  end.

Definition isTimeType (t : rtype) : bool :=
  match t with timeType => true | _ => false end.

(** [Type.Elem()]. *)
Definition Elem (t : rtype) : outcome rtype :=
  match t with
  | ArrayOf _ e _ | ChanOf e | MapOf _ e _ | PtrTo e | SliceOf e _ => Done e
  | _ => Panic "reflect: Elem of invalid type"
  end.

Definition timeMethods : MethodSet :=
  mkMethodSet
    (Some (mkMethod ByValue
             (fun v => match v with VTime _ s => s | _ => [] end)))
    None
    (Some (mkMethod ByValue
             (fun v => match v with VTime r _ => r | _ => [] end))).

Definition declared (t : rtype) : MethodSet :=
  match t with
  | Basic _ ms | ArrayOf _ _ ms | MapOf _ _ ms | SliceOf _ ms
  | StructOf _ ms => ms
  | timeType => timeMethods
  | _ => noMethods
  end.

(** The method set of [t]: the methods declared with a value receiver,
    and for a pointer type every method its element type declares. *)
Definition lookup (sel : MethodSet -> option Method) (t : rtype)
  : option (Value -> bytes) :=
  match t with
  | PtrTo e =>
      match sel (declared e) with
      | Some m => Some (body m)
      | None => None
      end
  | _ =>
      match sel (declared t) with
      | Some (mkMethod ByValue f) => Some f
      | _ => None
      end
  end.

End reflect.

(** [typeconv]: the conversion table of ptrconvert.go. *)
Definition typeconv (k : reflect.Kind) : option Instr :=
  match k with
  | reflect.Bool => Some ptrBoolToBuf
  | reflect.Int => Some ptrIntToBuf
  | reflect.Int8 => Some ptrInt8ToBuf
  | reflect.Int16 => Some ptrInt16ToBuf
  | reflect.Int32 => Some ptrInt32ToBuf
  | reflect.Int64 => Some ptrInt64ToBuf
  | reflect.Uint => Some ptrUintToBuf
  | reflect.Uint8 => Some ptrUint8ToBuf
  | reflect.Uint16 => Some ptrUint16ToBuf
  | reflect.Uint32 => Some ptrUint32ToBuf
  | reflect.Uint64 => Some ptrUint64ToBuf
  | reflect.Float32 => Some ptrFloat32ToBuf
  | reflect.Float64 => Some ptrFloat64ToBuf
  | reflect.String => Some ptrStringToBuf
  | _ => None
  end.

(** Modelled from the spec: [ptrTimeToBuf], the primitive rendering of a
    [time.Time], is missing from the package files; like the other
    renderings it appends the literal text of the value, which the tests of
    the struct and slice encoders show to be the RFC 3339 text without
    quotes. *)
Definition ptrTimeToBuf (v : Value) (b : Buffer) : outcome Buffer :=
  match v with
  | VTime rfc3339 _ => Done (Write b rfc3339)
  | _ => BadRead
  end.

Definition null : bytes := bs "null".

(** The byte of the double quote. *)
Definition quote : byte := x22.

(* ------------------------------------------------------------------------- *)
(** ** Config (mapencoder.go) *)

Record Config : Type := mkConfig { mapEncoder : Z }.

Definition sortMapKeys : Z := Z.shiftl 1 0.

Definition SetSortMapKeys (c : Config) (on : bool) : Config :=
  if on then {| mapEncoder := Z.lor (mapEncoder c) sortMapKeys |}
  else {| mapEncoder := Z.land (mapEncoder c) (Z.lxor 255 sortMapKeys) |}.

Definition SortMapKeys (c : Config) : bool :=
  negb (Z.land (mapEncoder c) sortMapKeys =? 0)%Z.

Definition DefaultConfig : Config := SetSortMapKeys {| mapEncoder := 0 |} false.

(* ------------------------------------------------------------------------- *)
(** ** The three encoders *)

(** A [SliceEncoder] whose constructor set no instruction holds [None], the
    nil func. *)
Record SliceEncoder : Type := mkSliceEncoder { slice_instruction : option Instr }.

Record MapEncoder : Type := mkMapEncoder { map_instruction : Instr }.

(** [cb] is the side buffer of static text, [cpos] how much of it has been
    turned into instructions. *)
Record StructEncoder : Type := mkStructEncoder {
  instructions : list Instr;
  cb : Buffer;
  cpos : nat
}.

Definition nilDeref : string :=
  "runtime error: invalid memory address or nil pointer dereference".

Definition SliceEncoder_Marshal (e : SliceEncoder) (s : Value) (w : Buffer)
  : outcome Buffer :=
  match slice_instruction e with
  | Some instruction => instruction s w
  | None => Panic nilDeref
  end.

Definition MapEncoder_Marshal (e : MapEncoder) (s : Value) (w : Buffer)
  : outcome Buffer :=
  map_instruction e s w.

Fixpoint runInstructions (l : list Instr) (p : Value) (w : Buffer)
  : outcome Buffer :=
  match l with
  | [] => Done w
  | i :: rest => w' <- i p w ;; runInstructions rest p w'
  end.

Definition StructEncoder_Marshal (e : StructEncoder) (s : Value) (w : Buffer)
  : outcome Buffer :=
  runInstructions (instructions e) s w.

(* ------------------------------------------------------------------------- *)
(** ** sliceencoder.go: the instructions *)

(** The loop [for i := 0; i < sl.Len; i++] over the elements of a slice:
    [step i len elem] is the loop body at index [i]. *)
Fixpoint sliceLoop (step : nat -> nat -> Value -> Buffer -> outcome Buffer)
  (i len : nat) (elems : list Value) (w : Buffer) : outcome Buffer :=
  match elems with
  | [] => Done w
  | x :: rest => w' <- step i len x w ;; sliceLoop step (S i) len rest w'
  end.

Definition overSlice (step : nat -> nat -> Value -> Buffer -> outcome Buffer)
  : Instr :=
  fun v w =>
    match v with
    | VSlice elems =>
        w' <- sliceLoop step 0 (List.length elems) elems (WriteByte w "["%byte) ;;
        Done (WriteByte w' "]"%byte)
    | _ => BadRead
    end.

Definition comma (i : nat) (w : Buffer) : Buffer :=
  if (0 <? i)%nat then WriteByte w ","%byte else w.

(** The element is a pointer: [nil] writes [null] and the loop continues,
    anything else hands the pointee to [conv]. *)
Definition derefOrNull (conv : Instr) (x : Value) (w : Buffer)
  : outcome Buffer :=
  match x with
  | VPtr None => Done (Write w null)
  | VPtr (Some s) => conv s w
  | _ => BadRead
  end.

Definition sliceInstr (enc : SliceEncoder) : SliceEncoder :=
  mkSliceEncoder (Some (overSlice (fun i _ x w =>
    SliceEncoder_Marshal enc x (comma i w)))).

Definition structInstr (enc : StructEncoder) : SliceEncoder :=
  mkSliceEncoder (Some (overSlice (fun i _ x w =>
    StructEncoder_Marshal enc x (comma i w)))).

Definition mapInstr (enc : MapEncoder) : SliceEncoder :=
  mkSliceEncoder (Some (overSlice (fun i _ x w =>
    MapEncoder_Marshal enc x (comma i w)))).

Definition stringInstr : SliceEncoder :=
  mkSliceEncoder (Some (overSlice (fun i len x w =>
    let w := if (i =? 0)%nat then WriteByte w quote else w in
    let w := if (0 <? i)%nat then Write w (quote :: bs "," ++ [quote]) else w in
    w <- ptrStringToBuf x w ;;
    Done (if (i =? len - 1)%nat then WriteByte w quote else w)))).

Definition otherInstr (k : reflect.Kind) : SliceEncoder :=
  match typeconv k with
  | None => mkSliceEncoder None
  | Some conv =>
      mkSliceEncoder (Some (overSlice (fun i _ x w => conv x (comma i w))))
  end.

Definition quoted (conv : Instr) : Instr :=
  fun x w =>
    w <- conv x (WriteByte w quote) ;;
    Done (WriteByte w quote).

Definition timeInstr : SliceEncoder :=
  mkSliceEncoder (Some (overSlice (fun i _ x w =>
    quoted ptrTimeToBuf x (comma i w)))).

Definition ptrStrctInstr (enc : StructEncoder) : SliceEncoder :=
  mkSliceEncoder (Some (overSlice (fun i _ x w =>
    derefOrNull (StructEncoder_Marshal enc) x (comma i w)))).

Definition ptrMapInstr (enc : MapEncoder) : SliceEncoder :=
  mkSliceEncoder (Some (overSlice (fun i _ x w =>
    derefOrNull (MapEncoder_Marshal enc) x (comma i w)))).

Definition ptrStringInstr : SliceEncoder :=
  mkSliceEncoder (Some (overSlice (fun i _ x w =>
    derefOrNull (quoted ptrStringToBuf) x (comma i w)))).

Definition ptrOtherInstr (k : reflect.Kind) : SliceEncoder :=
  match typeconv k with
  | None => mkSliceEncoder None
  | Some conv =>
      mkSliceEncoder (Some (overSlice (fun i _ x w =>
        derefOrNull conv x (comma i w))))
  end.

Definition ptrTimeInstr : SliceEncoder :=
  mkSliceEncoder (Some (overSlice (fun i _ x w =>
    derefOrNull (quoted ptrTimeToBuf) x (comma i w)))).

(* ------------------------------------------------------------------------- *)
(** ** mapencoder.go: the instructions *)

Definition emptyObj : bytes := bs "{}".

(** One collected entry: [k] holds the bytes its slice header points at,
    [e] the element the iterator was at.  The header points into memory that
    is only appended to afterwards, so the bytes are those read later. *)
Record unsafeke : Type := mkUnsafeke { k : bytes; e : Value }.

(** [bytes.Compare]. *)
Fixpoint bytes_Compare (a b : bytes) : Z :=
  match a, b with
  | [], [] => 0
  | [], _ :: _ => -1
  | _ :: _, [] => 1
  | x :: a', y :: b' =>
      if (Byte.to_N x <? Byte.to_N y)%N then -1
      else if (Byte.to_N y <? Byte.to_N x)%N then 1
      else bytes_Compare a' b'
  end%Z.

(** [mapSlice.Less]. *)
Definition Less (x y : unsafeke) : bool :=
  (bytes_Compare (k x) (k y) <? 0)%Z.

(** [sort.Sort], which sorts by the [Less] of its argument.  On fewer than
    twelve entries the standard library runs the insertion sort below: each
    entry in turn moves left past the entries it is less than.
    [sortedPrefix] is kept reversed, so that moving left is walking down
    the list.  On longer inputs the library may leave entries of equal key
    in another order; with distinct keys the result is the same
    ([sorted_permutation_unique]). *)
Section InsertionSort.

Context {A : Type} (less : A -> A -> bool).

Fixpoint moveLeft (x : A) (sortedPrefix : list A) : list A :=
  match sortedPrefix with
  | [] => [x]
  | y :: rest => if less x y then y :: moveLeft x rest else x :: y :: rest
  end.

Definition insertionSort (l : list A) : list A :=
  rev (fold_left (fun prefix x => moveLeft x prefix) l []).

End InsertionSort.

Definition sort_Sort (kvs : list unsafeke) : list unsafeke :=
  insertionSort Less kvs.

(** The order of [Less] for entries of any form with a key text. *)
Definition lessBy {A : Type} (key : A -> bytes) (x y : A) : bool :=
  (bytes_Compare (key x) (key y) <? 0)%Z.

Definition leBy {A : Type} (key : A -> bytes) (x y : A) : Prop :=
  (bytes_Compare (key x) (key y) <= 0)%Z.

(** A loop over what the map iterator yields, or over the collected
    entries, with the counter [i]. *)
Fixpoint entriesLoop {A : Type} (step : nat -> A -> Buffer -> outcome Buffer)
  (i : nat) (l : list A) (w : Buffer) : outcome Buffer :=
  match l with
  | [] => Done w
  | x :: rest => w' <- step i x w ;; entriesLoop step (S i) rest w'
  end.

Definition ptrStrElemInstr : Instr :=
  fun v w =>
    match v with
    | VPtr None => Done (Write w null)
    | VPtr (Some p) =>
        w <- ptrStringToBuf p (WriteByte w quote) ;;
        Done (WriteByte w quote)
    | _ => BadRead
    end.

Definition ptrElemInstr (conv : Instr) : Instr :=
  fun v w =>
    match v with
    | VPtr None => Done (Write w null)
    | VPtr (Some p) => conv p w
    | _ => BadRead
    end.

Definition ptrKeyInstr (conv : Instr) : Instr :=
  fun v w =>
    match v with
    | VPtr None => Done w
    | VPtr (Some p) => conv p w
    | _ => BadRead
    end.

(** The first pass of [sortStrStrInstr]: the key is a string header, taken
    as a slice header. *)
Fixpoint collectStrStr (entries : list (Value * Value)) (kvs : list unsafeke)
  : outcome (list unsafeke) :=
  match entries with
  | [] => Done kvs
  | (VString sl, elem) :: rest =>
      collectStrStr rest (kvs ++ [mkUnsafeke sl elem])
  | _ :: _ => BadRead
  end.

Definition sortStrStrInstr : Instr :=
  fun p w =>
    match p with
    | VMap None => Done (Write w null)
    | VMap (Some m) =>
        let mlen := List.length m in
        if (mlen =? 0)%nat then Done (Write w emptyObj)
        else
          kvs <- collectStrStr m [] ;;
          let kvs := sort_Sort kvs in
          let w := Write w (bs "{" ++ [quote]) in
          w <- entriesLoop (fun i kv w =>
                 let w := if negb (i =? 0)%nat
                          then Write w (quote :: bs "," ++ [quote]) else w in
                 let w := Write w (k kv) in
                 let w := Write w (quote :: bs ":" ++ [quote]) in
                 ptrStringToBuf (e kv) w) 0 kvs w ;;
          Done (Write w (quote :: bs "}"))
    | _ => BadRead
    end.

Definition strStrInstr : Instr :=
  fun p w =>
    match p with
    | VMap None => Done (Write w null)
    | VMap (Some m) =>
        if (List.length m =? 0)%nat then Done (Write w emptyObj)
        else
          let w := Write w (bs "{" ++ [quote]) in
          w <- entriesLoop (fun i (it : Value * Value) w =>
                 let w := if negb (i =? 0)%nat
                          then Write w (quote :: bs "," ++ [quote]) else w in
                 w <- ptrStringToBuf (fst it) w ;;
                 let w := Write w (quote :: bs ":" ++ [quote]) in
                 ptrStringToBuf (snd it) w) 0 m w ;;
          Done (Write w (quote :: bs "}"))
    | _ => BadRead
    end.

(** The first pass of [sortInstr]: each key is rendered at the end of the
    buffer and the span it took is recorded with the element. *)
Fixpoint collectKeys (kconv : Instr) (entries : list (Value * Value))
  (kvs : list unsafeke) (w : Buffer) : outcome (list unsafeke * Buffer) :=
  match entries with
  | [] => Done (kvs, w)
  | (key, elem) :: rest =>
      let start := List.length (Bytes w) in
      w <- kconv key w ;;
      let klen := (List.length (Bytes w) - start)%nat in
      collectKeys kconv rest
        (kvs ++ [mkUnsafeke (firstn klen (skipn start (Bytes w))) elem]) w
  end.

Definition sortInstr (kconv econv : Instr) : Instr :=
  fun p w =>
    match p with
    | VMap None => Done (Write w null)
    | VMap (Some m) =>
        let mlen := List.length m in
        if (mlen =? 0)%nat then Done (Write w emptyObj)
        else
          let bufStart := List.length (Bytes w) in
          r <- collectKeys kconv m [] w ;;
          let '(kvs, w) := r in
          let bufEnd := List.length (Bytes w) in
          let kvs := sort_Sort kvs in
          let w := Write w (bs "{" ++ [quote]) in
          w <- entriesLoop (fun i kv w =>
                 let w := if negb (i =? 0)%nat
                          then Write w (bs "," ++ [quote]) else w in
                 let w := mkBuffer (Bytes w ++ k kv) in
                 let w := Write w (quote :: bs ":") in
                 econv (e kv) w) 0 kvs w ;;
          let w := mkBuffer (firstn bufStart (Bytes w) ++ skipn bufEnd (Bytes w)) in
          Done (WriteByte w "}"%byte)
    | _ => BadRead
    end.

Definition instr (kconv econv : Instr) : Instr :=
  fun p w =>
    match p with
    | VMap None => Done (Write w null)
    | VMap (Some m) =>
        if (List.length m =? 0)%nat then Done (Write w emptyObj)
        else
          let w := Write w (bs "{" ++ [quote]) in
          w <- entriesLoop (fun i (it : Value * Value) w =>
                 let w := if negb (i =? 0)%nat
                          then Write w (bs "," ++ [quote]) else w in
                 w <- kconv (fst it) w ;;
                 let w := Write w (quote :: bs ":") in
                 econv (snd it) w) 0 m w ;;
          Done (WriteByte w "}"%byte)
    | _ => BadRead
    end.

(** The conversion of a key or element through [MarshalText]. *)
Definition marshalText (f : Value -> bytes) : Instr :=
  fun v w => Done (Write w (f v)).

(* ------------------------------------------------------------------------- *)
(** ** structencoder.go *)

(** [strings.Index(s, ",")], as the text before and after the first comma. *)
Fixpoint cutComma (s : string) : option (string * string) :=
  match s with
  | EmptyString => None
  | String.String c rest =>
      if Ascii.eqb c ","%char then Some (EmptyString, rest)
      else match cutComma rest with
           | Some (before, after) => Some (String.String c before, after)
           | None => None
           end
  end.

Definition tagOptions := string.

Definition parseTag (tag : string) : string * tagOptions :=
  match cutComma tag with
  | Some (name, opts) => (name, opts)
  | None => (tag, EmptyString)
  end.

(** The loop of [tagOptions.Contains]; every turn drops at least one
    character of [s], so [String.length o] turns are enough. *)
Fixpoint ContainsLoop (turns : nat) (s optionName : string) : bool :=
  match turns with
  | O => false
  | S turns =>
      if String.eqb s EmptyString then false
      else
        let '(s, next) := match cutComma s with
                          | Some (before, after) => (before, after)
                          | None => (s, EmptyString)
                          end in
        if String.eqb s optionName then true
        else ContainsLoop turns next optionName
  end.

Definition Contains (o : tagOptions) (optionName : string) : bool :=
  if (String.length o =? 0)%nat then false
  else ContainsLoop (String.length o) o optionName.

Definition chunk (b : bytes) (e : StructEncoder) : StructEncoder :=
  mkStructEncoder (instructions e) (Write (cb e) b) (cpos e).

Definition flunk (e : StructEncoder) : StructEncoder :=
  let b := Bytes (cb e) in
  let bs := skipn (cpos e) b in
  let cpos' := List.length b in
  if (List.length bs =? 0)%nat then mkStructEncoder (instructions e) (cb e) cpos'
  else mkStructEncoder
         (instructions e ++ [fun _ w => Done (Write w bs)]) (cb e) cpos'.

Definition addInstruction (i : Instr) (e : StructEncoder) : StructEncoder :=
  mkStructEncoder (instructions e ++ [i]) (cb e) (cpos e).

(** The address [v + f.Offset] of field number [i]. *)
Definition fieldAt (i : nat) (v : Value) : outcome Value :=
  match v with
  | VStruct fields =>
      match nth_error fields i with
      | Some x => Done x
      | None => BadRead
      end
  | _ => BadRead
  end.

Definition val (i : nat) (conv : Instr) (e : StructEncoder) : StructEncoder :=
  addInstruction (fun v w => x <- fieldAt i v ;; conv x w) (flunk e).

Definition ptrval (i : nat) (conv : Instr) (e : StructEncoder)
  : StructEncoder :=
  addInstruction
    (fun v w =>
       x <- fieldAt i v ;;
       match x with
       | VPtr None => Done (Write w null)
       | VPtr (Some p) => conv p w
       | _ => BadRead
       end)
    (flunk e).

Definition ptrstringval (i : nat) (conv : Instr) (e : StructEncoder)
  : StructEncoder :=
  addInstruction
    (fun v w =>
       x <- fieldAt i v ;;
       match x with
       | VPtr None => Done (Write w null)
       | VPtr (Some p) =>
           w <- conv p (WriteByte w quote) ;;
           Done (WriteByte w quote)
       | _ => BadRead
       end)
    (flunk e).

Definition isPtr (t : reflect.rtype) : bool :=
  reflect.Kind_eqb (reflect.KindOf t) reflect.Ptr.

(** [Type.Len()]. *)
Definition Len (t : reflect.rtype) : outcome nat :=
  match t with
  | reflect.ArrayOf n _ _ => Done n
  | _ => Panic "reflect: Len of non-array type"
  end.

(** The loop of the [reflect.Array] case of [valueInst]: one instruction
    for each index [j] of the array in field [i]. *)
Fixpoint arrayLoop (i : nat) (conv : Instr) (j count : nat)
  (e : StructEncoder) : StructEncoder :=
  match count with
  | O => e
  | S count =>
      let e := if (0 <? j)%nat then chunk (bs ", ") e else e in
      let e := flunk e in
      let e := addInstruction
                 (fun v w =>
                    x <- fieldAt i v ;;
                    match x with
                    | VArray elems =>
                        match nth_error elems j with
                        | Some y => conv y w
                        | None => BadRead
                        end
                    | _ => BadRead
                    end) e in
      arrayLoop i conv (S j) count e
  end.

(** [valueInst].  The encoders of the field's own type that the slice,
    struct and map cases construct are passed in as [encSlice], [encStruct]
    and [encMap]; a panic of the one that is used is the panic of
    [valueInst]. *)
Definition valueInst (f : reflect.StructField) (i : nat) (k : reflect.Kind)
  (instr : Instr -> StructEncoder -> StructEncoder)
  (encSlice : outcome SliceEncoder) (encStruct : outcome StructEncoder)
  (encMap : outcome MapEncoder) (e : StructEncoder) : outcome StructEncoder :=
  match k with
  | reflect.Bool | reflect.Int | reflect.Int8 | reflect.Int16 | reflect.Int32
  | reflect.Int64 | reflect.Uint | reflect.Uint8 | reflect.Uint16
  | reflect.Uint32 | reflect.Uint64 | reflect.Float32 | reflect.Float64 =>
      match typeconv k with
      | None => Done e
      | Some conv => Done (instr conv e)
      end
  | reflect.Array =>
      let e := chunk (bs "[") e in
      elem <- reflect.Elem (reflect.Typ f) ;;
      match typeconv (reflect.KindOf elem) with
      | None => Done e
      | Some conv =>
          n <- Len (reflect.Typ f) ;;
          Done (chunk (bs "]") (arrayLoop i conv 0 n e))
      end
  | reflect.Slice =>
      let e := flunk e in
      enc <- encSlice ;;
      Done (addInstruction
              (fun v w => em <- fieldAt i v ;; SliceEncoder_Marshal enc em w) e)
  | reflect.String =>
      if isPtr (reflect.Typ f) then Done (ptrstringval i ptrStringToBuf e)
      else Done (chunk [quote] (instr ptrStringToBuf (chunk [quote] e)))
  | reflect.Struct =>
      let e := flunk e in
      enc <- encStruct ;;
      if isPtr (reflect.Typ f) then
        Done (addInstruction
                (fun v w =>
                   x <- fieldAt i v ;;
                   match x with
                   | VPtr None => Done (Write w null)
                   | VPtr (Some em) => StructEncoder_Marshal enc em w
                   | _ => BadRead
                   end) e)
      else
        Done (addInstruction
                (fun v w => em <- fieldAt i v ;; StructEncoder_Marshal enc em w)
                e)
  | reflect.Map =>
      let e := flunk e in
      enc <- encMap ;;
      if isPtr (reflect.Typ f) then
        Done (addInstruction
                (fun v w =>
                   x <- fieldAt i v ;;
                   match x with
                   | VPtr None => Done (Write w null)
                   | VPtr (Some em) => MapEncoder_Marshal enc em w
                   | _ => BadRead
                   end) e)
      else
        Done (addInstruction
                (fun v w => em <- fieldAt i v ;; MapEncoder_Marshal enc em w) e)
  | reflect.Invalid | reflect.Interface | reflect.Complex64
  | reflect.Complex128 | reflect.Chan | reflect.Func | reflect.Uintptr
  | reflect.UnsafePointer =>
      Panic ("unsupported type "
             ++ reflect.Kind_String (reflect.KindOf (reflect.Typ f))
             ++ reflect.Name f)
  | reflect.Ptr => Done e
  end.

(** The bytes read at [v] through a byte-slice header: the content of a
    string or of a byte slice.  An empty slice of anything has length zero; what the header of
    any other value would give depends on the memory after it. *)
Fixpoint bytesOfElems (elems : list Value) : option bytes :=
  match elems with
  | [] => Some []
  | VInt z :: rest =>
      match Byte.of_N (Z.to_N z), bytesOfElems rest with
      | Some b, Some l => if (0 <=? z)%Z then Some (b :: l) else None
      | _, _ => None
      end
  | _ :: _ => None
  end.

Definition asByteSlice (v : Value) : outcome bytes :=
  match v with
  | VString s => Done s
  | VSlice elems =>
      match bytesOfElems elems with
      | Some s => Done s
      | None => BadRead
      end
  | _ => BadRead
  end.

(** The conversions of the three field options.  [t] is the field's type,
    or the type it points to; [reflect.NewAt(t, v)] has type [*t]. *)
Definition stringerConv (t : reflect.rtype) : Instr :=
  fun v w =>
    match reflect.lookup reflect.mString (reflect.PtrTo t) with
    | None => Done w
    | Some stringOf => Done (Write w (stringOf v))
    end.

Definition encoderConv (t : reflect.rtype) : Instr :=
  fun v w =>
    match reflect.lookup reflect.mJSONEncode (reflect.PtrTo t) with
    | None => Done (Write w null)
    | Some jsonEncode => Done (Write w (jsonEncode v))
    end.

Definition rawConv : Instr :=
  fun v w =>
    s <- asByteSlice v ;;
    if (List.length s =? 0)%nat then Done (Write w null)
    else Done (Write w s).

(** [t.Elem()] when [t] is a pointer, else [t]. *)
Definition pointee (t : reflect.rtype) : reflect.rtype :=
  match t with
  | reflect.PtrTo elem => elem
  | _ => t
  end.

Definition hasStringMethod (t : reflect.rtype) : bool :=
  match reflect.lookup reflect.mString t with
  | Some _ => true
  | None => false
  end.

(** The body of the loop over the fields in [NewStructEncoderWithConfig],
    for field [f] at index [i], in two parts: [fieldValue] is the part after
    the key has been written, from the [switch] on the options to the end
    of the body; [emit] counts the fields emitted so far. *)
Definition fieldValue (f : reflect.StructField) (i : nat) (opts : tagOptions)
  (encSlice : outcome SliceEncoder) (encStruct : outcome StructEncoder)
  (encMap : outcome MapEncoder) (e : StructEncoder) : outcome StructEncoder :=
  let ft := reflect.Typ f in
  let byKind := if isPtr ft then ptrval i else val i in
  if Contains opts "stringer" && hasStringMethod ft then
    let e := chunk [quote] e in
    let e := byKind (stringerConv (pointee ft)) e in
    Done (chunk [quote] e)
  else if Contains opts "encoder" then
    Done (byKind (encoderConv (pointee ft)) e)
  else if Contains opts "raw" then
    Done (byKind rawConv e)
  else if reflect.isTimeType ft then
    Done (val i ptrTimeToBuf e)
  else if isPtr ft && reflect.isTimeType (pointee ft) then
    Done (ptrval i ptrTimeToBuf e)
  else if isPtr ft
  then valueInst f i (reflect.KindOf (pointee ft)) (ptrval i)
         encSlice encStruct encMap e
  else valueInst f i (reflect.KindOf ft) (val i)
         encSlice encStruct encMap e.

Definition fieldInstr (f : reflect.StructField) (i emit : nat)
  (encSlice : outcome SliceEncoder) (encStruct : outcome StructEncoder)
  (encMap : outcome MapEncoder) (e : StructEncoder)
  : outcome (nat * StructEncoder) :=
  let '(tag, opts) := parseTag (reflect.Tag f) in
  if String.eqb tag EmptyString then Done (emit, e)
  else
    let emit := S emit in
    let e := if (1 <? emit)%nat then chunk (bs ",") e else e in
    let e := chunk (quote :: bs tag ++ quote :: bs ":") e in
    e <- fieldValue f i opts encSlice encStruct encMap e ;;
    Done (emit, e).

(** The conversions [NewMapEncoderWithConfig] chooses for elements and
    keys; the encoders of the element type it may construct are passed in
    as for [valueInst]. *)
Definition isPrimitive (k : reflect.Kind) : bool :=
  match k with
  | reflect.Bool | reflect.Int | reflect.Int8 | reflect.Int16 | reflect.Int32
  | reflect.Int64 | reflect.Uint | reflect.Uint8 | reflect.Uint16
  | reflect.Uint32 | reflect.Uint64 | reflect.Float32 | reflect.Float64 => true
  | _ => false
  end.

Definition typeconvOrNil (k : reflect.Kind) : Instr :=
  match typeconv k with
  | Some conv => conv
  | None => fun _ _ => Panic nilDeref
  end.

Definition elemInstr (elem : reflect.rtype)
  (encSlice : outcome SliceEncoder) (encStruct : outcome StructEncoder)
  (encMap : outcome MapEncoder) : outcome Instr :=
  match reflect.lookup reflect.mMarshalText elem with
  | Some textOf =>
      if isPtr elem then Done (ptrElemInstr (quoted (marshalText textOf)))
      else Done (quoted (marshalText textOf))
  | None =>
      match reflect.KindOf elem with
      | reflect.Slice =>
          enc <- encSlice ;; Done (SliceEncoder_Marshal enc)
      | reflect.Struct =>
          enc <- encStruct ;; Done (StructEncoder_Marshal enc)
      | reflect.Map =>
          enc <- encMap ;; Done (MapEncoder_Marshal enc)
      | reflect.Ptr =>
          match reflect.KindOf (pointee elem) with
          | reflect.Slice =>
              enc <- encSlice ;; Done (ptrElemInstr (SliceEncoder_Marshal enc))
          | reflect.Struct =>
              enc <- encStruct ;; Done (ptrElemInstr (StructEncoder_Marshal enc))
          | reflect.Map =>
              enc <- encMap ;; Done (ptrElemInstr (MapEncoder_Marshal enc))
          | reflect.String => Done ptrStrElemInstr
          | k => if isPrimitive k then Done (ptrElemInstr (typeconvOrNil k))
                 else Panic "unsupported ptr elem type"
          end
      | reflect.String => Done (quoted ptrStringToBuf)
      | k => if isPrimitive k then Done (typeconvOrNil k)
             else Panic "unsupported elem type"
      end
  end.

Definition keyInstr (key : reflect.rtype) : outcome Instr :=
  let k := reflect.KindOf key in
  if isPrimitive k || reflect.Kind_eqb k reflect.String
  then Done (typeconvOrNil k)
  else
    match reflect.lookup reflect.mMarshalText key with
    | Some textOf =>
        if isPtr key then Done (ptrKeyInstr (marshalText textOf))
        else Done (marshalText textOf)
    | None => Panic "unsupported key type"
    end.

Definition isString (t : reflect.rtype) : bool :=
  reflect.Kind_eqb (reflect.KindOf t) reflect.String.

Definition emptyStructEncoder : StructEncoder :=
  mkStructEncoder [] (mkBuffer []) 0.

(** The three constructors.  They recurse on the type: the value handed to
    a constructor only serves to name its type.  [time.Time] has three
    fields, none with a tag.  [ptrSliceInstr] asks [reflect] for the
    interface of the element of a nil pointer, which panics. *)
Fixpoint NewStructEncoderWithConfig (t : reflect.rtype) (cfg : Config)
  {struct t} : outcome StructEncoder :=
  match t with
  | reflect.StructOf fields _ =>
      let e := chunk (bs "{") emptyStructEncoder in
      e <- (fix loop (fields : list reflect.StructField) (i emit : nat)
              (e : StructEncoder) {struct fields} : outcome StructEncoder :=
              match fields with
              | [] => Done e
              | f :: rest =>
                  r <- fieldInstr f i emit
                         (NewSliceEncoderWithConfig (reflect.Typ f) cfg)
                         (NewStructEncoderWithConfig
                            (pointee (reflect.Typ f)) cfg)
                         (NewMapEncoderWithConfig
                            (pointee (reflect.Typ f)) cfg) e ;;
                  loop rest (S i) (fst r) (snd r)
              end) fields 0%nat 0%nat e ;;
      Done (flunk (chunk (bs "}") e))
  | reflect.timeType =>
      Done (flunk (chunk (bs "}") (chunk (bs "{") emptyStructEncoder)))
  | _ => Panic "reflect: NumField of non-struct type"
  end

with NewSliceEncoderWithConfig (t : reflect.rtype) (cfg : Config)
  {struct t} : outcome SliceEncoder :=
  match t with
  | reflect.ArrayOf _ elem _ | reflect.ChanOf elem | reflect.MapOf _ elem _
  | reflect.PtrTo elem | reflect.SliceOf elem _ =>
      if reflect.isTimeType elem then Done timeInstr
      else
        match reflect.KindOf elem with
        | reflect.Slice =>
            enc <- NewSliceEncoderWithConfig elem cfg ;; Done (sliceInstr enc)
        | reflect.Struct =>
            enc <- NewStructEncoderWithConfig elem cfg ;; Done (structInstr enc)
        | reflect.Map =>
            enc <- NewMapEncoderWithConfig elem cfg ;; Done (mapInstr enc)
        | reflect.String => Done stringInstr
        | reflect.Ptr =>
            match elem with
            | reflect.PtrTo elem2 =>
                if reflect.isTimeType elem2 then Done ptrTimeInstr
                else
                  match reflect.KindOf elem2 with
                  | reflect.Slice =>
                      Panic "reflect: call of reflect.Value.Interface on zero Value"
                  | reflect.Struct =>
                      enc <- NewStructEncoderWithConfig elem2 cfg ;;
                      Done (ptrStrctInstr enc)
                  | reflect.Map =>
                      enc <- NewMapEncoderWithConfig elem2 cfg ;;
                      Done (ptrMapInstr enc)
                  | reflect.String => Done ptrStringInstr
                  | k => Done (ptrOtherInstr k)
                  end
            | _ => Panic "reflect: Elem of invalid type"
            end
        | k => Done (otherInstr k)
        end
  | _ => Panic "reflect: Elem of invalid type"
  end

with NewMapEncoderWithConfig (t : reflect.rtype) (cfg : Config)
  {struct t} : outcome MapEncoder :=
  match t with
  | reflect.MapOf key elem _ =>
      if isString key && isString elem then
        if SortMapKeys cfg then Done (mkMapEncoder sortStrStrInstr)
        else Done (mkMapEncoder strStrInstr)
      else
        econv <- elemInstr elem
                   (NewSliceEncoderWithConfig (pointee elem) cfg)
                   (NewStructEncoderWithConfig (pointee elem) cfg)
                   (NewMapEncoderWithConfig (pointee elem) cfg) ;;
        kconv <- keyInstr key ;;
        if SortMapKeys cfg then Done (mkMapEncoder (sortInstr kconv econv))
        else Done (mkMapEncoder (instr kconv econv))
  | _ => Panic "reflect: Key of non-map type"
  end.

Definition NewStructEncoder (t : reflect.rtype) : outcome StructEncoder :=
  NewStructEncoderWithConfig t DefaultConfig.

Definition NewSliceEncoder (t : reflect.rtype) : outcome SliceEncoder :=
  NewSliceEncoderWithConfig t DefaultConfig.

Definition NewMapEncoder (t : reflect.rtype) : outcome MapEncoder :=
  NewMapEncoderWithConfig t DefaultConfig.

(* ------------------------------------------------------------------------- *)
(** ** A record as a JSON object, in the words of the specification *)

(** What a [StructEncoder] under construction stands for: its instructions
    run in order, then the static text not yet turned into an instruction. *)
Definition emitted (e : StructEncoder) : Instr :=
  fun v w =>
    w <- runInstructions (instructions e) v w ;;
    Done (Write w (skipn (cpos e) (Bytes (cb e)))).

(** The value of field [f], number [i] of its record: what [fieldValue]
    compiles for it on its own. *)
Definition writeValue (cfg : Config) (f : reflect.StructField) (i : nat)
  : Instr :=
  fun v w =>
    e <- fieldValue f i (snd (parseTag (reflect.Tag f)))
           (NewSliceEncoderWithConfig (reflect.Typ f) cfg)
           (NewStructEncoderWithConfig (pointee (reflect.Typ f)) cfg)
           (NewMapEncoderWithConfig (pointee (reflect.Typ f)) cfg)
           emptyStructEncoder ;;
    emitted e v w.

(** The key name of a field; a field with no key name is excluded. *)
Definition keyName (f : reflect.StructField) : string :=
  fst (parseTag (reflect.Tag f)).

Definition included (f : reflect.StructField) : bool :=
  negb (String.eqb (keyName f) EmptyString).

Fixpoint indexed {A : Type} (i : nat) (l : list A) : list (nat * A) :=
  match l with
  | [] => []
  | x :: rest => (i, x) :: indexed (S i) rest
  end.

(** The members of the object: the included fields, in declaration order,
    each with its position in the record; [membersAt i] for fields that
    start at position [i]. *)
Definition membersAt (i : nat) (fields : list reflect.StructField)
  : list (nat * reflect.StructField) :=
  filter (fun m => included (snd m)) (indexed i fields).

Definition members (fields : list reflect.StructField)
  : list (nat * reflect.StructField) :=
  membersAt 0 fields.

Definition memberKey (first : bool) (f : reflect.StructField) : bytes :=
  (if first then [] else bs ",") ++ quote :: bs (keyName f) ++ quote :: bs ":".

Fixpoint writeMembers (cfg : Config) (ms : list (nat * reflect.StructField))
  (first : bool) (v : Value) (w : Buffer) : outcome Buffer :=
  match ms with
  | [] => Done w
  | (i, f) :: rest =>
      w <- writeValue cfg f i v (Write w (memberKey first f)) ;;
      writeMembers cfg rest false v w
  end.

Definition writeObject (cfg : Config) (fields : list reflect.StructField)
  : Instr :=
  fun v w =>
    w <- writeMembers cfg (members fields) true v (Write w (bs "{")) ;;
    Done (Write w (bs "}")).

(* ------------------------------------------------------------------------- *)
(** ** Instructions that only append *)

(** The text an instruction writes for [v], started on an empty buffer. *)
Definition render (i : Instr) (v : Value) : outcome bytes :=
  b <- i v (mkBuffer []) ;; Done (Bytes b).

(** [i] appends: on any buffer it leaves what was there and adds the text
    it writes on an empty one. *)
Definition appends (i : Instr) : Prop :=
  forall v w, i v w = (t <- render i v ;; Done (Write w t)).

(** The loop over the fields in [NewStructEncoderWithConfig], by itself and
    with the counter [emit] it ends with. *)
Fixpoint fieldsLoop (cfg : Config) (fields : list reflect.StructField)
  (i emit : nat) (e : StructEncoder) {struct fields}
  : outcome (nat * StructEncoder) :=
  match fields with
  | [] => Done (emit, e)
  | f :: rest =>
      r <- fieldInstr f i emit
             (NewSliceEncoderWithConfig (reflect.Typ f) cfg)
             (NewStructEncoderWithConfig (pointee (reflect.Typ f)) cfg)
             (NewMapEncoderWithConfig (pointee (reflect.Typ f)) cfg) e ;;
      fieldsLoop cfg rest (S i) (fst r) (snd r)
  end.

(** The side buffer never lags behind [cpos]. *)
Definition wf (e : StructEncoder) : Prop :=
  (cpos e <= List.length (Bytes (cb e)))%nat.

(** A step of the compilation that stands for the same text whatever was
    compiled before it. *)
Definition hom (step : StructEncoder -> StructEncoder) : Prop :=
  forall e, wf e ->
    wf (step e) /\
    forall v w, emitted (step e) v w
                = (w' <- emitted e v w ;; emitted (step emptyStructEncoder) v w').

(** A step that may panic, but not depending on what was compiled before. *)
Definition homO (step : StructEncoder -> outcome StructEncoder) : Prop :=
  (exists ok, hom ok /\ forall e, step e = Done (ok e))
  \/ (exists msg, forall e, step e = Panic msg)
  \/ (forall e, step e = BadRead).

(** The same for one action on the buffer. *)
Definition app1 (a : Buffer -> outcome Buffer) : Prop :=
  forall w, a w = (b <- a (mkBuffer []) ;; Done (Write w (Bytes b))).

(** A measure of types for induction over the three constructors. *)
Fixpoint size (t : reflect.rtype) : nat :=
  match t with
  | reflect.ArrayOf _ elem _ | reflect.ChanOf elem | reflect.PtrTo elem
  | reflect.SliceOf elem _ => S (size elem)
  | reflect.MapOf key elem _ => S (size key + size elem)
  | reflect.StructOf fields _ =>
      S ((fix sizes (fields : list reflect.StructField) : nat :=
            match fields with
            | [] => 0
            | reflect.mkStructField _ _ ft :: rest => size ft + sizes rest
            end) fields)
  | _ => 1
  end.

(* ------------------------------------------------------------------------- *)
(** ** A mapping as a JSON object, in the words of the specification *)

Fixpoint mapM {A B : Type} (f : A -> outcome B) (l : list A)
  : outcome (list B) :=
  match l with
  | [] => Done []
  | x :: rest => y <- f x ;; ys <- mapM f rest ;; Done (y :: ys)
  end.

(** The conversions of keys and elements that the instruction of a map of
    type [map[key]elem] applies: those of the fast path when both are of
    string kind, else those [NewMapEncoderWithConfig] resolves. *)
Definition converters (cfg : Config) (key elem : reflect.rtype)
  : outcome (Instr * Instr) :=
  if isString key && isString elem
  then Done (ptrStringToBuf, quoted ptrStringToBuf)
  else
    econv <- elemInstr elem
               (NewSliceEncoderWithConfig (pointee elem) cfg)
               (NewStructEncoderWithConfig (pointee elem) cfg)
               (NewMapEncoderWithConfig (pointee elem) cfg) ;;
    kconv <- keyInstr key ;;
    Done (kconv, econv).

(** The rendered text of the key and of the element of an entry. *)
Definition entryText (cfg : Config) (key elem : reflect.rtype)
  (entry : Value * Value) : outcome (bytes * bytes) :=
  c <- converters cfg key elem ;;
  kt <- render (fst c) (fst entry) ;;
  vt <- render (snd c) (snd entry) ;;
  Done (kt, vt).

(** An object text: the members [quote key quote : value], separated by
    commas, in braces. *)
Definition memberText (m : bytes * bytes) : bytes :=
  quote :: fst m ++ quote :: bs ":" ++ snd m.

Fixpoint joinComma (l : list bytes) : bytes :=
  match l with
  | [] => []
  | [x] => x
  | x :: rest => x ++ bs "," ++ joinComma rest
  end.

Definition objectText (ms : list (bytes * bytes)) : bytes :=
  bs "{" ++ joinComma (map memberText ms) ++ bs "}".

(** Byte-wise lexicographic order of the key texts. *)
Definition keyLess (a b : bytes * bytes) : bool :=
  (bytes_Compare (fst a) (fst b) <? 0)%Z.

Definition keyLe (a b : bytes * bytes) : Prop :=
  (bytes_Compare (fst a) (fst b) <= 0)%Z.

Definition sortByKey (ms : list (bytes * bytes)) : list (bytes * bytes) :=
  insertionSort keyLess ms.

(** The members of a record as texts: the key name of each member with
    the text its value is written as. *)
Definition memberTextOf (cfg : Config) (v : Value)
  (m : nat * reflect.StructField) : outcome (bytes * bytes) :=
  t <- render (writeValue cfg (snd m) (fst m)) v ;;
  Done (bs (keyName (snd m)), t).

Definition memberTexts (cfg : Config) (fields : list reflect.StructField)
  (v : Value) : outcome (list (bytes * bytes)) :=
  mapM (memberTextOf cfg v) (members fields).

Fixpoint membersText (first : bool) (texts : list (bytes * bytes)) : bytes :=
  match texts with
  | [] => []
  | t :: rest =>
      (if first then [] else bs ",") ++ memberText t ++ membersText false rest
  end.

(** The members as the loops of the map instructions write them from
    counter [i] on: the opening brace and quote are written before the
    loop, so that each later member starts with a comma and a quote. *)
Fixpoint membersFrom (i : nat) (ms : list (bytes * bytes)) : bytes :=
  match ms with
  | [] => []
  | m :: rest =>
      (if negb (i =? 0)%nat then bs "," ++ [quote] else [])
      ++ fst m ++ quote :: bs ":" ++ snd m ++ membersFrom (S i) rest
  end.

(** The first pass of [sortInstr] without the buffer: each entry with the
    text of its key. *)
Fixpoint renderKeys (kconv : Instr) (entries : list (Value * Value))
  : outcome (list unsafeke) :=
  match entries with
  | [] => Done []
  | (key, elem) :: rest =>
      t <- render kconv key ;;
      kvs <- renderKeys kconv rest ;;
      Done (mkUnsafeke t elem :: kvs)
  end.

(* ------------------------------------------------------------------------- *)
(** ** Fields by how the record compiler treats them *)

(** The kinds on which [valueInst] panics. *)
Definition unsupportedKind (k : reflect.Kind) : bool :=
  match k with
  | reflect.Invalid | reflect.Interface | reflect.Complex64
  | reflect.Complex128 | reflect.Chan | reflect.Func | reflect.Uintptr
  | reflect.UnsafePointer => true
  | _ => false
  end.

Definition takesStringer (f : reflect.StructField) : bool :=
  Contains (snd (parseTag (reflect.Tag f))) "stringer"
  && hasStringMethod (reflect.Typ f).

Definition takesEncoder (f : reflect.StructField) : bool :=
  Contains (snd (parseTag (reflect.Tag f))) "encoder".

Definition takesRaw (f : reflect.StructField) : bool :=
  Contains (snd (parseTag (reflect.Tag f))) "raw".

Definition isTimeField (f : reflect.StructField) : bool :=
  reflect.isTimeType (reflect.Typ f)
  || (isPtr (reflect.Typ f) && reflect.isTimeType (pointee (reflect.Typ f))).

(** An included field that no option and no special type takes away from
    [valueInst], and whose kind, or the kind it points to, is one of the
    unsupported ones. *)
Definition resolvesUnsupported (f : reflect.StructField) : bool :=
  included f && negb (takesStringer f) && negb (takesEncoder f)
  && negb (takesRaw f) && negb (isTimeField f)
  && unsupportedKind (reflect.KindOf (pointee (reflect.Typ f))).

Definition unsupportedMessage (f : reflect.StructField) : string :=
  ("unsupported type "
   ++ reflect.Kind_String (reflect.KindOf (reflect.Typ f))
   ++ reflect.Name f)%string.

(** An included field whose value the [raw] option writes. *)
Definition rawField (f : reflect.StructField) : bool :=
  included f && negb (takesStringer f) && negb (takesEncoder f) && takesRaw f.

(** The byte or text content of a field of type [ft] holding [x]; an
    absent reference has no content. *)
Definition fieldContent (ft : reflect.rtype) (x : Value) : outcome bytes :=
  if isPtr ft then
    match x with
    | VPtr None => Done []
    | VPtr (Some y) => asByteSlice y
    | _ => BadRead
    end
  else asByteSlice x.

(** The content as is, or [null] when it is empty. *)
Definition verbatim (content : bytes) : bytes :=
  if (List.length content =? 0)%nat then null else content.

Definition noMembers (ms : list (nat * reflect.StructField)) : bool :=
  match ms with
  | [] => true
  | _ :: _ => false
  end.

(* ------------------------------------------------------------------------- *)
(** ** Valid JSON text (RFC 8259), as [encoding/json.Valid] accepts it *)

Definition byteIs (c : string) (b : byte) : bool :=
  match list_byte_of_string c with
  | [x] => Byte.eqb b x
  | _ => false
  end.
Arguments byteIs c%_string b.

Definition isSpace (b : byte) : bool :=
  Byte.eqb b x20 || Byte.eqb b x09 || Byte.eqb b x0a || Byte.eqb b x0d.

Definition isDigit (b : byte) : bool :=
  ((48 <=? Byte.to_N b) && (Byte.to_N b <=? 57))%N.

Definition isHex (b : byte) : bool :=
  isDigit b
  || ((65 <=? Byte.to_N b) && (Byte.to_N b <=? 70))%N
  || ((97 <=? Byte.to_N b) && (Byte.to_N b <=? 102))%N.

Fixpoint skipSpace (s : bytes) : bytes :=
  match s with
  | b :: rest => if isSpace b then skipSpace rest else s
  | [] => []
  end.

Fixpoint skipDigits (s : bytes) : bytes :=
  match s with
  | b :: rest => if isDigit b then skipDigits rest else s
  | [] => []
  end.

(** After the opening quote: up to and over the closing quote. *)
Fixpoint scanString (s : bytes) : option bytes :=
  match s with
  | [] => None
  | b :: rest =>
      if Byte.eqb b quote then Some rest
      else if byteIs "\" b then
        match rest with
        | c :: rest' =>
            if Byte.eqb c quote || byteIs "\" c || byteIs "/" c || byteIs "b" c
               || byteIs "f" c || byteIs "n" c || byteIs "r" c || byteIs "t" c
            then scanString rest'
            else if byteIs "u" c then
              match rest' with
              | h1 :: h2 :: h3 :: h4 :: rest'' =>
                  if isHex h1 && isHex h2 && isHex h3 && isHex h4
                  then scanString rest'' else None
              | _ => None
              end
            else None
        | [] => None
        end
      else if (Byte.to_N b <? 32)%N then None
      else scanString rest
  end.

Definition scanExponent (s : bytes) : option bytes :=
  match s with
  | b :: rest =>
      if byteIs "e" b || byteIs "E" b then
        let rest := match rest with
                    | c :: rest' =>
                        if byteIs "+" c || byteIs "-" c then rest' else rest
                    | [] => rest
                    end in
        match rest with
        | d :: rest' => if isDigit d then Some (skipDigits rest') else None
        | [] => None
        end
      else Some s
  | [] => Some s
  end.

Definition scanFraction (s : bytes) : option bytes :=
  match s with
  | b :: rest =>
      if byteIs "." b then
        match rest with
        | d :: rest' =>
            if isDigit d then scanExponent (skipDigits rest') else None
        | [] => None
        end
      else scanExponent s
  | [] => Some s
  end.

Definition scanNumber (s : bytes) : option bytes :=
  let s := match s with
           | b :: rest => if byteIs "-" b then rest else s
           | [] => s
           end in
  match s with
  | b :: rest =>
      if byteIs "0" b then scanFraction rest
      else if isDigit b then scanFraction (skipDigits rest)
      else None
  | [] => None
  end.

Fixpoint dropPrefix (p s : bytes) : option bytes :=
  match p, s with
  | [], _ => Some s
  | x :: p', y :: s' => if Byte.eqb x y then dropPrefix p' s' else None
  | _ :: _, [] => None
  end.

(** [scanValue n s]: the rest of [s] after one JSON value at its start;
    every call consumes a byte, so [n] above the length of [s] is enough. *)
Fixpoint scanValue (n : nat) (s : bytes) : option bytes :=
  match n with
  | O => None
  | S n =>
      match s with
      | [] => None
      | b :: rest =>
          if byteIs "{" b then
            match skipSpace rest with
            | c :: rest' =>
                if byteIs "}" c then Some rest' else scanMembers n (c :: rest')
            | [] => None
            end
          else if byteIs "[" b then
            match skipSpace rest with
            | c :: rest' =>
                if byteIs "]" c then Some rest' else scanElements n (c :: rest')
            | [] => None
            end
          else if Byte.eqb b quote then scanString rest
          else if byteIs "t" b then dropPrefix (bs "rue") rest
          else if byteIs "f" b then dropPrefix (bs "alse") rest
          else if byteIs "n" b then dropPrefix (bs "ull") rest
          else scanNumber s
      end
  end

with scanMembers (n : nat) (s : bytes) : option bytes :=
  match n with
  | O => None
  | S n =>
      match s with
      | b :: rest =>
          if Byte.eqb b quote then
            match scanString rest with
            | Some rest =>
                match skipSpace rest with
                | c :: rest =>
                    if byteIs ":" c then
                      match scanValue n (skipSpace rest) with
                      | Some rest =>
                          match skipSpace rest with
                          | d :: rest =>
                              if byteIs "," d then scanMembers n (skipSpace rest)
                              else if byteIs "}" d then Some rest
                              else None
                          | [] => None
                          end
                      | None => None
                      end
                    else None
                | [] => None
                end
            | None => None
            end
          else None
      | [] => None
      end
  end

with scanElements (n : nat) (s : bytes) : option bytes :=
  match n with
  | O => None
  | S n =>
      match scanValue n s with
      | Some rest =>
          match skipSpace rest with
          | d :: rest =>
              if byteIs "," d then scanElements n (skipSpace rest)
              else if byteIs "]" d then Some rest
              else None
          | [] => None
          end
      | None => None
      end
  end.

Definition validJSON (s : bytes) : bool :=
  match scanValue (S (List.length s)) (skipSpace s) with
  | Some rest =>
      match skipSpace rest with
      | [] => true
      | _ :: _ => false
      end
  | None => false
  end.

(* ------------------------------------------------------------------------- *)
(** ** Types and values of the README and of the tests *)

Definition tBool : reflect.rtype := reflect.Basic reflect.Bool reflect.noMethods.
Definition tInt : reflect.rtype := reflect.Basic reflect.Int reflect.noMethods.
Definition tString : reflect.rtype :=
  reflect.Basic reflect.String reflect.noMethods.
Definition tByteSlice : reflect.rtype :=
  reflect.SliceOf (reflect.Basic reflect.Uint8 reflect.noMethods)
    reflect.noMethods.
Definition tComplex128 : reflect.rtype :=
  reflect.Basic reflect.Complex128 reflect.noMethods.

(** [type MyPayload struct] of the README. *)
Definition MyPayload : reflect.rtype :=
  reflect.StructOf
    [ reflect.mkStructField "Name" "name" tString;
      reflect.mkStructField "Age" "age" tInt;
      reflect.mkStructField "ID" "" tInt ]
    reflect.noMethods.

Definition mrPayload : Value :=
  VStruct [VString (bs "Mr Payload"); VInt 33; VInt 0].

(** [type textStruct struct { text []byte }] of mapencoder_test.go, with
    its [MarshalText] on the value receiver. *)
Definition textStruct : reflect.rtype :=
  reflect.StructOf
    [ reflect.mkStructField "text" "" tByteSlice ]
    (reflect.mkMethodSet None None
       (Some (reflect.mkMethod reflect.ByValue
                (fun v => match v with
                          | VStruct [t] =>
                              match asByteSlice t with
                              | Done s => s
                              | _ => []
                              end
                          | _ => []
                          end)))).

(** [time.Duration], an [int64] with a [String] method, whose text is left
    open. *)
Definition Duration (stringOf : Value -> bytes) : reflect.rtype :=
  reflect.Basic reflect.Int64
    (reflect.mkMethodSet
       (Some (reflect.mkMethod reflect.ByValue stringOf)) None None).

Definition sortedConfig : Config := SetSortMapKeys DefaultConfig true.

(** [map[string]string{"bb": "678", "cc": "345", "aa": "123"}], in the
    order the literal lists the entries. *)
Definition bbccaa : list (Value * Value) :=
  [ (VString (bs "bb"), VString (bs "678"));
    (VString (bs "cc"), VString (bs "345"));
    (VString (bs "aa"), VString (bs "123")) ].

(** [type label struct { text string; id int }], a key type whose
    [MarshalText] yields the text alone, so that keys that differ in [id]
    render alike. *)
Definition label : reflect.rtype :=
  reflect.StructOf
    [ reflect.mkStructField "text" "" tString;
      reflect.mkStructField "id" "" tInt ]
    (reflect.mkMethodSet None None
       (Some (reflect.mkMethod reflect.ByValue
                (fun v => match v with
                          | VStruct (VString s :: _) => s
                          | _ => []
                          end)))).

Definition labelA1 : Value := VStruct [VString (bs "a"); VInt 1].
Definition labelA2 : Value := VStruct [VString (bs "a"); VInt 2].


From Stdlib Require DecimalPos DecimalZ.

(* ------------------------------------------------------------------------- *)
(** ** buffer.go: the pool of buffers *)

(** A [*Buffer] as the pool holds it: the buffer with the capacity of its
    [Bytes], which only the constructors below look at. *)
Record PoolBuffer : Type := mkPoolBuffer { buf : Buffer; capOf : Z }.

(** [len(b.Bytes) <= cap(b.Bytes)], which holds of every Go slice. *)
Definition sliceOK (b : PoolBuffer) : Prop :=
  (Z.of_nat (List.length (Bytes (buf b))) <= capOf b)%Z.

(** The state of [bufpool]: the buffers put back and not yet taken out. *)
Definition Pool := list PoolBuffer.

(** [New] of [bufpool]: [&Buffer{}]. *)
Definition bufpool_New : PoolBuffer := mkPoolBuffer (mkBuffer []) 0.

(** [bufpool.Get()].  The pool may hand out any buffer it holds, as it was
    put back, or make a new one; [pick] is its choice. *)
Definition bufpool_Get (pick : option nat) (p : Pool) : PoolBuffer * Pool :=
  match pick with
  | Some n =>
      match nth_error p n with
      | Some b => (b, firstn n p ++ skipn (S n) p)
      | None => (bufpool_New, p)
      end
  | None => (bufpool_New, p)
  end.

(** [b.Reset()] keeps the backing array. *)
Definition PoolBuffer_Reset (b : PoolBuffer) : PoolBuffer :=
  mkPoolBuffer (Reset (buf b)) (capOf b).

Definition NewBufferFromPool (pick : option nat) (p : Pool)
  : PoolBuffer * Pool :=
  let '(b, p) := bufpool_Get pick p in
  (PoolBuffer_Reset b, p).

(** [make([]byte, 0, size)]. *)
Definition makeBytes (size : Z) : outcome PoolBuffer :=
  if (size <? 0)%Z then Panic "runtime error: makeslice: cap out of range"
  else Done (mkPoolBuffer (mkBuffer []) size).

Definition NewBufferFromPoolWithCap (pick : option nat) (p : Pool) (size : Z)
  : outcome (PoolBuffer * Pool) :=
  let '(b, p) := bufpool_Get pick p in
  let c := capOf b in
  if (c <? size)%Z then
    b <- makeBytes size ;; Done (b, p)
  else if (0 <? c)%Z then Done (PoolBuffer_Reset b, p)
  else Done (b, p).

Definition ReturnToPool (b : PoolBuffer) (p : Pool) : Pool := b :: p.

(* ------------------------------------------------------------------------- *)
(** ** Texts the theorems on tags, arrays and slices speak of *)

(** [strings.Split(s, ",")]: the pieces of [s] between its commas. *)
Fixpoint splitComma (s : string) : list string :=
  match s with
  | EmptyString => [EmptyString]
  | String.String c rest =>
      if Ascii.eqb c ","%char then EmptyString :: splitComma rest
      else
        match splitComma rest with
        | piece :: pieces => String.String c piece :: pieces
        | [] => [String.String c EmptyString]
        end
  end.

Fixpoint hasComma (s : string) : bool :=
  match s with
  | EmptyString => false
  | String.String c rest => Ascii.eqb c ","%char || hasComma rest
  end.

(** The texts of [l] with [sep] between them. *)
Fixpoint joinWith (sep : bytes) (l : list bytes) : bytes :=
  match l with
  | [] => []
  | [x] => x
  | x :: rest => x ++ sep ++ joinWith sep rest
  end.

Definition arrayText (texts : list bytes) : bytes :=
  bs "[" ++ joinWith (bs ", ") texts ++ bs "]".

Definition sliceText (texts : list bytes) : bytes :=
  bs "[" ++ joinComma texts ++ bs "]".

Definition quotedText (s : bytes) : bytes := quote :: s ++ [quote].

(** A field that no option and no special type takes away from
    [valueInst]. *)
Definition plainField (f : reflect.StructField) : bool :=
  negb (takesStringer f) && negb (takesEncoder f) && negb (takesRaw f)
  && negb (isTimeField f).

(** What [JSONEncode] of a field of type [ft] writes for the value [y] it
    is called on, [null] when the type has no such method. *)
Definition jsonEncoded (ft : reflect.rtype) (y : Value) : bytes :=
  match reflect.lookup reflect.mJSONEncode (reflect.PtrTo (pointee ft)) with
  | Some jsonEncode => jsonEncode y
  | None => null
  end.

(** The kinds of integers, with the width and sign [typeconv] reads them
    at. *)
Definition intRange (k : reflect.Kind) : option (Z * Z) :=
  match k with
  | reflect.Int | reflect.Int64 => Some (- 2 ^ 63, 2 ^ 63)
  | reflect.Int8 => Some (- 2 ^ 7, 2 ^ 7)
  | reflect.Int16 => Some (- 2 ^ 15, 2 ^ 15)
  | reflect.Int32 => Some (- 2 ^ 31, 2 ^ 31)
  | reflect.Uint | reflect.Uint64 => Some (0, 2 ^ 64)
  | reflect.Uint8 => Some (0, 2 ^ 8)
  | reflect.Uint16 => Some (0, 2 ^ 16)
  | reflect.Uint32 => Some (0, 2 ^ 32)
  | _ => None
  end%Z.

(** A key as a map of key kind [k] holds it: a string, or an integer the
    kind can hold. *)
Definition keyOfKind (k : reflect.Kind) (v : Value) : bool :=
  match v with
  | VString _ => reflect.Kind_eqb k reflect.String
  | VInt z =>
      match intRange k with
      | Some (lo, hi) => (lo <=? z)%Z && (z <? hi)%Z
      | None => false
      end
  | _ => false
  end.

(* ------------------------------------------------------------------------- *)
(** ** One member of a record among the others *)

(** The object of a record with the fields [pre], [f] and [post], in which
    the value of [f] is written as [text]; the members of [pre] and [post]
    are written as [writeMembers] has them. *)
Definition objectAround (cfg : Config) (pre : list reflect.StructField)
  (f : reflect.StructField) (post : list reflect.StructField) (text : bytes)
  : Instr :=
  fun v w =>
    w1 <- writeMembers cfg (membersAt 0 pre) true v (Write w (bs "{")) ;;
    w2 <- writeMembers cfg (membersAt (S (List.length pre)) post) false v
            (Write w1 (memberKey (noMembers (membersAt 0 pre)) f ++ text)) ;;
    Done (Write w2 (bs "}")).

(** The text of a field of type [ft] holding [x] when [text] gives that of
    a value: a pointer field is looked through, and is [null] when nil. *)
Definition throughPointer (ft : reflect.rtype) (text : Value -> bytes)
  (x : Value) : outcome bytes :=
  if isPtr ft then
    match x with
    | VPtr None => Done null
    | VPtr (Some y) => Done (text y)
    | _ => BadRead
    end
  else Done (text x).

(** What [String] of a field of type [ft] returns for the value [y]. *)
Definition stringText (ft : reflect.rtype) (y : Value) : bytes :=
  match reflect.lookup reflect.mString (reflect.PtrTo (pointee ft)) with
  | Some stringOf => stringOf y
  | None => []
  end.

(* ------------------------------------------------------------------------- *)
(** ** Types of the tests *)

Definition tUint8 : reflect.rtype :=
  reflect.Basic reflect.Uint8 reflect.noMethods.

(** [type encode0 struct { val byte }] of jingo_test.go, with its
    [JSONEncode] on the pointer receiver, which writes the byte. *)
Definition encode0 : reflect.rtype :=
  reflect.StructOf
    [ reflect.mkStructField "val" "" tUint8 ]
    (reflect.mkMethodSet None
       (Some (reflect.mkMethod reflect.ByPointer
                (fun v => match v with
                          | VStruct [VInt z] =>
                              match Byte.of_N (Z.to_N z) with
                              | Some b => [b]
                              | None => []
                              end
                          | _ => []
                          end)))
       None).

(* ------------------------------------------------------------------------- *)
(** ** Fields of struct, map and slice types *)

(** The encoder [valueInst] constructs for a field of type [ft] that is a
    struct, a map or a slice, or a pointer to a struct or to a map, as the
    instruction of its [Marshal]; [None] for the other types.  A pointer to
    a slice is left out: [valueInst] has the field read as the slice. *)
Definition nestedEncoder (cfg : Config) (ft : reflect.rtype)
  : option (outcome Instr) :=
  match reflect.KindOf (pointee ft) with
  | reflect.Struct =>
      Some (enc <- NewStructEncoderWithConfig (pointee ft) cfg ;;
            Done (StructEncoder_Marshal enc))
  | reflect.Map =>
      Some (enc <- NewMapEncoderWithConfig (pointee ft) cfg ;;
            Done (MapEncoder_Marshal enc))
  | reflect.Slice =>
      if isPtr ft then None
      else Some (enc <- NewSliceEncoderWithConfig ft cfg ;;
                 Done (SliceEncoder_Marshal enc))
  | _ => None
  end.

(** The text [i] writes for the field value [x]: a pointer field is looked
    through, and is [null] when nil. *)
Definition derefText (ft : reflect.rtype) (i : Instr) (x : Value)
  : outcome bytes :=
  if isPtr ft then
    match x with
    | VPtr None => Done null
    | VPtr (Some y) => render i y
    | _ => BadRead
    end
  else render i x.

(** [testStruct0] and [testStruct1] of [Test_NilStruct]. *)
Definition testStruct1 : reflect.rtype :=
  reflect.StructOf
    [ reflect.mkStructField "StrVal" "str1" tString;
      reflect.mkStructField "IntVal" "int1" tInt ]
    reflect.noMethods.

Definition testStruct0 : reflect.rtype :=
  reflect.StructOf
    ([] ++ reflect.mkStructField "StructPtr" "structPtr"
             (reflect.PtrTo testStruct1) :: [])
    reflect.noMethods.

(** The texts of the elements of an array from index [j] on, as the
    instructions of [arrayLoop] write them. *)
Fixpoint arrayFrom (j : nat) (texts : list bytes) : bytes :=
  match texts with
  | [] => []
  | t :: rest =>
      (if (0 <? j)%nat then bs ", " else []) ++ t ++ arrayFrom (S j) rest
  end.

(* ------------------------------------------------------------------------- *)
(** ** Slices by their element type *)

(** The body of [NewSliceEncoderWithConfig] for a type whose element type
    is [elem]. *)
Definition sliceEncoderFor (cfg : Config) (elem : reflect.rtype)
  : outcome SliceEncoder :=
  if reflect.isTimeType elem then Done timeInstr
  else
    match reflect.KindOf elem with
    | reflect.Slice =>
        enc <- NewSliceEncoderWithConfig elem cfg ;; Done (sliceInstr enc)
    | reflect.Struct =>
        enc <- NewStructEncoderWithConfig elem cfg ;; Done (structInstr enc)
    | reflect.Map =>
        enc <- NewMapEncoderWithConfig elem cfg ;; Done (mapInstr enc)
    | reflect.String => Done stringInstr
    | reflect.Ptr =>
        match elem with
        | reflect.PtrTo elem2 =>
            if reflect.isTimeType elem2 then Done ptrTimeInstr
            else
              match reflect.KindOf elem2 with
              | reflect.Slice =>
                  Panic "reflect: call of reflect.Value.Interface on zero Value"
              | reflect.Struct =>
                  enc <- NewStructEncoderWithConfig elem2 cfg ;;
                  Done (ptrStrctInstr enc)
              | reflect.Map =>
                  enc <- NewMapEncoderWithConfig elem2 cfg ;;
                  Done (ptrMapInstr enc)
              | reflect.String => Done ptrStringInstr
              | k => Done (ptrOtherInstr k)
              end
        | _ => Panic "reflect: Elem of invalid type"
        end
    | k => Done (otherInstr k)
    end.

(** The texts of the elements of a slice from index [i] on, as the loops
    of the slice instructions write them. *)
Fixpoint sliceFrom (i : nat) (texts : list bytes) : bytes :=
  match texts with
  | [] => []
  | t :: rest =>
      (if (0 <? i)%nat then bs "," else []) ++ t ++ sliceFrom (S i) rest
  end.

(** The same for the loop of [stringInstr], which writes the first and
    the last quote apart and the others with the commas. *)
Fixpoint stringsFrom (i : nat) (ss : list bytes) : bytes :=
  match ss with
  | [] => []
  | s :: rest =>
      (if (i =? 0)%nat then [quote] else quote :: bs "," ++ [quote])
      ++ s
      ++ (match rest with [] => [quote] | _ :: _ => [] end)
      ++ stringsFrom (S i) rest
  end.

(** The kinds for which the slice constructor finds neither an encoder nor
    a conversion. *)
Definition unconvertible (k : reflect.Kind) : bool :=
  match k with
  | reflect.Invalid | reflect.Uintptr | reflect.Complex64
  | reflect.Complex128 | reflect.Array | reflect.Chan | reflect.Func
  | reflect.Interface | reflect.UnsafePointer => true
  | _ => false
  end.

(** [type DSUser struct] and [type DSUsers []*DSUser] of jingo_test.go. *)
Definition DSUser : reflect.rtype :=
  reflect.StructOf
    [ reflect.mkStructField "Username" "username" tString ]
    reflect.noMethods.

Definition DSUsers : reflect.rtype :=
  reflect.SliceOf (reflect.PtrTo DSUser) reflect.noMethods.

(** The text of a key that is a string or an integer. *)
Definition keyText (v : Value) : bytes :=
  match v with
  | VString s => s
  | VInt z => formatBase10 z
  | _ => []
  end.

(* ------------------------------------------------------------------------- *)
(** ** Texts that are JSON values *)

(** A byte that may follow a value inside an array or an object. *)
Definition isDelimiter (b : byte) : bool :=
  byteIs "," b || byteIs "]" b || byteIs "}" b.

Definition delimited (tail : bytes) : Prop :=
  match tail with
  | [] => True
  | b :: _ => isDelimiter b = true
  end.

(** [t] starts as a value does: not with a space, and not with the bracket
    that closes an array. *)
Definition startsValue (t : bytes) : Prop :=
  match t with
  | [] => False
  | b :: _ => isSpace b = false /\ byteIs "]" b = false
  end.

(** The recognizer reads [t] as one value off the start of any text in
    which a delimiter or nothing follows it. *)
Definition readsAsValue (t : bytes) : Prop :=
  forall n tail,
    delimited tail -> (List.length t <= n)%nat ->
    scanValue (S n) (t ++ tail) = Some tail.

Definition jsonValue (t : bytes) : Prop := startsValue t /\ readsAsValue t.

(* ------------------------------------------------------------------------- *)
(** ** Types whose values are always written as valid JSON *)

(** A byte that a JSON string holds as it is. *)
Definition plainByte (b : byte) : bool :=
  negb (Byte.eqb b quote) && negb (byteIs "\" b) && (32 <=? Byte.to_N b)%N.

Definition plainText (s : bytes) : bool := forallb plainByte s.

Definition isInteger (k : reflect.Kind) : bool :=
  match intRange k with
  | Some _ => true
  | None => false
  end.

Definition noText (ms : reflect.MethodSet) : bool :=
  match reflect.mMarshalText ms with
  | None => true
  | Some _ => false
  end.

(** A type of integer or string kind without [MarshalText]. *)
Definition leafType (t : reflect.rtype) : bool :=
  match t with
  | reflect.Basic k ms =>
      (isInteger k || reflect.Kind_eqb k reflect.String) && noText ms
  | _ => false
  end.

(** The types built from integers and strings by slices, by structs whose
    tags are a plain name or empty, by maps with integer or string keys,
    and by pointers to integers, strings, structs and maps; no type in
    them has a [MarshalText] method. *)
Fixpoint safeType (t : reflect.rtype) : bool :=
  match t with
  | reflect.Basic _ _ => leafType t
  | reflect.PtrTo t' =>
      match t' with
      | reflect.Basic _ _ | reflect.StructOf _ _ | reflect.MapOf _ _ _ =>
          safeType t'
      | _ => false
      end
  | reflect.SliceOf elem ms => safeType elem && noText ms
  | reflect.StructOf fields ms =>
      (fix safeFields (fields : list reflect.StructField) : bool :=
         match fields with
         | [] => true
         | reflect.mkStructField _ tag ft :: rest =>
             negb (hasComma tag)
             && (String.eqb tag EmptyString
                 || (plainText (bs tag) && safeType ft))
             && safeFields rest
         end) fields
      && noText ms
  | reflect.MapOf key elem ms =>
      leafType key && safeType elem && noText ms
  | _ => false
  end.

(** The values of a safe type: the strings in them need no escaping, and
    a struct value has a value for each field. *)
Fixpoint hasType (t : reflect.rtype) (v : Value) {struct t} : bool :=
  match t with
  | reflect.Basic k _ =>
      match v with
      | VInt _ => isInteger k
      | VString s => reflect.Kind_eqb k reflect.String && plainText s
      | _ => false
      end
  | reflect.PtrTo t' =>
      match v with
      | VPtr None => true
      | VPtr (Some y) => hasType t' y
      | _ => false
      end
  | reflect.SliceOf elem _ =>
      match v with
      | VSlice xs => forallb (hasType elem) xs
      | _ => false
      end
  | reflect.StructOf fields _ =>
      match v with
      | VStruct vs =>
          (fix fieldsTyped (fields : list reflect.StructField)
             (vs : list Value) : bool :=
             match fields, vs with
             | [], [] => true
             | reflect.mkStructField _ tag ft :: rest, x :: xs =>
                 (String.eqb tag EmptyString || hasType ft x)
                 && fieldsTyped rest xs
             | _, _ => false
             end) fields vs
      | _ => false
      end
  | reflect.MapOf key elem _ =>
      match v with
      | VMap None => true
      | VMap (Some entries) =>
          forallb (fun en => hasType key (fst en) && hasType elem (snd en))
            entries
      | _ => false
      end
  | _ => false
  end.

(** The instruction that writes a value of type [t] wherever it stands,
    as a field, an element of a slice or an element of a map: the
    conversion of its kind or the [Marshal] of the encoder of its type,
    behind [derefOrNull] for a pointer. *)
Definition valueInstr (cfg : Config) (t : reflect.rtype) : outcome Instr :=
  i <- match reflect.KindOf (pointee t) with
       | reflect.Struct =>
           enc <- NewStructEncoderWithConfig (pointee t) cfg ;;
           Done (StructEncoder_Marshal enc)
       | reflect.Map =>
           enc <- NewMapEncoderWithConfig (pointee t) cfg ;;
           Done (MapEncoder_Marshal enc)
       | reflect.Slice =>
           enc <- NewSliceEncoderWithConfig (pointee t) cfg ;;
           Done (SliceEncoder_Marshal enc)
       | reflect.String => Done (quoted ptrStringToBuf)
       | k => Done (typeconvOrNil k)
       end ;;
  Done (if isPtr t then derefOrNull i else i).

(** [i] writes every value of type [t] as a JSON value, and only appends. *)
Definition writesJSON (t : reflect.rtype) (i : Instr) : Prop :=
  appends i
  /\ forall v, hasType t v = true ->
       exists out, render i v = Done out /\ jsonValue out.

(** The conditions [safeType] and [hasType] put on the fields of a
    struct, by themselves. *)
Fixpoint safeFields (fields : list reflect.StructField) : bool :=
  match fields with
  | [] => true
  | f :: rest =>
      negb (hasComma (reflect.Tag f))
      && (String.eqb (reflect.Tag f) EmptyString
          || (plainText (bs (reflect.Tag f)) && safeType (reflect.Typ f)))
      && safeFields rest
  end.

Fixpoint fieldsTyped (fields : list reflect.StructField) (vs : list Value)
  : bool :=
  match fields, vs with
  | [], [] => true
  | f :: rest, x :: xs =>
      (String.eqb (reflect.Tag f) EmptyString || hasType (reflect.Typ f) x)
      && fieldsTyped rest xs
  | _, _ => false
  end.


(* ------------------------------------------------------------------------- *)
(** * Buffers and the outcome monad *)

Lemma Write_nil (w : Buffer) : Write w [] = w.
Proof. destruct w as [b]. unfold Write. simpl. now rewrite app_nil_r. Qed.

Lemma Write_Write (w : Buffer) (a b : bytes) :
  (Write (Write w a) b) = Write w (a ++ b).
Proof. unfold Write. simpl. now rewrite app_assoc. Qed.

Lemma WriteByte_Write (w : Buffer) (c : byte) : WriteByte w c = Write w [c].
Proof. reflexivity. Qed.

Lemma Write_empty (t : bytes) : Write (mkBuffer []) t = mkBuffer t.
Proof. reflexivity. Qed.

Lemma Bytes_Write (w : Buffer) (t : bytes) : Bytes (Write w t) = Bytes w ++ t.
Proof. reflexivity. Qed.

Lemma bind_Done_r {A} (m : outcome A) : (x <- m ;; Done x) = m.
Proof. now destruct m. Qed.

Lemma bind_assoc {A B C} (m : outcome A) (f : A -> outcome B)
  (g : B -> outcome C) :
  (y <- (x <- m ;; f x) ;; g y) = (x <- m ;; y <- f x ;; g y).
Proof. now destruct m. Qed.

Lemma bind_ext {A B} (m : outcome A) (f g : A -> outcome B) :
  (forall a, f a = g a) -> bind m f = bind m g.
Proof. intros H. destruct m; simpl; auto. Qed.

(* ------------------------------------------------------------------------- *)
(** * The struct encoder stands for the object of its record *)

Lemma runInstructions_app (l1 l2 : list Instr) v w :
  runInstructions (l1 ++ l2) v w
  = (w' <- runInstructions l1 v w ;; runInstructions l2 v w').
Proof.
  revert w. induction l1 as [|i l1 IH]; intros w; simpl; [reflexivity|].
  destruct (i v w); simpl; auto.
Qed.

Lemma wf_empty : wf emptyStructEncoder.
Proof. unfold wf. simpl. lia. Qed.

Lemma emitted_empty v w : emitted emptyStructEncoder v w = Done w.
Proof. unfold emitted. simpl. now rewrite Write_nil. Qed.

Lemma NewStructEncoderWithConfig_StructOf fields ms cfg :
  NewStructEncoderWithConfig (reflect.StructOf fields ms) cfg
  = (r <- fieldsLoop cfg fields 0 0 (chunk (bs "{") emptyStructEncoder) ;;
     Done (flunk (chunk (bs "}") (snd r)))).
Proof.
  cbn [NewStructEncoderWithConfig].
  generalize (chunk (bs "{") emptyStructEncoder) as e.
  generalize 0%nat at 1 3 as i. generalize 0%nat as emit.
  induction fields as [|f rest IH]; intros emit i e; [reflexivity|].
  cbn [fieldsLoop]. 
  match goal with |- bind (bind ?m _) _ = _ => destruct m as [[emit' e']| |] end;
    try reflexivity.
  cbn [bind fst snd]. apply IH.
Qed.

Lemma skipn_app_le {A} (n : nat) (l1 l2 : list A) :
  (n <= List.length l1)%nat -> skipn n (l1 ++ l2) = skipn n l1 ++ l2.
Proof.
  intros H. rewrite skipn_app.
  replace (n - List.length l1)%nat with 0%nat by lia. reflexivity.
Qed.

Lemma hom_chunk (b : bytes) : hom (chunk b).
Proof.
  intros e He. split.
  - unfold wf, chunk in *. simpl. rewrite length_app. lia.
  - intros v w. unfold emitted, chunk. simpl.
    rewrite skipn_app_le by exact He.
    destruct (runInstructions (instructions e) v w); simpl; auto.
    now rewrite Write_Write.
Qed.

Lemma emitted_chunk (b : bytes) e v w :
  wf e ->
  emitted (chunk b e) v w = (w' <- emitted e v w ;; Done (Write w' b)).
Proof.
  intros He. destruct (hom_chunk b He) as [_ H]. rewrite H.
  apply bind_ext. intros w'. reflexivity.
Qed.

Lemma flunk_cases e :
  flunk e = mkStructEncoder (instructions e) (cb e) (List.length (Bytes (cb e)))
  /\ skipn (cpos e) (Bytes (cb e)) = []
  \/ flunk e = mkStructEncoder
                 (instructions e
                  ++ [fun _ w => Done (Write w (skipn (cpos e) (Bytes (cb e))))])
                 (cb e) (List.length (Bytes (cb e))).
Proof.
  unfold flunk.
  destruct (List.length (skipn (cpos e) (Bytes (cb e))) =? 0)%nat eqn:E.
  - left. split; [reflexivity|]. apply Nat.eqb_eq in E.
    now apply length_zero_iff_nil.
  - right. reflexivity.
Qed.

Lemma wf_flunk e : wf (flunk e).
Proof.
  destruct (flunk_cases e) as [[-> _]| ->]; unfold wf; simpl; lia.
Qed.

Lemma cpos_flunk e : cpos (flunk e) = List.length (Bytes (cb (flunk e))).
Proof. destruct (flunk_cases e) as [[-> _]| ->]; reflexivity. Qed.

Lemma Marshal_flunk e v w :
  StructEncoder_Marshal (flunk e) v w = emitted e v w.
Proof.
  unfold StructEncoder_Marshal, emitted.
  destruct (flunk_cases e) as [[-> E]| ->]; simpl.
  - rewrite E. destruct (runInstructions (instructions e) v w); simpl; auto.
    now rewrite Write_nil.
  - rewrite runInstructions_app. simpl.
    destruct (runInstructions (instructions e) v w); reflexivity.
Qed.

Lemma emitted_flunk e v w : emitted (flunk e) v w = emitted e v w.
Proof.
  rewrite <- (Marshal_flunk e). unfold emitted, StructEncoder_Marshal.
  rewrite cpos_flunk, skipn_all.
  destruct (runInstructions (instructions (flunk e)) v w); simpl; auto.
  now rewrite Write_nil.
Qed.

Lemma hom_flunk : hom flunk.
Proof.
  intros e He. split; [apply wf_flunk|].
  intros v w. rewrite emitted_flunk.
  rewrite <- (bind_Done_r (emitted e v w)) at 1.
  apply bind_ext. intros w'. now rewrite emitted_flunk, emitted_empty.
Qed.

Lemma emitted_add_flunk (i : Instr) e v w :
  emitted (addInstruction i (flunk e)) v w = (w' <- emitted e v w ;; i v w').
Proof.
  rewrite <- (Marshal_flunk e).
  unfold emitted, addInstruction, StructEncoder_Marshal. simpl.
  rewrite cpos_flunk, skipn_all, runInstructions_app. simpl.
  destruct (runInstructions (instructions (flunk e)) v w); simpl; auto.
  destruct (i v a); simpl; auto. now rewrite Write_nil.
Qed.

Lemma hom_add_flunk (i : Instr) : hom (fun e => addInstruction i (flunk e)).
Proof.
  intros e He. split.
  - generalize (wf_flunk e). unfold wf, addInstruction. simpl. auto.
  - intros v w. rewrite emitted_add_flunk. apply bind_ext. intros w'.
    now rewrite emitted_add_flunk, emitted_empty.
Qed.

Lemma hom_id : hom (fun e => e).
Proof.
  intros e He. split; [exact He|]. intros v w.
  rewrite <- (bind_Done_r (emitted e v w)) at 1.
  apply bind_ext. intros w'. now rewrite emitted_empty.
Qed.

Lemma hom_compose f g : hom f -> hom g -> hom (fun e => g (f e)).
Proof.
  intros Hf Hg e He.
  destruct (Hf e He) as [Wf Ef].
  destruct (Hg (f e) Wf) as [Wg Eg].
  split; [exact Wg|]. intros v w.
  rewrite Eg, Ef, bind_assoc. apply bind_ext. intros w'.
  destruct (Hf emptyStructEncoder wf_empty) as [Wf0 _].
  destruct (Hg (f emptyStructEncoder) Wf0) as [_ Eg0].
  now rewrite Eg0.
Qed.

Lemma hom_val i conv : hom (val i conv).
Proof. apply hom_add_flunk. Qed.

Lemma hom_ptrval i conv : hom (ptrval i conv).
Proof. apply hom_add_flunk. Qed.

Lemma hom_ptrstringval i conv : hom (ptrstringval i conv).
Proof. apply hom_add_flunk. Qed.

Lemma hom_arrayLoop i conv count : forall j, hom (arrayLoop i conv j count).
Proof.
  induction count as [|count IH]; intros j; simpl; [apply hom_id|].
  apply (@hom_compose
           (fun e => addInstruction _
                       (flunk (if (0 <? j)%nat then chunk (bs ", ") e else e)))
           (arrayLoop i conv (S j) count)); [|apply IH].
  apply (@hom_compose (fun e => if (0 <? j)%nat then chunk (bs ", ") e else e)
           (fun e => addInstruction _ (flunk e))); [|apply hom_add_flunk].
  destruct (0 <? j)%nat; [apply hom_chunk|apply hom_id].
Qed.

Lemma homO_Done f : hom f -> homO (fun e => Done (f e)).
Proof. intros H. left. exists f. auto. Qed.

Lemma homO_bind {A} (m : outcome A) (f : A -> StructEncoder -> StructEncoder) :
  (forall a, hom (f a)) -> homO (fun e => a <- m ;; Done (f a e)).
Proof.
  intros H. destruct m as [a|msg|]; simpl.
  - apply homO_Done, H.
  - right; left. exists msg. auto.
  - right; right. auto.
Qed.

Lemma hom_chunk_after f b : hom f -> hom (fun e => chunk b (f e)).
Proof. intros H. apply (hom_compose H (hom_chunk b)). Qed.

Lemma hom_add_flunk_after f i :
  hom f -> hom (fun e => addInstruction i (flunk (f e))).
Proof. intros H. apply (hom_compose H (hom_add_flunk i)). Qed.

Lemma hom_val_after f i conv : hom f -> hom (fun e => val i conv (f e)).
Proof. intros H. apply (hom_compose H (hom_val i conv)). Qed.

Lemma hom_ptrval_after f i conv : hom f -> hom (fun e => ptrval i conv (f e)).
Proof. intros H. apply (hom_compose H (hom_ptrval i conv)). Qed.

Lemma hom_arrayLoop_after f i conv j n :
  hom f -> hom (fun e => arrayLoop i conv j n (f e)).
Proof. intros H. apply (hom_compose H (hom_arrayLoop i conv n j)). Qed.

Lemma hom_instr_after f (instr : Instr -> StructEncoder -> StructEncoder) conv :
  (forall c, hom (instr c)) -> hom f -> hom (fun e => instr conv (f e)).
Proof. intros Hi H. apply (hom_compose H (Hi conv)). Qed.

Lemma hom_byKind_after f (b : bool) i conv :
  hom f -> hom (fun e => (if b then ptrval i else val i) conv (f e)).
Proof.
  intros H. destruct b; [apply hom_ptrval_after|apply hom_val_after]; exact H.
Qed.

Ltac hom_steps :=
  repeat first
    [ apply hom_id
    | apply hom_chunk_after
    | apply hom_add_flunk_after
    | apply hom_val_after
    | apply hom_ptrval_after
    | apply hom_byKind_after
    | apply hom_arrayLoop_after
    | apply hom_ptrstringval
    | apply hom_flunk
    | (apply hom_instr_after; [assumption|]) ].

Ltac homO_done :=
  left; eexists; split; [|intros ?; reflexivity]; cbv beta; hom_steps.

Lemma homO_valueInst f i k instr encSlice encStruct encMap :
  (forall c, hom (instr c)) ->
  homO (valueInst f i k instr encSlice encStruct encMap).
Proof.
  intros Hi. unfold valueInst.
  destruct k;
    try (destruct (typeconv _); homO_done; fail);
    try (right; left; eexists; intros ?; reflexivity).
  - (* Array *)
    destruct (reflect.Elem (reflect.Typ f)) as [elem|msg|]; cbn [bind].
    + destruct (typeconv (reflect.KindOf elem)).
      * destruct (Len (reflect.Typ f)) as [n|msg|]; cbn [bind].
        -- homO_done.
        -- right; left; eexists; intros ?; reflexivity.
        -- right; right; intros ?; reflexivity.
      * homO_done.
    + right; left; eexists; intros ?; reflexivity.
    + right; right; intros ?; reflexivity.
  - (* Map *)
    destruct encMap as [enc|msg|]; cbn [bind].
    + destruct (isPtr (reflect.Typ f)); homO_done.
    + right; left; eexists; intros ?; reflexivity.
    + right; right; intros ?; reflexivity.
  - (* Ptr *) homO_done.
  - (* Slice *)
    destruct encSlice as [enc|msg|]; cbn [bind].
    + homO_done.
    + right; left; eexists; intros ?; reflexivity.
    + right; right; intros ?; reflexivity.
  - (* String *)
    destruct (isPtr (reflect.Typ f)); homO_done.
  - (* Struct *)
    destruct encStruct as [enc|msg|]; cbn [bind].
    + destruct (isPtr (reflect.Typ f)); homO_done.
    + right; left; eexists; intros ?; reflexivity.
    + right; right; intros ?; reflexivity.
Qed.

Lemma homO_fieldValue f i opts encSlice encStruct encMap :
  homO (fieldValue f i opts encSlice encStruct encMap).
Proof.
  unfold fieldValue.
  destruct (Contains opts "stringer" && hasStringMethod (reflect.Typ f));
    [homO_done|].
  destruct (Contains opts "encoder"); [homO_done|].
  destruct (Contains opts "raw"); [homO_done|].
  destruct (reflect.isTimeType (reflect.Typ f)); [homO_done|].
  destruct (isPtr (reflect.Typ f) && reflect.isTimeType (pointee (reflect.Typ f)));
    [homO_done|].
  destruct (isPtr (reflect.Typ f)); apply homO_valueInst; intros c;
    [apply hom_ptrval|apply hom_val].
Qed.

Lemma fieldsLoop_emitted cfg fields :
  forall i emit e emit' e',
    wf e ->
    fieldsLoop cfg fields i emit e = Done (emit', e') ->
    wf e' /\
    forall v w,
      emitted e' v w
      = (w1 <- emitted e v w ;;
         writeMembers cfg
           (filter (fun m => included (snd m)) (indexed i fields))
           (emit =? 0)%nat v w1).
Proof.
  induction fields as [|f rest IH]; intros i emit e emit' e' We H.
  - simpl in H. injection H as <- <-. split; [exact We|].
    intros v w. simpl. now rewrite bind_Done_r.
  - cbn [fieldsLoop] in H. cbn [indexed filter snd].
    unfold fieldInstr in H. unfold included, keyName at 1.
    destruct (parseTag (reflect.Tag f)) as [tag opts] eqn:Etag.
    cbn [fst]. destruct (String.eqb tag EmptyString) eqn:Eempty; cbn [negb].
    + cbn [bind fst snd] in H. eapply IH; eauto.
    + set (e1 := if (1 <? S emit)%nat then chunk (bs ",") e else e) in H.
      set (e2 := chunk (quote :: bs tag ++ quote :: bs ":") e1) in H.
      assert (We2 : wf e2).
      { apply hom_chunk. unfold e1. destruct (1 <? S emit)%nat; auto.
        now apply hom_chunk. }
      assert (Ee2 : forall v w,
                 emitted e2 v w
                 = (w0 <- emitted e v w ;;
                    Done (Write w0 (memberKey (emit =? 0)%nat f)))).
      { intros v w. unfold e2. rewrite emitted_chunk.
        2:{ unfold e1. destruct (1 <? S emit)%nat; auto. now apply hom_chunk. }
        unfold e1, memberKey, keyName. rewrite Etag. cbn [fst].
        destruct emit as [|emit]; cbn [Nat.ltb Nat.leb Nat.eqb].
        - apply bind_ext. intros w0. reflexivity.
        - rewrite emitted_chunk by exact We. rewrite bind_assoc.
          apply bind_ext. intros w0. cbn [bind]. now rewrite Write_Write. }
      pose proof (homO_fieldValue f i opts
                    (NewSliceEncoderWithConfig (reflect.Typ f) cfg)
                    (NewStructEncoderWithConfig (pointee (reflect.Typ f)) cfg)
                    (NewMapEncoderWithConfig (pointee (reflect.Typ f)) cfg))
        as [[ok [Hok Eok]]|[[msg Emsg]|Ebad]].
      * rewrite Eok in H. cbn [bind fst snd] in H.
        destruct (Hok e2 We2) as [Wok Eemit].
        destruct (IH _ _ _ _ _ Wok H) as [We' Ee']. split; [exact We'|].
        intros v w. rewrite Ee', Eemit, Ee2, !bind_assoc.
        apply bind_ext. intros w0. cbn [bind writeMembers].
        unfold writeValue at 1. rewrite Etag. cbn [snd]. rewrite Eok.
        cbn [bind]. reflexivity.
      * rewrite Emsg in H. discriminate H.
      * rewrite Ebad in H. discriminate H.
Qed.

(** The compiled instructions of a record write the object of its
    members. *)
Lemma Marshal_writeObject fields ms cfg enc :
  NewStructEncoderWithConfig (reflect.StructOf fields ms) cfg = Done enc ->
  forall v w, StructEncoder_Marshal enc v w = writeObject cfg fields v w.
Proof.
  rewrite NewStructEncoderWithConfig_StructOf. intros H v w.
  destruct (fieldsLoop cfg fields 0 0 (chunk (bs "{") emptyStructEncoder))
    as [[emit e]| |] eqn:Eloop; try discriminate H.
  cbn [bind snd] in H. injection H as <-.
  assert (W0 : wf (chunk (bs "{") emptyStructEncoder))
    by (apply hom_chunk, wf_empty).
  destruct (fieldsLoop_emitted _ _ _ _ W0 Eloop) as [We Ee].
  rewrite Marshal_flunk, emitted_chunk by exact We.
  rewrite Ee, emitted_chunk by apply wf_empty.
  rewrite emitted_empty. cbn [bind]. reflexivity.
Qed.

(* ------------------------------------------------------------------------- *)
(** * Every instruction only appends *)

Lemma appends_app1 (i : Instr) : appends i <-> forall v, app1 (i v).
Proof.
  unfold appends, app1, render. split; intros H v w; rewrite (H v w);
    now rewrite ?bind_assoc.
Qed.

Lemma app1_ext (a b : Buffer -> outcome Buffer) :
  (forall w, a w = b w) -> app1 a -> app1 b.
Proof. intros E H w. rewrite <- !E. apply H. Qed.

Lemma app1_Done : app1 (fun w => Done w).
Proof. intros w. simpl. now rewrite Write_nil. Qed.

Lemma app1_Write t : app1 (fun w => Done (Write w t)).
Proof. intros w. reflexivity. Qed.

Lemma app1_WriteByte c : app1 (fun w => Done (WriteByte w c)).
Proof. intros w. reflexivity. Qed.

Lemma app1_Panic msg : app1 (fun _ => Panic msg).
Proof. intros w. reflexivity. Qed.

Lemma app1_BadRead : app1 (fun _ => BadRead).
Proof. intros w. reflexivity. Qed.

Lemma app1_bind (a b : Buffer -> outcome Buffer) :
  app1 a -> app1 b -> app1 (fun w => w' <- a w ;; b w').
Proof.
  intros Ha Hb w. rewrite (Ha w).
  destruct (a (mkBuffer [])) as [wa| |]; simpl; auto.
  rewrite (Hb (Write w (Bytes wa))), (Hb wa).
  destruct (b (mkBuffer [])) as [wb| |]; simpl; auto.
  now rewrite !Write_Write.
Qed.

Lemma app1_after (g : Buffer -> Buffer) (a : Buffer -> outcome Buffer) :
  app1 (fun w => Done (g w)) -> app1 a -> app1 (fun w => a (g w)).
Proof.
  intros Hg Ha.
  apply (@app1_ext (fun w => w' <- Done (g w) ;; a w'));
    [reflexivity|]. now apply app1_bind.
Qed.

Lemma app1_then (a : Buffer -> outcome Buffer) (g : Buffer -> Buffer) :
  app1 a -> app1 (fun w => Done (g w)) ->
  app1 (fun w => w' <- a w ;; Done (g w')).
Proof. intros Ha Hg. now apply app1_bind. Qed.

Lemma app1_comma i : app1 (fun w => Done (comma i w)).
Proof. unfold comma. destruct (0 <? i)%nat; [apply app1_WriteByte|apply app1_Done]. Qed.

Lemma app1_if (c : bool) (g h : Buffer -> Buffer) :
  app1 (fun w => Done (g w)) -> app1 (fun w => Done (h w)) ->
  app1 (fun w => Done (if c then g w else h w)).
Proof. destruct c; auto. Qed.

Lemma app1_sliceLoop step len elems :
  (forall i x, app1 (step i len x)) ->
  forall i, app1 (sliceLoop step i len elems).
Proof.
  intros Hs. induction elems as [|x rest IH]; intros i; simpl.
  - apply app1_Done.
  - apply app1_bind; auto.
Qed.

Lemma app1_entriesLoop {A} (step : nat -> A -> Buffer -> outcome Buffer) l :
  (forall i x, app1 (step i x)) ->
  forall i, app1 (entriesLoop step i l).
Proof.
  intros Hs. induction l as [|x rest IH]; intros i; simpl.
  - apply app1_Done.
  - apply app1_bind; auto.
Qed.

Lemma appends_overSlice step :
  (forall i len x, app1 (step i len x)) -> appends (overSlice step).
Proof.
  intros Hs. apply appends_app1. intros v. unfold overSlice.
  destruct v; try apply app1_BadRead.
  apply app1_then; [|apply app1_WriteByte].
  apply app1_after; [apply app1_WriteByte|].
  apply app1_sliceLoop. intros i x. apply Hs.
Qed.

Lemma app1_derefOrNull conv x :
  appends conv -> app1 (derefOrNull conv x).
Proof.
  intros H. unfold derefOrNull. destruct x; try apply app1_BadRead.
  destruct p; [apply appends_app1, H|apply app1_Write].
Qed.

Lemma appends_quoted conv : appends conv -> appends (quoted conv).
Proof.
  intros H. apply appends_app1. intros v. unfold quoted.
  apply app1_then; [|apply app1_WriteByte].
  apply app1_after; [apply app1_WriteByte|]. apply appends_app1, H.
Qed.

Lemma appends_ptrBoolToBuf : appends ptrBoolToBuf.
Proof.
  apply appends_app1. intros v. unfold ptrBoolToBuf.
  destruct v; try apply app1_BadRead.
  destruct b; intros w; simpl; now rewrite ?Write_Write.
Qed.

Lemma appends_ptrSignedToBuf n : appends (ptrSignedToBuf n).
Proof.
  apply appends_app1. intros v. unfold ptrSignedToBuf.
  destruct v; try apply app1_BadRead. apply app1_Write.
Qed.

Lemma appends_ptrUnsignedToBuf n : appends (ptrUnsignedToBuf n).
Proof.
  apply appends_app1. intros v. unfold ptrUnsignedToBuf.
  destruct v; try apply app1_BadRead. apply app1_Write.
Qed.

Lemma appends_ptrFloatToBuf : appends ptrFloatToBuf.
Proof.
  apply appends_app1. intros v. unfold ptrFloatToBuf.
  destruct v; try apply app1_BadRead. apply app1_Write.
Qed.

Lemma appends_ptrStringToBuf : appends ptrStringToBuf.
Proof.
  apply appends_app1. intros v. unfold ptrStringToBuf.
  destruct v; try apply app1_BadRead. apply app1_Write.
Qed.

Lemma appends_ptrTimeToBuf : appends ptrTimeToBuf.
Proof.
  apply appends_app1. intros v. unfold ptrTimeToBuf.
  destruct v; try apply app1_BadRead. apply app1_Write.
Qed.

Lemma appends_typeconv k conv : typeconv k = Some conv -> appends conv.
Proof.
  destruct k; simpl; intros H; try discriminate H; injection H as <-;
    first [ apply appends_ptrBoolToBuf | apply appends_ptrSignedToBuf
          | apply appends_ptrUnsignedToBuf | apply appends_ptrFloatToBuf
          | apply appends_ptrStringToBuf ].
Qed.

Lemma appends_typeconvOrNil k : appends (typeconvOrNil k).
Proof.
  unfold typeconvOrNil. destruct (typeconv k) eqn:E.
  - eapply appends_typeconv; eauto.
  - apply appends_app1. intros v. apply app1_Panic.
Qed.

Lemma appends_marshalText f : appends (marshalText f).
Proof. apply appends_app1. intros v. apply app1_Write. Qed.

Lemma app1_after_comma a i : app1 a -> app1 (fun w => a (comma i w)).
Proof. intros H. apply (app1_after (comma i)); [apply app1_comma|exact H]. Qed.

Lemma app1_after_Write a t : app1 a -> app1 (fun w => a (Write w t)).
Proof. intros H. apply (app1_after (fun w => Write w t)); [apply app1_Write|exact H]. Qed.

Lemma app1_after_WriteByte a c : app1 a -> app1 (fun w => a (WriteByte w c)).
Proof. intros H. apply (app1_after (fun w => WriteByte w c)); [apply app1_WriteByte|exact H]. Qed.

Lemma app1_appends (i : Instr) v : appends i -> app1 (i v).
Proof. intros H. now apply appends_app1. Qed.

Lemma appends_Marshal_None : appends (SliceEncoder_Marshal (mkSliceEncoder None)).
Proof. apply appends_app1. intros v. apply app1_Panic. Qed.

Lemma writer_Write (g : Buffer -> Buffer) t :
  app1 (fun w => Done (g w)) -> app1 (fun w => Done (Write (g w) t)).
Proof.
  intros H. apply (@app1_ext (fun w => w' <- Done (g w) ;; Done (Write w' t)));
    [reflexivity|]. apply app1_bind; [exact H|apply app1_Write].
Qed.

Lemma writer_WriteByte (g : Buffer -> Buffer) c :
  app1 (fun w => Done (g w)) -> app1 (fun w => Done (WriteByte (g w) c)).
Proof. apply writer_Write. Qed.

Lemma writer_comma (g : Buffer -> Buffer) i :
  app1 (fun w => Done (g w)) -> app1 (fun w => Done (comma i (g w))).
Proof.
  unfold comma. destruct (0 <? i)%nat; [apply writer_WriteByte|auto].
Qed.

Ltac app1_solve :=
  repeat first
    [ assumption
    | apply app1_Done | apply app1_Panic | apply app1_BadRead
    | apply writer_Write | apply writer_WriteByte | apply writer_comma
    | apply app1_bind
    | apply app1_derefOrNull
    | apply appends_quoted
    | apply appends_ptrStringToBuf | apply appends_ptrTimeToBuf
    | (apply app1_appends; first [assumption | apply appends_quoted
                                  | apply appends_ptrStringToBuf
                                  | apply appends_ptrTimeToBuf])
    | match goal with
      | |- app1 (fun w => ?a (@?g w)) => apply (@app1_after g a)
      end ].

Lemma appends_sliceInstr enc :
  appends (SliceEncoder_Marshal enc) ->
  appends (SliceEncoder_Marshal (sliceInstr enc)).
Proof. intros H. apply appends_overSlice. intros i len x. app1_solve. Qed.

Lemma appends_structInstr enc :
  appends (StructEncoder_Marshal enc) ->
  appends (SliceEncoder_Marshal (structInstr enc)).
Proof. intros H. apply appends_overSlice. intros i len x. app1_solve. Qed.

Lemma appends_mapInstr enc :
  appends (MapEncoder_Marshal enc) ->
  appends (SliceEncoder_Marshal (mapInstr enc)).
Proof. intros H. apply appends_overSlice. intros i len x. app1_solve. Qed.

Lemma appends_stringInstr : appends (SliceEncoder_Marshal stringInstr).
Proof.
  apply appends_overSlice. intros i len x.
  destruct (i =? 0)%nat, (0 <? i)%nat, (i =? len - 1)%nat; cbv zeta;
    app1_solve.
Qed.

Lemma appends_otherInstr k : appends (SliceEncoder_Marshal (otherInstr k)).
Proof.
  unfold otherInstr. destruct (typeconv k) eqn:E.
  - apply appends_overSlice. intros j len x.
    pose proof (appends_typeconv _ E). app1_solve.
  - apply appends_Marshal_None.
Qed.

Lemma appends_timeInstr : appends (SliceEncoder_Marshal timeInstr).
Proof. apply appends_overSlice. intros i len x. app1_solve. Qed.

Lemma appends_ptrStrctInstr enc :
  appends (StructEncoder_Marshal enc) ->
  appends (SliceEncoder_Marshal (ptrStrctInstr enc)).
Proof. intros H. apply appends_overSlice. intros i len x. app1_solve. Qed.

Lemma appends_ptrMapInstr enc :
  appends (MapEncoder_Marshal enc) ->
  appends (SliceEncoder_Marshal (ptrMapInstr enc)).
Proof. intros H. apply appends_overSlice. intros i len x. app1_solve. Qed.

Lemma appends_ptrStringInstr : appends (SliceEncoder_Marshal ptrStringInstr).
Proof. apply appends_overSlice. intros i len x. app1_solve. Qed.

Lemma appends_ptrOtherInstr k :
  appends (SliceEncoder_Marshal (ptrOtherInstr k)).
Proof.
  unfold ptrOtherInstr. destruct (typeconv k) eqn:E.
  - apply appends_overSlice. intros j len x.
    pose proof (appends_typeconv _ E). app1_solve.
  - apply appends_Marshal_None.
Qed.

Lemma appends_ptrTimeInstr : appends (SliceEncoder_Marshal ptrTimeInstr).
Proof. apply appends_overSlice. intros i len x. app1_solve. Qed.

(** The map instructions that write as they iterate. *)
Lemma appends_ptrStrElemInstr : appends ptrStrElemInstr.
Proof.
  apply appends_app1. intros v. unfold ptrStrElemInstr.
  destruct v; try apply app1_BadRead. destruct p; app1_solve.
Qed.

Lemma appends_ptrElemInstr conv : appends conv -> appends (ptrElemInstr conv).
Proof.
  intros H. apply appends_app1. intros v. unfold ptrElemInstr.
  destruct v; try apply app1_BadRead. destruct p; app1_solve.
Qed.

Lemma appends_ptrKeyInstr conv : appends conv -> appends (ptrKeyInstr conv).
Proof.
  intros H. apply appends_app1. intros v. unfold ptrKeyInstr.
  destruct v; try apply app1_BadRead. destruct p; app1_solve.
Qed.

Lemma appends_strStrInstr : appends strStrInstr.
Proof.
  apply appends_app1. intros v. unfold strStrInstr.
  destruct v; try apply app1_BadRead. destruct m as [m|]; [|apply app1_Write].
  destruct (List.length m =? 0)%nat; [apply app1_Write|]. cbv zeta.
  apply app1_bind; [|apply app1_Write].
  apply app1_after_Write. apply app1_entriesLoop. intros i x.
  destruct (negb (i =? 0)%nat); app1_solve.
Qed.

Lemma appends_instr kconv econv :
  appends kconv -> appends econv -> appends (instr kconv econv).
Proof.
  intros Hk He. apply appends_app1. intros v. unfold instr.
  destruct v; try apply app1_BadRead. destruct m as [m|]; [|apply app1_Write].
  destruct (List.length m =? 0)%nat; [apply app1_Write|]. cbv zeta.
  apply app1_bind; [|apply app1_WriteByte].
  apply app1_after_Write. apply app1_entriesLoop. intros i x.
  destruct (negb (i =? 0)%nat); app1_solve.
Qed.

(* ------------------------------------------------------------------------- *)
(** * Sorting by rendered key *)

Lemma to_N_inj (x y : byte) : Byte.to_N x = Byte.to_N y -> x = y.
Proof.
  intros H. assert (E : Some x = Some y)
    by (rewrite <- (Byte.of_to_N x), <- (Byte.of_to_N y), H; reflexivity).
  now injection E.
Qed.

Lemma bytes_Compare_antisym a : forall b,
  bytes_Compare b a = (- bytes_Compare a b)%Z.
Proof.
  induction a as [|x a IH]; intros [|y b]; simpl; try reflexivity.
  destruct (Byte.to_N x <? Byte.to_N y)%N eqn:E1,
           (Byte.to_N y <? Byte.to_N x)%N eqn:E2; try reflexivity.
  - apply N.ltb_lt in E1, E2. lia.
  - apply IH.
Qed.

Lemma bytes_Compare_eq a : forall b, bytes_Compare a b = 0%Z -> a = b.
Proof.
  induction a as [|x a IH]; intros [|y b]; simpl; try reflexivity;
    try discriminate.
  destruct (Byte.to_N x <? Byte.to_N y)%N eqn:E1; [discriminate|].
  destruct (Byte.to_N y <? Byte.to_N x)%N eqn:E2; [discriminate|].
  intros H. apply N.ltb_ge in E1, E2. f_equal; [|now apply IH].
  apply to_N_inj. lia.
Qed.

Lemma bytes_Compare_refl a : bytes_Compare a a = 0%Z.
Proof.
  induction a as [|x a IH]; simpl; [reflexivity|].
  now rewrite N.ltb_irrefl.
Qed.

Lemma bytes_Compare_trans a : forall b c,
  (bytes_Compare a b <= 0)%Z -> (bytes_Compare b c <= 0)%Z ->
  (bytes_Compare a c <= 0)%Z.
Proof.
  induction a as [|x a IH]; intros [|y b] [|z c]; simpl; try lia.
  destruct (Byte.to_N x <? Byte.to_N y)%N eqn:E1,
           (Byte.to_N y <? Byte.to_N x)%N eqn:E2,
           (Byte.to_N y <? Byte.to_N z)%N eqn:E3,
           (Byte.to_N z <? Byte.to_N y)%N eqn:E4,
           (Byte.to_N x <? Byte.to_N z)%N eqn:E5,
           (Byte.to_N z <? Byte.to_N x)%N eqn:E6;
    try lia;
    repeat match goal with
           | H : (_ <? _)%N = true |- _ => apply N.ltb_lt in H
           | H : (_ <? _)%N = false |- _ => apply N.ltb_ge in H
           end; try lia.
  apply IH.
Qed.

Section SortedByKey.

Context {A : Type} (key : A -> bytes).

#[local] Abbreviation less := (lessBy key).
#[local] Abbreviation le := (leBy key).

Lemma moveLeft_perm x p : Permutation (moveLeft less x p) (x :: p).
Proof.
  induction p as [|y p IH]; simpl; [reflexivity|].
  destruct (less x y); [|reflexivity].
  rewrite IH. apply perm_swap.
Qed.

Lemma fold_moveLeft_perm l : forall p,
  Permutation (fold_left (fun prefix x => moveLeft less x prefix) l p)
              (rev l ++ p).
Proof.
  induction l as [|x l IH]; intros p; simpl; [reflexivity|].
  rewrite IH, moveLeft_perm, <- app_assoc. simpl.
  apply Permutation_app_head. reflexivity.
Qed.

Lemma insertionSort_perm l : Permutation (insertionSort less l) l.
Proof.
  unfold insertionSort. rewrite <- Permutation_rev, fold_moveLeft_perm.
  rewrite app_nil_r. symmetry. apply Permutation_rev.
Qed.

Lemma moveLeft_desc x p :
  StronglySorted (fun a b => le b a) p ->
  StronglySorted (fun a b => le b a) (moveLeft less x p).
Proof.
  induction p as [|y p IH]; intros H; simpl.
  - constructor; constructor.
  - inversion H as [|? ? Hp Hy]; subst.
    destruct (less x y) eqn:E; unfold less in E.
    + constructor; [now apply IH|].
      apply (Permutation_Forall (Permutation_sym (moveLeft_perm x p))).
      constructor; [|exact Hy].
      unfold le. apply Z.ltb_lt in E. lia.
    + apply Z.ltb_ge in E.
      assert (Lyx : le y x)
        by (unfold le; rewrite bytes_Compare_antisym; lia).
      constructor; [exact H|]. constructor; [exact Lyx|].
      eapply Forall_impl; [|exact Hy]. intros z Hz. unfold le in *.
      eapply bytes_Compare_trans; eauto.
Qed.

Lemma fold_moveLeft_desc l : forall p,
  StronglySorted (fun a b => le b a) p ->
  StronglySorted (fun a b => le b a)
    (fold_left (fun prefix x => moveLeft less x prefix) l p).
Proof.
  induction l as [|x l IH]; intros p H; simpl; [exact H|].
  apply IH, moveLeft_desc, H.
Qed.

Lemma StronglySorted_snoc (R : A -> A -> Prop) l x :
  StronglySorted R l -> Forall (fun y => R y x) l ->
  StronglySorted R (l ++ [x]).
Proof.
  induction l as [|y l IH]; intros Hs Hx; simpl.
  - constructor; constructor.
  - inversion Hs as [|? ? Hl Hy]; subst.
    inversion Hx as [|? ? Hyx Hlx]; subst.
    constructor; [now apply IH|].
    apply Forall_app. split; [exact Hy|]. constructor; [exact Hyx|constructor].
Qed.

Lemma StronglySorted_rev (R : A -> A -> Prop) l :
  StronglySorted (fun a b => R b a) l -> StronglySorted R (rev l).
Proof.
  induction l as [|x l IH]; intros H; simpl; [constructor|].
  inversion H as [|? ? Hl Hx]; subst.
  apply StronglySorted_snoc; [now apply IH|].
  apply Forall_rev. exact Hx.
Qed.

Lemma insertionSort_sorted l : StronglySorted le (insertionSort less l).
Proof.
  apply StronglySorted_rev, fold_moveLeft_desc. constructor.
Qed.

(** Two sorted arrangements of the same entries with distinct keys are
    equal: with distinct keys any correct sort gives the same result. *)
Lemma sorted_permutation_unique l1 : forall l2,
  Permutation l1 l2 ->
  StronglySorted le l1 -> StronglySorted le l2 ->
  NoDup (map key l1) ->
  l1 = l2.
Proof.
  induction l1 as [|x l1 IH]; intros l2 P S1 S2 N.
  - apply Permutation_nil in P. now subst.
  - destruct l2 as [|y l2];
      [apply Permutation_sym, Permutation_nil in P; discriminate|].
    inversion S1 as [|? ? S1' F1]; subst.
    inversion S2 as [|? ? S2' F2]; subst.
    assert (Exy : x = y).
    { assert (Hx : In x (y :: l2))
        by (eapply Permutation_in; [exact P|now left]).
      assert (Hy : In y (x :: l1))
        by (eapply Permutation_in; [symmetry; exact P|now left]).
      destruct Hx as [->|Hx]; [reflexivity|].
      destruct Hy as [->|Hy]; [reflexivity|].
      rewrite Forall_forall in F1, F2.
      pose proof (F1 _ Hy) as L1. pose proof (F2 _ Hx) as L2.
      unfold le in L1, L2. rewrite bytes_Compare_antisym in L2.
      assert (K : key x = key y) by (apply bytes_Compare_eq; lia).
      simpl in N. inversion N as [|? ? Nx _]; subst.
      exfalso. apply Nx. rewrite K. now apply in_map. }
    subst y. f_equal. apply IH; auto.
    + eapply Permutation_cons_inv; eauto.
    + simpl in N. now inversion N.
Qed.

Lemma insertionSort_permutation_invariant l1 l2 :
  Permutation l1 l2 -> NoDup (map key l1) ->
  insertionSort less l1 = insertionSort less l2.
Proof.
  intros P N. apply sorted_permutation_unique.
  - rewrite !insertionSort_perm. exact P.
  - apply insertionSort_sorted.
  - apply insertionSort_sorted.
  - eapply Permutation_NoDup; [|exact N].
    apply Permutation_map. symmetry. apply insertionSort_perm.
Qed.

End SortedByKey.

Lemma moveLeft_Forall2 {A B} (R : A -> B -> Prop) lessA lessB :
  (forall a b a' b', R a b -> R a' b' -> lessA a a' = lessB b b') ->
  forall x y p q, R x y -> Forall2 R p q ->
    Forall2 R (moveLeft lessA x p) (moveLeft lessB y q).
Proof.
  intros Hless x y p q Hxy H.
  induction H as [|a b p q Hab H IH]; simpl.
  - constructor; [exact Hxy|constructor].
  - rewrite (Hless _ _ _ _ Hxy Hab). destruct (lessB y b).
    + constructor; assumption.
    + constructor; [exact Hxy|]. constructor; assumption.
Qed.

Lemma insertionSort_Forall2 {A B} (R : A -> B -> Prop) lessA lessB :
  (forall a b a' b', R a b -> R a' b' -> lessA a a' = lessB b b') ->
  forall l m, Forall2 R l m ->
    Forall2 R (insertionSort lessA l) (insertionSort lessB m).
Proof.
  intros Hless l m H. unfold insertionSort.
  assert (G : forall p q, Forall2 R p q ->
            Forall2 R (fold_left (fun prefix x => moveLeft lessA x prefix) l p)
                      (fold_left (fun prefix x => moveLeft lessB x prefix) m q)).
  { induction H as [|a b l m Hab H IH]; intros p q Hpq; simpl; [exact Hpq|].
    apply IH. now apply moveLeft_Forall2. }
  specialize (G [] [] (Forall2_nil R)).
  revert G. generalize (fold_left (fun prefix x => moveLeft lessA x prefix) l []).
  generalize (fold_left (fun prefix x => moveLeft lessB x prefix) m []).
  intros q p G. induction G; simpl; [constructor|].
  apply Forall2_app; [assumption|]. constructor; [assumption|constructor].
Qed.

Lemma mapM_Forall2 {A B} (f : A -> outcome B) l : forall ys,
  mapM f l = Done ys <-> Forall2 (fun x y => f x = Done y) l ys.
Proof.
  induction l as [|x l IH]; intros ys; simpl.
  - split; intros H.
    + injection H as <-. constructor.
    + inversion H. reflexivity.
  - split; intros H.
    + destruct (f x) as [y| |] eqn:E; try discriminate H. cbn [bind] in H.
      destruct (mapM f l) as [ys'| |] eqn:E'; try discriminate H.
      cbn [bind] in H. injection H as <-.
      constructor; [exact E|]. now apply IH.
    + inversion H as [|? y ? ys' Hx Hl]; subst. rewrite Hx. cbn [bind].
      apply IH in Hl. rewrite Hl. reflexivity.
Qed.

Ltac norm_app :=
  repeat first [progress cbn [app] | rewrite <- app_assoc].

Lemma objectText_membersFrom ms :
  ms <> [] ->
  objectText ms = (bs "{" ++ [quote]) ++ membersFrom 0 ms ++ bs "}".
Proof.
  intros Hne. unfold objectText.
  assert (G : forall i l, membersFrom (S i) l
                          = List.concat (map (fun m => bs "," ++ memberText m) l)).
  { intros i l. revert i. induction l as [|m l IH]; intros i; simpl;
      [reflexivity|]. rewrite IH. unfold memberText. simpl.
    rewrite <- ?app_assoc. reflexivity. }
  assert (J : forall x l, joinComma (x :: l)
                          = x ++ List.concat (map (fun m => bs "," ++ m) l)).
  { intros x l. revert x. induction l as [|y l IH]; intros x.
    - simpl. now rewrite app_nil_r.
    - change (joinComma (x :: y :: l)) with (x ++ bs "," ++ joinComma (y :: l)).
      rewrite IH. simpl. rewrite <- ?app_assoc. reflexivity. }
  destruct ms as [|m ms]; [contradiction|].
  cbn [map]. rewrite J. cbn [membersFrom Nat.eqb negb]. rewrite G.
  rewrite map_map. unfold memberText. simpl. norm_app.
  reflexivity.
Qed.

(* ------------------------------------------------------------------------- *)
(** * The map instructions write the object of the entries *)

Lemma appends_Done (i : Instr) v w t :
  appends i -> render i v = Done t -> i v w = Done (Write w t).
Proof. intros H E. rewrite (H v w), E. reflexivity. Qed.

Lemma instr_loop_text kconv econv :
  appends kconv -> appends econv ->
  forall entries ms,
    Forall2 (fun en m => render kconv (fst en) = Done (fst m)
                         /\ render econv (snd en) = Done (snd m)) entries ms ->
    forall i w,
      entriesLoop (fun i (it : Value * Value) w =>
                     let w := if negb (i =? 0)%nat
                              then Write w (bs "," ++ [quote]) else w in
                     w <- kconv (fst it) w ;;
                     let w := Write w (quote :: bs ":") in
                     econv (snd it) w) i entries w
      = Done (Write w (membersFrom i ms)).
Proof.
  intros Hk He entries ms H.
  induction H as [|en m entries ms [Ek Ee] H IH]; intros i w;
    cbn [entriesLoop membersFrom].
  - now rewrite Write_nil.
  - cbv zeta. rewrite (appends_Done _ _ Hk Ek). cbn [bind].
    rewrite (appends_Done _ _ He Ee). cbn [bind]. rewrite IH.
    f_equal. destruct (negb (i =? 0)%nat); rewrite ?Write_Write;
      f_equal; norm_app; reflexivity.
Qed.

Lemma Forall2_nonempty {A B} (R : A -> B -> Prop) l m :
  Forall2 R l m -> l <> [] -> m <> [].
Proof. intros H. destruct H; intros N; [contradiction|discriminate]. Qed.

Lemma instr_text kconv econv :
  appends kconv -> appends econv ->
  forall entries ms,
    Forall2 (fun en m => render kconv (fst en) = Done (fst m)
                         /\ render econv (snd en) = Done (snd m)) entries ms ->
    forall w,
      instr kconv econv (VMap (Some entries)) w = Done (Write w (objectText ms)).
Proof.
  intros Hk He entries ms H w. unfold instr.
  destruct entries as [|en entries].
  - inversion H. reflexivity.
  - cbn [List.length Nat.eqb]. cbv zeta.
    rewrite (instr_loop_text Hk He H). cbn [bind].
    rewrite objectText_membersFrom
      by (eapply Forall2_nonempty; [exact H|discriminate]).
    rewrite WriteByte_Write, !Write_Write.
    do 2 f_equal; try (norm_app; reflexivity).
Qed.

Lemma firstn_skipn_span {A} (w t : list A) :
  firstn (List.length (w ++ t) - List.length w) (skipn (List.length w) (w ++ t))
  = t.
Proof.
  rewrite skipn_app, skipn_all, Nat.sub_diag, length_app. simpl.
  replace (List.length w + List.length t - List.length w)%nat
    with (List.length t) by lia.
  apply firstn_all.
Qed.

Lemma collectKeys_eq kconv :
  appends kconv ->
  forall m kvs w,
    collectKeys kconv m kvs w
    = (ks <- renderKeys kconv m ;;
       Done (kvs ++ ks, Write w (List.concat (map k ks)))).
Proof.
  intros Hk m. induction m as [|[key elem] m IH]; intros kvs w;
    cbn [collectKeys renderKeys].
  - cbn [bind map List.concat]. now rewrite app_nil_r, Write_nil.
  - rewrite (Hk key w). destruct (render kconv key) as [t| |]; cbn [bind];
      try reflexivity.
    rewrite IH. destruct (renderKeys kconv m) as [ks| |]; cbn [bind];
      try reflexivity.
    rewrite Bytes_Write, firstn_skipn_span, <- app_assoc, Write_Write.
    reflexivity.
Qed.

Lemma splice_eq (w key body : bytes) :
  firstn (List.length w) ((w ++ key) ++ body)
  ++ skipn (List.length (w ++ key)) ((w ++ key) ++ body)
  = w ++ body.
Proof.
  rewrite skipn_app, skipn_all, Nat.sub_diag. simpl.
  rewrite <- app_assoc, firstn_app, firstn_all, Nat.sub_diag. simpl.
  now rewrite app_nil_r.
Qed.

Lemma app1_sortStep econv :
  appends econv ->
  forall i kv,
    app1 (fun w =>
            let w := if negb (i =? 0)%nat
                     then Write w (bs "," ++ [quote]) else w in
            let w := mkBuffer (Bytes w ++ k kv) in
            let w := Write w (quote :: bs ":") in
            econv (e kv) w).
Proof.
  intros He i kv. cbv zeta.
  change (fun w => econv (e kv)
            (Write (mkBuffer (Bytes (if negb (i =? 0)%nat
                                     then Write w (bs "," ++ [quote]) else w)
                              ++ k kv)) (quote :: bs ":")))
    with (fun w => econv (e kv)
            (Write (Write (if negb (i =? 0)%nat
                           then Write w (bs "," ++ [quote]) else w) (k kv))
                   (quote :: bs ":"))).
  destruct (negb (i =? 0)%nat); app1_solve.
Qed.

Lemma sortInstr_eq kconv econv :
  appends kconv -> appends econv ->
  forall m w,
    m <> [] ->
    sortInstr kconv econv (VMap (Some m)) w
    = (ks <- renderKeys kconv m ;;
       b <- entriesLoop (fun i kv w =>
              let w := if negb (i =? 0)%nat
                       then Write w (bs "," ++ [quote]) else w in
              let w := mkBuffer (Bytes w ++ k kv) in
              let w := Write w (quote :: bs ":") in
              econv (e kv) w) 0 (sort_Sort ks) (mkBuffer []) ;;
       Done (Write w ((bs "{" ++ [quote]) ++ Bytes b ++ bs "}"))).
Proof.
  intros Hk He m w Hne. unfold sortInstr.
  destruct m as [|en m]; [contradiction|]. cbn [List.length Nat.eqb].
  cbv zeta. rewrite (collectKeys_eq Hk).
  destruct (renderKeys kconv (en :: m)) as [ks| |]; cbn [bind]; try reflexivity.
  cbn [app].
  rewrite (app1_entriesLoop _ (sort_Sort ks) (app1_sortStep He) 0).
  match goal with |- context [entriesLoop ?f 0 _ (mkBuffer [])] =>
    destruct (entriesLoop f 0 (sort_Sort ks) (mkBuffer [])) as [b| |]
  end; cbn [bind]; try reflexivity.
  rewrite WriteByte_Write. unfold Write. cbn [Bytes].
  f_equal. f_equal.
  rewrite <- (app_assoc (Bytes w ++ _) (bs "{" ++ [quote]) (Bytes b)).
  rewrite splice_eq. norm_app. reflexivity.
Qed.

Lemma app1_pure_bind {A} (m : outcome A) (f : A -> Buffer -> outcome Buffer) :
  (forall x, app1 (f x)) -> app1 (fun w => x <- m ;; f x w).
Proof.
  intros H. destruct m as [x| |]; cbn [bind];
    [apply H|apply app1_Panic|apply app1_BadRead].
Qed.

Lemma appends_sortInstr kconv econv :
  appends kconv -> appends econv -> appends (sortInstr kconv econv).
Proof.
  intros Hk He. apply appends_app1. intros v.
  destruct v; try apply app1_BadRead.
  destruct m as [m|]; [|apply app1_Write].
  destruct m as [|en m]; [apply app1_Write|].
  eapply app1_ext.
  - intros w. symmetry. apply (sortInstr_eq Hk He). discriminate.
  - apply app1_pure_bind. intros ks. apply app1_pure_bind. intros b.
    apply app1_Write.
Qed.

Lemma renderKeys_Forall2 kconv econv entries ms :
  Forall2 (fun en m => render kconv (fst en) = Done (fst m)
                       /\ render econv (snd en) = Done (snd m)) entries ms ->
  exists ks,
    renderKeys kconv entries = Done ks
    /\ Forall2 (fun kv m => k kv = fst m
                            /\ render econv (e kv) = Done (snd m)) ks ms.
Proof.
  intros H. induction H as [|[key elem] m entries ms [Ek Ee] H [ks [E F]]].
  - exists []. split; [reflexivity|constructor].
  - exists (mkUnsafeke (fst m) elem :: ks). cbn [renderKeys].
    cbn [fst snd] in Ek, Ee. rewrite Ek, E. cbn [bind].
    split; [reflexivity|]. constructor; [|exact F]. split; [reflexivity|exact Ee].
Qed.

Lemma sort_loop_text econv :
  appends econv ->
  forall kvs ms,
    Forall2 (fun kv m => k kv = fst m
                         /\ render econv (e kv) = Done (snd m)) kvs ms ->
    forall i w,
      entriesLoop (fun i kv w =>
                     let w := if negb (i =? 0)%nat
                              then Write w (bs "," ++ [quote]) else w in
                     let w := mkBuffer (Bytes w ++ k kv) in
                     let w := Write w (quote :: bs ":") in
                     econv (e kv) w) i kvs w
      = Done (Write w (membersFrom i ms)).
Proof.
  intros He kvs ms H.
  induction H as [|kv m kvs ms [Ek Ee] H IH]; intros i w;
    cbn [entriesLoop membersFrom].
  - now rewrite Write_nil.
  - cbv zeta. rewrite (appends_Done _ _ He Ee). cbn [bind]. rewrite IH.
    rewrite Ek. f_equal.
    change (mkBuffer (Bytes ?x ++ fst m)) with (Write x (fst m)).
    destruct (negb (i =? 0)%nat); rewrite ?Write_Write;
      f_equal; norm_app; reflexivity.
Qed.

Lemma sort_Forall2 econv ks ms :
  Forall2 (fun kv m => k kv = fst m
                       /\ render econv (e kv) = Done (snd m)) ks ms ->
  Forall2 (fun kv m => k kv = fst m
                       /\ render econv (e kv) = Done (snd m))
          (sort_Sort ks) (sortByKey ms).
Proof.
  apply insertionSort_Forall2.
  intros a b a' b' [E _] [E' _]. unfold Less, keyLess. now rewrite E, E'.
Qed.

Lemma sortByKey_perm ms : Permutation (sortByKey ms) ms.
Proof. apply (insertionSort_perm (@fst bytes bytes)). Qed.

Lemma sortByKey_sorted ms : StronglySorted keyLe (sortByKey ms).
Proof. apply (insertionSort_sorted (@fst bytes bytes)). Qed.

Lemma sortInstr_text kconv econv :
  appends kconv -> appends econv ->
  forall entries ms,
    Forall2 (fun en m => render kconv (fst en) = Done (fst m)
                         /\ render econv (snd en) = Done (snd m)) entries ms ->
    forall w,
      sortInstr kconv econv (VMap (Some entries)) w
      = Done (Write w (objectText (sortByKey ms))).
Proof.
  intros Hk He entries ms H w.
  destruct entries as [|en entries].
  - inversion H. reflexivity.
  - rewrite (sortInstr_eq Hk He) by discriminate.
    edestruct renderKeys_Forall2 as [ks [E F]]; [exact H|].
    rewrite E. cbn [bind].
    rewrite (sort_loop_text He (@sort_Forall2 econv ks ms F)). cbn [bind].
    rewrite objectText_membersFrom.
    + rewrite Write_empty. reflexivity.
    + intros N. pose proof (sortByKey_perm ms) as P. rewrite N in P.
      apply Permutation_nil in P. subst ms. inversion H.
Qed.

(** The fast path for maps from strings to strings writes what the general
    instructions write with the string conversions. *)
Lemma entriesLoop_shift {A} (f g : nat -> A -> Buffer -> outcome Buffer) q :
  (forall i x w, i <> 0%nat ->
     g i x (Write w q) = (w' <- f i x w ;; Done (Write w' q))) ->
  forall l i w, i <> 0%nat ->
    entriesLoop g i l (Write w q)
    = (w' <- entriesLoop f i l w ;; Done (Write w' q)).
Proof.
  intros H l. induction l as [|x l IH]; intros i w Hi; cbn [entriesLoop bind].
  - reflexivity.
  - rewrite H by exact Hi. rewrite !bind_assoc.
    destruct (f i x w) as [w'| |]; cbn [bind]; try reflexivity.
    apply IH. discriminate.
Qed.

Lemma entriesLoop_shift0 {A} (f g : nat -> A -> Buffer -> outcome Buffer) q :
  (forall x w, g 0%nat x w = (w' <- f 0%nat x w ;; Done (Write w' q))) ->
  (forall i x w, i <> 0%nat ->
     g i x (Write w q) = (w' <- f i x w ;; Done (Write w' q))) ->
  forall x l w,
    entriesLoop g 0 (x :: l) w
    = (w' <- entriesLoop f 0 (x :: l) w ;; Done (Write w' q)).
Proof.
  intros H0 H x l w. cbn [entriesLoop]. rewrite H0, !bind_assoc.
  destruct (f 0%nat x w) as [w'| |]; cbn [bind]; try reflexivity.
  apply entriesLoop_shift; [exact H|discriminate].
Qed.

Lemma ptrStringToBuf_quoted x w (t : bytes) :
  quoted ptrStringToBuf x (Write w t)
  = (w' <- ptrStringToBuf x (Write w (t ++ [quote])) ;;
     Done (Write w' [quote])).
Proof.
  unfold quoted. rewrite WriteByte_Write, Write_Write. reflexivity.
Qed.

Lemma strStrInstr_generic v w :
  strStrInstr v w = instr ptrStringToBuf (quoted ptrStringToBuf) v w.
Proof.
  unfold strStrInstr, instr. destruct v; try reflexivity.
  destruct m as [m|]; [|reflexivity].
  destruct m as [|en m]; [reflexivity|]. cbn [List.length Nat.eqb]. cbv zeta.
  match goal with
  | |- bind (entriesLoop ?f _ _ _) _ = bind (entriesLoop ?g _ _ _) _ =>
      rewrite (@entriesLoop_shift0 _ f g [quote])
  end.
  - rewrite bind_assoc. apply bind_ext. intros w'. cbn [bind].
    now rewrite WriteByte_Write, Write_Write.
  - intros x w0. cbn [Nat.eqb negb]. rewrite bind_assoc.
    apply bind_ext. intros w1. now rewrite ptrStringToBuf_quoted.
  - intros i x w0 Hi. apply Nat.eqb_neq in Hi. rewrite Hi. cbn [negb].
    rewrite Write_Write, bind_assoc. apply bind_ext. intros w1.
    now rewrite ptrStringToBuf_quoted.
Qed.

Lemma collectStrStr_eq m : forall acc,
  collectStrStr m acc
  = (ks <- renderKeys ptrStringToBuf m ;; Done (acc ++ ks)).
Proof.
  induction m as [|[key elem] m IH]; intros acc; cbn [collectStrStr renderKeys].
  - cbn [bind]. now rewrite app_nil_r.
  - destruct key; try reflexivity. cbn [render ptrStringToBuf bind Bytes Write].
    cbn [app]. rewrite IH.
    destruct (renderKeys ptrStringToBuf m); cbn [bind]; try reflexivity.
    now rewrite <- app_assoc.
Qed.

Lemma renderKeys_length kconv m : forall ks,
  renderKeys kconv m = Done ks -> List.length ks = List.length m.
Proof.
  induction m as [|[key elem] m IH]; intros ks H; cbn [renderKeys] in H.
  - now injection H as <-.
  - destruct (render kconv key); try discriminate H. cbn [bind] in H.
    destruct (renderKeys kconv m) as [ks'| |]; try discriminate H.
    cbn [bind] in H. injection H as <-. simpl. f_equal. now apply IH.
Qed.

Lemma sort_Sort_length ks : List.length (sort_Sort ks) = List.length ks.
Proof. apply Permutation_length, (insertionSort_perm k). Qed.

Lemma sortStrStrInstr_generic v w :
  sortStrStrInstr v w = sortInstr ptrStringToBuf (quoted ptrStringToBuf) v w.
Proof.
  destruct v; try reflexivity. destruct m as [m|]; [|reflexivity].
  destruct m as [|en m]; [reflexivity|].
  rewrite (sortInstr_eq appends_ptrStringToBuf
             (appends_quoted appends_ptrStringToBuf)) by discriminate.
  unfold sortStrStrInstr. cbn [List.length Nat.eqb]. cbv zeta.
  rewrite collectStrStr_eq.
  destruct (renderKeys ptrStringToBuf (en :: m)) as [ks| |] eqn:Eks;
    cbn [bind]; try reflexivity.
  cbn [app].
  assert (Hlen : List.length (sort_Sort ks) = S (List.length m))
    by (rewrite sort_Sort_length; apply (renderKeys_length _ _ Eks)).
  destruct (sort_Sort ks) as [|kv kvs]; [discriminate Hlen|].
  match goal with
  | |- bind (entriesLoop ?f _ _ _) _
       = bind (entriesLoop ?g _ _ (mkBuffer [])) _ =>
      rewrite (@entriesLoop_shift0 _ f g [quote]);
      [ rewrite bind_assoc;
        rewrite (@app1_entriesLoop _ f (kv :: kvs)) with (i := 0%nat)
      | | ]
  end.
  - rewrite bind_assoc. apply bind_ext. intros b. cbn [bind].
    rewrite !Write_Write, Bytes_Write. do 2 f_equal; norm_app; reflexivity.
  - intros i x. destruct (negb (i =? 0)%nat); app1_solve.
  - intros x w0. cbn [Nat.eqb negb].
    change (mkBuffer (Bytes w0 ++ k x)) with (Write w0 (k x)).
    rewrite ptrStringToBuf_quoted. reflexivity.
  - intros i x w0 Hi. apply Nat.eqb_neq in Hi. rewrite Hi. cbn [negb].
    change (mkBuffer (Bytes ?y ++ k x)) with (Write y (k x)).
    rewrite ptrStringToBuf_quoted, !Write_Write. reflexivity.
Qed.

Lemma appends_sortStrStrInstr : appends sortStrStrInstr.
Proof.
  intros v w. unfold render. rewrite !sortStrStrInstr_generic.
  apply (appends_sortInstr appends_ptrStringToBuf
           (appends_quoted appends_ptrStringToBuf)).
Qed.

(* ------------------------------------------------------------------------- *)
(** * The instructions of a struct encoder append *)

Lemma appends_runInstructions l :
  Forall appends l -> appends (runInstructions l).
Proof.
  intros H. apply appends_app1. intros v.
  induction H as [|i l Hi H IH]; cbn [runInstructions].
  - apply app1_Done.
  - apply app1_bind; [now apply app1_appends|exact IH].
Qed.

Lemma instructions_chunk b e : instructions (chunk b e) = instructions e.
Proof. reflexivity. Qed.

Lemma appends_flunk e :
  Forall appends (instructions e) -> Forall appends (instructions (flunk e)).
Proof.
  intros H. destruct (flunk_cases e) as [[-> _]| ->]; cbn [instructions];
    [exact H|].
  apply Forall_app. split; [exact H|]. constructor; [|constructor].
  apply appends_app1. intros v. apply app1_Write.
Qed.

Lemma appends_addInstruction i e :
  appends i -> Forall appends (instructions e) ->
  Forall appends (instructions (addInstruction i e)).
Proof.
  intros Hi H. cbn [addInstruction instructions]. apply Forall_app.
  split; [exact H|]. constructor; [exact Hi|constructor].
Qed.

Lemma appends_atField i (conv : Instr) :
  appends conv -> appends (fun v w => x <- fieldAt i v ;; conv x w).
Proof.
  intros H. apply appends_app1. intros v. apply app1_pure_bind.
  intros x. now apply app1_appends.
Qed.

Lemma appends_atPtrField i (conv : Instr) :
  appends conv ->
  appends (fun v w =>
             x <- fieldAt i v ;;
             match x with
             | VPtr None => Done (Write w null)
             | VPtr (Some p) => conv p w
             | _ => BadRead
             end).
Proof.
  intros H. apply appends_app1. intros v. apply app1_pure_bind.
  intros x. destruct x; try apply app1_BadRead.
  destruct p; [now apply app1_appends|apply app1_Write].
Qed.

Lemma appends_val i conv e :
  appends conv -> Forall appends (instructions e) ->
  Forall appends (instructions (val i conv e)).
Proof.
  intros Hc H. apply appends_addInstruction; [|now apply appends_flunk].
  now apply appends_atField.
Qed.

Lemma appends_ptrval i conv e :
  appends conv -> Forall appends (instructions e) ->
  Forall appends (instructions (ptrval i conv e)).
Proof.
  intros Hc H. apply appends_addInstruction; [|now apply appends_flunk].
  now apply appends_atPtrField.
Qed.

Lemma appends_ptrstringval i conv e :
  appends conv -> Forall appends (instructions e) ->
  Forall appends (instructions (ptrstringval i conv e)).
Proof.
  intros Hc H. apply appends_addInstruction; [|now apply appends_flunk].
  apply (appends_atPtrField i (conv := quoted conv)). now apply appends_quoted.
Qed.

Lemma appends_arrayLoop i conv count :
  appends conv ->
  forall j e, Forall appends (instructions e) ->
    Forall appends (instructions (arrayLoop i conv j count e)).
Proof.
  intros Hc. induction count as [|count IH]; intros j e H; cbn [arrayLoop];
    [exact H|].
  apply IH. apply appends_addInstruction.
  - apply appends_app1. intros v. apply app1_pure_bind. intros x.
    destruct x; try apply app1_BadRead.
    destruct (nth_error elems j); [now apply app1_appends|apply app1_BadRead].
  - apply appends_flunk. destruct (0 <? j)%nat; exact H.
Qed.

Lemma appends_stringerConv t : appends (stringerConv t).
Proof.
  apply appends_app1. intros v. unfold stringerConv.
  destruct (reflect.lookup _ _); [apply app1_Write|apply app1_Done].
Qed.

Lemma appends_encoderConv t : appends (encoderConv t).
Proof.
  apply appends_app1. intros v. unfold encoderConv.
  destruct (reflect.lookup _ _); apply app1_Write.
Qed.

Lemma appends_rawConv : appends rawConv.
Proof.
  apply appends_app1. intros v. unfold rawConv. apply app1_pure_bind.
  intros s. destruct (List.length s =? 0)%nat; apply app1_Write.
Qed.

Section SubEncoders.

Variables (encSlice : outcome SliceEncoder)
          (encStruct : outcome StructEncoder)
          (encMap : outcome MapEncoder).

Hypothesis appends_encSlice :
  forall enc, encSlice = Done enc -> appends (SliceEncoder_Marshal enc).
Hypothesis appends_encStruct :
  forall enc, encStruct = Done enc -> appends (StructEncoder_Marshal enc).
Hypothesis appends_encMap :
  forall enc, encMap = Done enc -> appends (MapEncoder_Marshal enc).

Lemma appends_valueInst f i kd instr e e' :
  (forall conv e, appends conv -> Forall appends (instructions e) ->
                  Forall appends (instructions (instr conv e))) ->
  Forall appends (instructions e) ->
  valueInst f i kd instr encSlice encStruct encMap e = Done e' ->
  Forall appends (instructions e').
Proof.
  intros Hinstr H. unfold valueInst.
  destruct kd; try discriminate;
    try (destruct (typeconv _) eqn:E; intros Eq; injection Eq as <-;
         [apply Hinstr; [eapply appends_typeconv; eauto|exact H]|exact H]).
  - (* Array *)
    destruct (reflect.Elem (reflect.Typ f)) as [elem| |]; try discriminate.
    cbn [bind]. destruct (typeconv (reflect.KindOf elem)) eqn:E.
    + destruct (Len (reflect.Typ f)) as [n| |]; try discriminate.
      cbn [bind]. intros Eq; injection Eq as <-.
      rewrite instructions_chunk. apply appends_arrayLoop;
        [eapply appends_typeconv; eauto|exact H].
    + intros Eq; injection Eq as <-. exact H.
  - (* Map *)
    destruct encMap as [enc| |] eqn:Eenc; try discriminate. cbn [bind].
    pose proof (appends_encMap eq_refl) as Henc.
    destruct (isPtr (reflect.Typ f)); intros Eq; injection Eq as <-;
      (apply appends_addInstruction; [|now apply appends_flunk]);
      [now apply appends_atPtrField|now apply appends_atField].
  - (* Ptr *) intros Eq; injection Eq as <-. exact H.
  - (* Slice *)
    destruct encSlice as [enc| |] eqn:Eenc; try discriminate. cbn [bind].
    pose proof (appends_encSlice eq_refl) as Henc.
    intros Eq; injection Eq as <-.
    apply appends_addInstruction; [|now apply appends_flunk].
    now apply appends_atField.
  - (* String *)
    destruct (isPtr (reflect.Typ f)); intros Eq; injection Eq as <-.
    + apply appends_ptrstringval; [apply appends_ptrStringToBuf|exact H].
    + rewrite instructions_chunk. apply Hinstr;
        [apply appends_ptrStringToBuf|]. rewrite instructions_chunk. exact H.
  - (* Struct *)
    destruct encStruct as [enc| |] eqn:Eenc; try discriminate. cbn [bind].
    pose proof (appends_encStruct eq_refl) as Henc.
    destruct (isPtr (reflect.Typ f)); intros Eq; injection Eq as <-;
      (apply appends_addInstruction; [|now apply appends_flunk]);
      [now apply appends_atPtrField|now apply appends_atField].
Qed.

Lemma appends_fieldValue f i opts e e' :
  Forall appends (instructions e) ->
  fieldValue f i opts encSlice encStruct encMap e = Done e' ->
  Forall appends (instructions e').
Proof.
  intros H. unfold fieldValue.
  assert (Hby : forall conv e0,
             appends conv -> Forall appends (instructions e0) ->
             Forall appends
               (instructions ((if isPtr (reflect.Typ f)
                               then ptrval i else val i) conv e0))).
  { intros conv e0 Hc H0. destruct (isPtr (reflect.Typ f));
      [now apply appends_ptrval|now apply appends_val]. }
  destruct (Contains opts "stringer" && hasStringMethod (reflect.Typ f)).
  { intros Eq; injection Eq as <-. rewrite instructions_chunk.
    apply Hby; [apply appends_stringerConv|]. now rewrite instructions_chunk. }
  destruct (Contains opts "encoder").
  { intros Eq; injection Eq as <-. apply Hby; [apply appends_encoderConv|exact H]. }
  destruct (Contains opts "raw").
  { intros Eq; injection Eq as <-. apply Hby; [apply appends_rawConv|exact H]. }
  destruct (reflect.isTimeType (reflect.Typ f)).
  { intros Eq; injection Eq as <-.
    apply appends_val; [apply appends_ptrTimeToBuf|exact H]. }
  destruct (isPtr (reflect.Typ f)
            && reflect.isTimeType (pointee (reflect.Typ f))).
  { intros Eq; injection Eq as <-.
    apply appends_ptrval; [apply appends_ptrTimeToBuf|exact H]. }
  destruct (isPtr (reflect.Typ f)); intros Eq;
    eapply appends_valueInst; try exact Eq; try exact H;
    intros conv e0 Hc H0;
    [now apply appends_ptrval|now apply appends_val].
Qed.

Lemma appends_fieldInstr f i emit e r :
  Forall appends (instructions e) ->
  fieldInstr f i emit encSlice encStruct encMap e = Done r ->
  Forall appends (instructions (snd r)).
Proof.
  intros H. unfold fieldInstr.
  destruct (parseTag (reflect.Tag f)) as [tag opts].
  destruct (String.eqb tag EmptyString).
  - intros Eq; injection Eq as <-. exact H.
  - match goal with |- bind ?m _ = _ -> _ => destruct m as [e1| |] eqn:E1 end;
      try discriminate.
    cbn [bind]. intros Eq; injection Eq as <-. cbn [snd].
    eapply appends_fieldValue; [|exact E1]. rewrite instructions_chunk.
    destruct (1 <? S emit)%nat; [rewrite instructions_chunk|]; exact H.
Qed.

Lemma appends_elemInstr elem econv :
  elemInstr elem encSlice encStruct encMap = Done econv -> appends econv.
Proof.
  unfold elemInstr.
  destruct (reflect.lookup reflect.mMarshalText elem) as [textOf|].
  - destruct (isPtr elem); intros Eq; injection Eq as <-.
    + apply appends_ptrElemInstr, appends_quoted, appends_marshalText.
    + apply appends_quoted, appends_marshalText.
  - destruct encSlice as [es| |] eqn:Es; destruct encStruct as [et| |] eqn:Et;
      destruct encMap as [em| |] eqn:Em;
      try pose proof (appends_encSlice eq_refl) as Hs;
      try pose proof (appends_encStruct eq_refl) as Ht;
      try pose proof (appends_encMap eq_refl) as Hm;
      destruct (reflect.KindOf elem); cbn [bind isPrimitive];
      try discriminate;
      try (intros Eq; injection Eq as <-;
           first [ assumption | apply appends_typeconvOrNil
                 | apply appends_quoted, appends_ptrStringToBuf ]; fail);
      destruct (reflect.KindOf (pointee elem)); cbn [bind isPrimitive];
      try discriminate;
      intros Eq; injection Eq as <-;
      first [ apply appends_ptrStrElemInstr
            | apply appends_ptrElemInstr;
              first [assumption | apply appends_typeconvOrNil] ].
Qed.

End SubEncoders.

Lemma appends_keyInstr key kconv : keyInstr key = Done kconv -> appends kconv.
Proof.
  unfold keyInstr.
  destruct (isPrimitive (reflect.KindOf key)
            || reflect.Kind_eqb (reflect.KindOf key) reflect.String).
  - intros Eq; injection Eq as <-. apply appends_typeconvOrNil.
  - destruct (reflect.lookup reflect.mMarshalText key); try discriminate.
    destruct (isPtr key); intros Eq; injection Eq as <-.
    + apply appends_ptrKeyInstr, appends_marshalText.
    + apply appends_marshalText.
Qed.

Lemma size_pointee t : (size (pointee t) <= size t)%nat.
Proof. destruct t; simpl; lia. Qed.

Lemma size_field f fields ms :
  In f fields -> (size (reflect.Typ f) < size (reflect.StructOf fields ms))%nat.
Proof.
  intros Hin. cbn [size].
  induction fields as [|g fields IH]; [contradiction|].
  destruct g as [n tg ft]. destruct Hin as [<-|Hin]; cbn [reflect.Typ].
  - lia.
  - specialize (IH Hin). lia.
Qed.

Lemma appends_fieldsLoop cfg fields :
  (forall f, In f fields ->
     (forall enc, NewSliceEncoderWithConfig (reflect.Typ f) cfg = Done enc ->
                  appends (SliceEncoder_Marshal enc))
     /\ (forall enc,
           NewStructEncoderWithConfig (pointee (reflect.Typ f)) cfg = Done enc ->
           appends (StructEncoder_Marshal enc))
     /\ (forall enc,
           NewMapEncoderWithConfig (pointee (reflect.Typ f)) cfg = Done enc ->
           appends (MapEncoder_Marshal enc))) ->
  forall i emit e r,
    Forall appends (instructions e) ->
    fieldsLoop cfg fields i emit e = Done r ->
    Forall appends (instructions (snd r)).
Proof.
  induction fields as [|f fields IH]; intros Hsub i emit e r H Eq;
    cbn [fieldsLoop] in Eq.
  - injection Eq as <-. exact H.
  - match type of Eq with bind ?m _ = _ => destruct m as [r1| |] eqn:E1 end;
      try discriminate Eq.
    cbn [bind] in Eq.
    destruct (Hsub f (or_introl eq_refl)) as [Hs [Ht Hm]].
    eapply IH; [|  |exact Eq].
    + intros g Hg. apply Hsub. now right.
    + eapply appends_fieldInstr; [exact Hs|exact Ht|exact Hm|exact H|exact E1].
Qed.

Ltac inj_Done :=
  match goal with
  | |- Done _ = Done _ -> _ => let Eq := fresh in intros Eq; injection Eq as <-
  end.

Lemma encoders_append_size n : forall t cfg,
  (size t < n)%nat ->
  (forall enc, NewStructEncoderWithConfig t cfg = Done enc ->
               appends (StructEncoder_Marshal enc))
  /\ (forall enc, NewSliceEncoderWithConfig t cfg = Done enc ->
                  appends (SliceEncoder_Marshal enc))
  /\ (forall enc, NewMapEncoderWithConfig t cfg = Done enc ->
                  appends (MapEncoder_Marshal enc)).
Proof.
  induction n as [|n IH]; intros t cfg Hsz; [lia|].
  assert (IHstruct : forall t', (size t' < n)%nat -> forall enc,
            NewStructEncoderWithConfig t' cfg = Done enc ->
            appends (StructEncoder_Marshal enc))
    by (intros t' H'; apply (IH t' cfg H')).
  assert (IHslice : forall t', (size t' < n)%nat -> forall enc,
            NewSliceEncoderWithConfig t' cfg = Done enc ->
            appends (SliceEncoder_Marshal enc))
    by (intros t' H'; apply (IH t' cfg H')).
  assert (IHmap : forall t', (size t' < n)%nat -> forall enc,
            NewMapEncoderWithConfig t' cfg = Done enc ->
            appends (MapEncoder_Marshal enc))
    by (intros t' H'; apply (IH t' cfg H')).
  assert (Slice : forall elem, (size elem < n)%nat -> forall enc,
            (if reflect.isTimeType elem then Done timeInstr
             else
               match reflect.KindOf elem with
               | reflect.Slice =>
                   enc <- NewSliceEncoderWithConfig elem cfg ;;
                   Done (sliceInstr enc)
               | reflect.Struct =>
                   enc <- NewStructEncoderWithConfig elem cfg ;;
                   Done (structInstr enc)
               | reflect.Map =>
                   enc <- NewMapEncoderWithConfig elem cfg ;;
                   Done (mapInstr enc)
               | reflect.String => Done stringInstr
               | reflect.Ptr =>
                   match elem with
                   | reflect.PtrTo elem2 =>
                       if reflect.isTimeType elem2 then Done ptrTimeInstr
                       else
                         match reflect.KindOf elem2 with
                         | reflect.Slice =>
                             Panic "reflect: call of reflect.Value.Interface on zero Value"
                         | reflect.Struct =>
                             enc <- NewStructEncoderWithConfig elem2 cfg ;;
                             Done (ptrStrctInstr enc)
                         | reflect.Map =>
                             enc <- NewMapEncoderWithConfig elem2 cfg ;;
                             Done (ptrMapInstr enc)
                         | reflect.String => Done ptrStringInstr
                         | k => Done (ptrOtherInstr k)
                         end
                   | _ => Panic "reflect: Elem of invalid type"
                   end
               | k => Done (otherInstr k)
               end) = Done enc ->
            appends (SliceEncoder_Marshal enc)).
  { intros elem He enc.
    destruct (reflect.isTimeType elem); [inj_Done; apply appends_timeInstr|].
    destruct (reflect.KindOf elem) eqn:K;
      try (inj_Done; first [apply appends_otherInstr|apply appends_stringInstr]).
    - destruct (NewMapEncoderWithConfig elem cfg) as [enc'| |] eqn:E;
        try discriminate. cbn [bind]. inj_Done.
      apply appends_mapInstr. eapply IHmap; eauto.
    - destruct elem; try discriminate.
      destruct (reflect.isTimeType elem); [inj_Done; apply appends_ptrTimeInstr|].
      cbn [size] in He.
      destruct (reflect.KindOf elem) eqn:K2; try discriminate;
        try (inj_Done;
             first [apply appends_ptrOtherInstr|apply appends_ptrStringInstr]).
      + destruct (NewMapEncoderWithConfig elem cfg) as [enc'| |] eqn:E;
          try discriminate. cbn [bind]. inj_Done.
        apply appends_ptrMapInstr. eapply IHmap; [|eauto]. lia.
      + destruct (NewStructEncoderWithConfig elem cfg) as [enc'| |] eqn:E;
          try discriminate. cbn [bind]. inj_Done.
        apply appends_ptrStrctInstr. eapply IHstruct; [|eauto]. lia.
    - destruct (NewSliceEncoderWithConfig elem cfg) as [enc'| |] eqn:E;
        try discriminate. cbn [bind]. inj_Done.
      apply appends_sliceInstr. eapply IHslice; eauto.
    - destruct (NewStructEncoderWithConfig elem cfg) as [enc'| |] eqn:E;
        try discriminate. cbn [bind]. inj_Done.
      apply appends_structInstr. eapply IHstruct; eauto. }
  split; [|split].
  - (* struct encoder *)
    intros enc. destruct t; try discriminate.
    + rewrite NewStructEncoderWithConfig_StructOf.
      destruct (fieldsLoop cfg fields 0 0 (chunk (bs "{") emptyStructEncoder))
        as [r| |] eqn:E; try discriminate.
      cbn [bind]. inj_Done. apply appends_runInstructions, appends_flunk.
      rewrite instructions_chunk.
      eapply appends_fieldsLoop; [| |exact E]; [|constructor].
      intros f Hf. pose proof (@size_field f fields ms Hf) as Hlt.
      pose proof (size_pointee (reflect.Typ f)) as Hle.
      repeat split; intros enc' E'.
      * eapply IHslice; [|exact E']. lia.
      * eapply IHstruct; [|exact E']. lia.
      * eapply IHmap; [|exact E']. lia.
    + cbn [NewStructEncoderWithConfig]. inj_Done.
      apply appends_runInstructions, appends_flunk. constructor.
  - (* slice encoder *)
    intros enc. destruct t; try discriminate;
      cbn [NewSliceEncoderWithConfig]; apply Slice; cbn [size] in Hsz; lia.
  - (* map encoder *)
    intros enc. destruct t; try discriminate. cbn [NewMapEncoderWithConfig].
    destruct (isString t1 && isString t2).
    + destruct (SortMapKeys cfg); inj_Done;
        [apply appends_sortStrStrInstr|apply appends_strStrInstr].
    + match goal with |- bind ?m _ = _ -> _ =>
        destruct m as [econv| |] eqn:Ee end; try discriminate.
      cbn [bind]. destruct (keyInstr t1) as [kconv| |] eqn:Ek; try discriminate.
      cbn [bind]. cbn [size] in Hsz.
      pose proof (size_pointee t2) as Hle.
      assert (He : appends econv).
      { eapply appends_elemInstr; [| | |exact Ee]; intros enc' E'.
        - eapply IHslice; [|exact E']. lia.
        - eapply IHstruct; [|exact E']. lia.
        - eapply IHmap; [|exact E']. lia. }
      pose proof (appends_keyInstr _ Ek) as Hk.
      destruct (SortMapKeys cfg); inj_Done;
        [now apply appends_sortInstr|now apply appends_instr].
Qed.

Lemma appends_StructEncoder t cfg enc :
  NewStructEncoderWithConfig t cfg = Done enc ->
  appends (StructEncoder_Marshal enc).
Proof. apply (encoders_append_size (n := S (size t))). lia. Qed.

Lemma appends_SliceEncoder t cfg enc :
  NewSliceEncoderWithConfig t cfg = Done enc ->
  appends (SliceEncoder_Marshal enc).
Proof. apply (encoders_append_size (n := S (size t))). lia. Qed.

Lemma appends_MapEncoder t cfg enc :
  NewMapEncoderWithConfig t cfg = Done enc ->
  appends (MapEncoder_Marshal enc).
Proof. apply (encoders_append_size (n := S (size t))). lia. Qed.

(* ------------------------------------------------------------------------- *)
(** * Maps: the object of the rendered entries *)

Lemma converters_appends cfg key elem c :
  converters cfg key elem = Done c -> appends (fst c) /\ appends (snd c).
Proof.
  unfold converters. destruct (isString key && isString elem).
  - intros Eq; injection Eq as <-. split;
      [apply appends_ptrStringToBuf|apply appends_quoted, appends_ptrStringToBuf].
  - match goal with |- bind ?m _ = _ -> _ =>
      destruct m as [econv| |] eqn:Ee end; try discriminate.
    cbn [bind]. destruct (keyInstr key) as [kconv| |] eqn:Ek; try discriminate.
    cbn [bind]. intros Eq; injection Eq as <-. cbn [fst snd]. split.
    + eapply appends_keyInstr; eauto.
    + eapply appends_elemInstr; [| | |exact Ee]; intros enc E.
      * eapply appends_SliceEncoder; eauto.
      * eapply appends_StructEncoder; eauto.
      * eapply appends_MapEncoder; eauto.
Qed.

Lemma NewMapEncoder_converters key elem ms cfg enc :
  NewMapEncoderWithConfig (reflect.MapOf key elem ms) cfg = Done enc ->
  exists c,
    converters cfg key elem = Done c
    /\ forall v w,
         MapEncoder_Marshal enc v w
         = (if SortMapKeys cfg then sortInstr (fst c) (snd c)
            else instr (fst c) (snd c)) v w.
Proof.
  cbn [NewMapEncoderWithConfig]. unfold converters.
  destruct (isString key && isString elem).
  - intros H. exists (ptrStringToBuf, quoted ptrStringToBuf).
    split; [reflexivity|].
    intros v w. cbn [fst snd].
    destruct (SortMapKeys cfg); injection H as <-; unfold MapEncoder_Marshal;
      cbn [map_instruction];
      [apply sortStrStrInstr_generic|apply strStrInstr_generic].
  - match goal with |- bind ?m _ = _ -> _ =>
      destruct m as [econv| |] eqn:Ee end; try discriminate.
    cbn [bind]. destruct (keyInstr key) as [kconv| |] eqn:Ek; try discriminate.
    cbn [bind]. intros H. exists (kconv, econv). split; [reflexivity|].
    intros v w. cbn [fst snd].
    destruct (SortMapKeys cfg); injection H as <-; reflexivity.
Qed.

Lemma entryText_Forall2 cfg key elem c entries texts :
  converters cfg key elem = Done c ->
  mapM (entryText cfg key elem) entries = Done texts ->
  Forall2 (fun en m => render (fst c) (fst en) = Done (fst m)
                       /\ render (snd c) (snd en) = Done (snd m))
          entries texts.
Proof.
  intros Ec H. apply mapM_Forall2 in H.
  eapply Forall2_impl; [|exact H]. intros en m E. unfold entryText in E.
  rewrite Ec in E. cbn [bind] in E.
  destruct (render (fst c) (fst en)) as [kt| |]; try discriminate E.
  cbn [bind] in E.
  destruct (render (snd c) (snd en)) as [vt| |]; try discriminate E.
  cbn [bind] in E. injection E as <-. split; reflexivity.
Qed.

(** A present map is written as the object of its rendered entries: in
    iteration order, or sorted by key text when the configuration asks. *)
Lemma Marshal_map_text key elem ms cfg enc entries texts w :
  NewMapEncoderWithConfig (reflect.MapOf key elem ms) cfg = Done enc ->
  mapM (entryText cfg key elem) entries = Done texts ->
  MapEncoder_Marshal enc (VMap (Some entries)) w
  = Done (Write w (objectText (if SortMapKeys cfg then sortByKey texts
                               else texts))).
Proof.
  intros Henc Htxt.
  destruct (NewMapEncoder_converters _ _ _ _ Henc) as [c [Ec Em]].
  destruct (converters_appends _ _ _ Ec) as [Hk He].
  pose proof (entryText_Forall2 _ _ _ _ Ec Htxt) as F.
  rewrite Em. destruct (SortMapKeys cfg).
  - now apply sortInstr_text.
  - now apply instr_text.
Qed.

Lemma Marshal_map_nil key elem ms cfg enc w :
  NewMapEncoderWithConfig (reflect.MapOf key elem ms) cfg = Done enc ->
  MapEncoder_Marshal enc (VMap None) w = Done (Write w null).
Proof.
  intros Henc.
  destruct (NewMapEncoder_converters _ _ _ _ Henc) as [c [_ Em]].
  rewrite Em. destruct (SortMapKeys cfg); reflexivity.
Qed.

(** The rest of the absence rule: a map that is present and empty is
    written as [{}] in both modes, a slice without elements as [[]] by every
    slice encoder that has an instruction, and a nil pointer as [null] by
    the pointer readers of fields and elements. *)
Lemma Marshal_map_empty key elem ms cfg enc w :
  NewMapEncoderWithConfig (reflect.MapOf key elem ms) cfg = Done enc ->
  MapEncoder_Marshal enc (VMap (Some [])) w = Done (Write w emptyObj).
Proof.
  intros Henc.
  rewrite (@Marshal_map_text key elem ms cfg enc [] [] w Henc eq_refl).
  destruct (SortMapKeys cfg); reflexivity.
Qed.

Lemma overSlice_empty step w :
  overSlice step (VSlice []) w = Done (Write w (bs "[]")).
Proof.
  unfold overSlice, WriteByte, Write. cbn. now rewrite <- app_assoc.
Qed.

Lemma Marshal_slice_empty t cfg enc w :
  NewSliceEncoderWithConfig t cfg = Done enc ->
  slice_instruction enc <> None ->
  SliceEncoder_Marshal enc (VSlice []) w = Done (Write w (bs "[]")).
Proof.
  intros Henc Hsome.
  assert (L : exists step, slice_instruction enc = Some (overSlice step)).
  { assert (O : forall k e, otherInstr k = e -> slice_instruction e <> None ->
                  exists step, slice_instruction e = Some (overSlice step)).
    { intros k e <-. unfold otherInstr. destruct (typeconv k); cbn;
        [eauto|congruence]. }
    assert (P : forall k e, ptrOtherInstr k = e -> slice_instruction e <> None ->
                  exists step, slice_instruction e = Some (overSlice step)).
    { intros k e <-. unfold ptrOtherInstr. destruct (typeconv k); cbn;
        [eauto|congruence]. }
    assert (E : forall elem,
              (if reflect.isTimeType elem then Done timeInstr
               else
                 match reflect.KindOf elem with
                 | reflect.Slice =>
                     enc <- NewSliceEncoderWithConfig elem cfg ;;
                     Done (sliceInstr enc)
                 | reflect.Struct =>
                     enc <- NewStructEncoderWithConfig elem cfg ;;
                     Done (structInstr enc)
                 | reflect.Map =>
                     enc <- NewMapEncoderWithConfig elem cfg ;;
                     Done (mapInstr enc)
                 | reflect.String => Done stringInstr
                 | reflect.Ptr =>
                     match elem with
                     | reflect.PtrTo elem2 =>
                         if reflect.isTimeType elem2 then Done ptrTimeInstr
                         else
                           match reflect.KindOf elem2 with
                           | reflect.Slice =>
                               Panic "reflect: call of reflect.Value.Interface on zero Value"
                           | reflect.Struct =>
                               enc <- NewStructEncoderWithConfig elem2 cfg ;;
                               Done (ptrStrctInstr enc)
                           | reflect.Map =>
                               enc <- NewMapEncoderWithConfig elem2 cfg ;;
                               Done (ptrMapInstr enc)
                           | reflect.String => Done ptrStringInstr
                           | k => Done (ptrOtherInstr k)
                           end
                     | _ => Panic "reflect: Elem of invalid type"
                     end
                 | k => Done (otherInstr k)
                 end) = Done enc ->
              exists step, slice_instruction enc = Some (overSlice step)).
    { intros elem H.
      destruct (reflect.isTimeType elem);
        [injection H as <-; cbn; eauto|].
      destruct (reflect.KindOf elem);
        try (injection H as H; exact (O _ _ H Hsome));
        try (injection H as <-; cbn; eauto; fail);
        try (match type of H with
             | bind ?m _ = _ => destruct m; try discriminate H
             end; cbn [bind] in H; injection H as <-; cbn; eauto; fail).
      destruct elem; try discriminate H.
      destruct (reflect.isTimeType elem);
        [injection H as <-; cbn; eauto|].
      destruct (reflect.KindOf elem);
        try discriminate H;
        try (injection H as H; exact (P _ _ H Hsome));
        try (injection H as <-; cbn; eauto; fail);
        try (match type of H with
             | bind ?m _ = _ => destruct m; try discriminate H
             end; cbn [bind] in H; injection H as <-; cbn; eauto; fail). }
    destruct t; try discriminate Henc; exact (E _ Henc). }
  destruct L as [step L]. unfold SliceEncoder_Marshal. rewrite L.
  apply overSlice_empty.
Qed.

Lemma derefOrNull_nil conv w :
  derefOrNull conv (VPtr None) w = Done (Write w null).
Proof. reflexivity. Qed.

Lemma ptrval_nil i conv vs w :
  nth_error vs i = Some (VPtr None) ->
  emitted (ptrval i conv emptyStructEncoder) (VStruct vs) w
  = Done (Write w null).
Proof.
  intros H. unfold emitted, ptrval. cbn. rewrite H. cbn.
  now rewrite Write_nil.
Qed.

Lemma ptrstringval_nil i conv vs w :
  nth_error vs i = Some (VPtr None) ->
  emitted (ptrstringval i conv emptyStructEncoder) (VStruct vs) w
  = Done (Write w null).
Proof.
  intros H. unfold emitted, ptrstringval. cbn. rewrite H. cbn.
  now rewrite Write_nil.
Qed.

(** Evaluating an encoder on the empty buffer settles it on every one. *)
Lemma struct_computes t cfg enc v text :
  NewStructEncoderWithConfig t cfg = Done enc ->
  StructEncoder_Marshal enc v (mkBuffer []) = Done (mkBuffer text) ->
  forall w, StructEncoder_Marshal enc v w = Done (Write w text).
Proof.
  intros E H w. rewrite (appends_StructEncoder _ _ E v w). unfold render.
  rewrite H. reflexivity.
Qed.

Lemma map_computes t cfg enc v text :
  NewMapEncoderWithConfig t cfg = Done enc ->
  MapEncoder_Marshal enc v (mkBuffer []) = Done (mkBuffer text) ->
  forall w, MapEncoder_Marshal enc v w = Done (Write w text).
Proof.
  intros E H w. rewrite (appends_MapEncoder _ _ E v w). unfold render.
  rewrite H. reflexivity.
Qed.

Ltac struct_example :=
  match goal with
  | |- exists enc, NewStructEncoderWithConfig ?T ?cfg = Done enc /\ _ =>
      eexists; split; [reflexivity|]; intros;
      eapply (@struct_computes T cfg); [reflexivity|vm_compute; reflexivity]
  end.

Ltac map_example :=
  match goal with
  | |- exists enc, NewMapEncoderWithConfig ?T ?cfg = Done enc /\ _ =>
      eexists; split; [reflexivity|]; intros;
      eapply (@map_computes T cfg); [reflexivity|vm_compute; reflexivity]
  end.

(* ------------------------------------------------------------------------- *)
(** * The claims *)

(** C6 (the code departs from the claim).  [ptrBoolToBuf] writes [false]
    for a false value, but for a true value it writes [true] and then, the
    [if] having no [return], [false] as well: the bytes [truefalse]. *)
Theorem ptrBoolToBuf_true_writes_truefalse :
  forall w,
    ptrBoolToBuf (VBool true) w = Done (Write w (bs "truefalse"))
    /\ ptrBoolToBuf (VBool false) w = Done (Write w (bs "false")).
Proof.
  intros w. split; [|reflexivity].
  unfold ptrBoolToBuf. now rewrite Write_Write.
Qed.

(** C5 (the code departs from the claim).  For a slice whose elements are
    of a kind outside the conversion table, here [[]complex128], the
    constructor returns an encoder without panicking, yet leaves its
    instruction nil: every [Marshal] of that encoder panics at run time. *)
Theorem NewSliceEncoder_complex128_Marshal_panics :
  forall cfg,
    exists enc,
      NewSliceEncoderWithConfig
        (reflect.SliceOf tComplex128 reflect.noMethods) cfg = Done enc
      /\ forall v w, SliceEncoder_Marshal enc v w = Panic nilDeref.
Proof.
  intros cfg. eexists. split; [reflexivity|]. intros v w. reflexivity.
Qed.

(** C2 (the code departs from the claim).  A nil pointer field with the
    [stringer] option, of a type that has a [String] method, is written as
    [null] between the two static quotes, the JSON string of the four
    letters rather than the literal; [ptrstringval] shows the quotes
    written at run time that this path lacks. *)
Theorem stringer_nil_pointer_written_in_quotes :
  forall stringOf cfg,
    exists enc,
      NewStructEncoderWithConfig
        (reflect.StructOf
           [reflect.mkStructField "D" "d,stringer"
              (reflect.PtrTo (Duration stringOf))]
           reflect.noMethods) cfg = Done enc
      /\ forall w,
           StructEncoder_Marshal enc (VStruct [VPtr None]) w
           = Done (Write w (bs "{" ++ quote :: bs "d" ++ quote :: bs ":"
                            ++ quote :: bs "null" ++ quote :: bs "}")).
Proof.
  intros stringOf cfg. struct_example.
Qed.

Lemma fieldsLoop_app cfg pre : forall rest i emit e,
  fieldsLoop cfg (pre ++ rest) i emit e
  = (r <- fieldsLoop cfg pre i emit e ;;
     fieldsLoop cfg rest (i + List.length pre) (fst r) (snd r)).
Proof.
  induction pre as [|f pre IH]; intros rest i emit e.
  - cbn [app fieldsLoop bind List.length fst snd]. now rewrite Nat.add_0_r.
  - cbn [app fieldsLoop List.length]. rewrite bind_assoc. apply bind_ext.
    intros r. rewrite IH. now rewrite Nat.add_succ_r.
Qed.

Lemma pointee_not_ptr t : isPtr t = false -> pointee t = t.
Proof. destruct t; try reflexivity. discriminate. Qed.

Lemma valueInst_unsupported f i kd instr encSlice encStruct encMap e :
  unsupportedKind kd = true ->
  valueInst f i kd instr encSlice encStruct encMap e
  = Panic (unsupportedMessage f).
Proof. destruct kd; try discriminate; reflexivity. Qed.

Lemma fieldInstr_unsupported f i emit encSlice encStruct encMap e :
  resolvesUnsupported f = true ->
  fieldInstr f i emit encSlice encStruct encMap e
  = Panic (unsupportedMessage f).
Proof.
  unfold resolvesUnsupported, included, keyName, takesStringer, takesEncoder,
    takesRaw, isTimeField, fieldInstr, fieldValue.
  destruct (parseTag (reflect.Tag f)) as [tag opts]. cbn [fst snd].
  intros H. repeat (apply andb_prop in H; destruct H as [H ?]).
  repeat match goal with
         | H : negb _ = true |- _ => apply negb_true_iff in H
         end.
  rewrite H.
  match goal with H : (Contains opts "stringer" && _) = false |- _ => rewrite H end.
  match goal with H : Contains opts "encoder" = false |- _ => rewrite H end.
  match goal with H : Contains opts "raw" = false |- _ => rewrite H end.
  match goal with H : (_ || _) = false |- _ =>
    apply orb_false_iff in H; destruct H as [Ht Hpt]; rewrite Ht, Hpt end.
  destruct (isPtr (reflect.Typ f)) eqn:Ep.
  - rewrite valueInst_unsupported by assumption. reflexivity.
  - rewrite <- (pointee_not_ptr _ Ep) at 1.
    rewrite valueInst_unsupported by assumption. reflexivity.
Qed.

Lemma NewStructEncoder_Done_loop fields ms cfg enc :
  NewStructEncoderWithConfig (reflect.StructOf fields ms) cfg = Done enc ->
  exists r, fieldsLoop cfg fields 0 0 (chunk (bs "{") emptyStructEncoder)
            = Done r.
Proof.
  rewrite NewStructEncoderWithConfig_StructOf.
  destruct (fieldsLoop cfg fields 0 0 (chunk (bs "{") emptyStructEncoder));
    try discriminate. eauto.
Qed.



Lemma indexed_app {A} (l1 l2 : list A) : forall i,
  indexed i (l1 ++ l2) = indexed i l1 ++ indexed (i + List.length l1) l2.
Proof.
  induction l1 as [|x l1 IH]; intros i; cbn [app indexed List.length].
  - now rewrite Nat.add_0_r.
  - rewrite IH, Nat.add_succ_r. reflexivity.
Qed.

Lemma membersAt_app i pre f post :
  membersAt i (pre ++ f :: post)
  = membersAt i pre
    ++ (if included f then [((i + List.length pre)%nat, f)] else [])
    ++ membersAt (S (i + List.length pre)) post.
Proof.
  unfold membersAt. rewrite indexed_app, filter_app. cbn [indexed filter snd].
  destruct (included f); reflexivity.
Qed.

Lemma writeMembers_app cfg l1 l2 : forall first v w,
  writeMembers cfg (l1 ++ l2) first v w
  = (w1 <- writeMembers cfg l1 first v w ;;
     writeMembers cfg l2 (first && noMembers l1) v w1).
Proof.
  induction l1 as [|[i f] l1 IH]; intros first v w;
    cbn [app writeMembers noMembers bind].
  - now rewrite andb_true_r.
  - rewrite bind_assoc. apply bind_ext. intros w1. rewrite IH.
    cbn [andb]. rewrite andb_false_r. reflexivity.
Qed.

Lemma members_fields i fields :
  map snd (membersAt i fields) = filter included fields.
Proof.
  unfold membersAt. revert i.
  induction fields as [|f fields IH]; intros i; cbn [indexed filter snd map];
    [reflexivity|].
  destruct (included f); cbn [map snd]; now rewrite IH.
Qed.

Lemma members_positions fields : forall i j f,
  In (j, f) (membersAt i fields) ->
  (i <= j)%nat /\ nth_error fields (j - i) = Some f.
Proof.
  unfold membersAt.
  induction fields as [|g fields IH]; intros i j f Hin;
    cbn [indexed filter snd] in Hin; [contradiction|].
  assert (Tail : In (j, f) (filter (fun m => included (snd m))
                              (indexed (S i) fields)) ->
                 (i <= j)%nat /\ nth_error (g :: fields) (j - i) = Some f).
  { intros H. destruct (IH _ _ _ H) as [Hle Hn]. split; [lia|].
    replace (j - i)%nat with (S (j - S i)) by lia. exact Hn. }
  destruct (included g); [|now apply Tail].
  destruct Hin as [Eq|Hin]; [|now apply Tail].
  injection Eq as <- <-. split; [lia|]. now rewrite Nat.sub_diag.
Qed.

Lemma appends_emitted e :
  Forall appends (instructions e) -> appends (emitted e).
Proof.
  intros H. apply appends_app1. intros v. unfold emitted.
  apply app1_bind; [|apply app1_Write].
  apply (proj1 (appends_app1 _) (appends_runInstructions H)).
Qed.

Lemma appends_writeValue cfg f i : appends (writeValue cfg f i).
Proof.
  apply appends_app1. intros v. unfold writeValue.
  match goal with |- app1 (fun w => bind ?m _) => destruct m as [e| |] eqn:E end;
    cbn [bind]; [|apply app1_Panic|apply app1_BadRead].
  apply (proj1 (appends_app1 _)). apply appends_emitted.
  eapply appends_fieldValue; [| | | |exact E].
  - intros enc. apply appends_SliceEncoder.
  - intros enc. apply appends_StructEncoder.
  - intros enc. apply appends_MapEncoder.
  - constructor.
Qed.

Lemma membersText_joinComma texts :
  membersText true texts = joinComma (map memberText texts).
Proof.
  assert (G : forall l, membersText false l
                        = List.concat (map (fun m => bs "," ++ memberText m) l)).
  { induction l as [|m l IH]; cbn [membersText map List.concat];
      [reflexivity|]. rewrite IH. norm_app. reflexivity. }
  assert (J : forall x l, joinComma (x :: l)
                          = x ++ List.concat (map (fun m => bs "," ++ m) l)).
  { intros x l. revert x. induction l as [|y l IH]; intros x.
    - simpl. now rewrite app_nil_r.
    - change (joinComma (x :: y :: l)) with (x ++ bs "," ++ joinComma (y :: l)).
      rewrite IH. simpl. rewrite <- ?app_assoc. reflexivity. }
  destruct texts as [|m texts]; [reflexivity|].
  cbn [membersText map]. rewrite J, G, map_map. reflexivity.
Qed.

Lemma writeMembers_text cfg v ms : forall texts first w,
  mapM (memberTextOf cfg v) ms = Done texts ->
  writeMembers cfg ms first v w = Done (Write w (membersText first texts)).
Proof.
  induction ms as [|[i f] ms IH]; intros texts first w H; cbn [mapM] in H.
  - injection H as <-. cbn [writeMembers membersText]. now rewrite Write_nil.
  - unfold memberTextOf at 1 in H. cbn [fst snd] in H.
    destruct (render (writeValue cfg f i) v) as [t| |] eqn:Et;
      try discriminate H. cbn [bind] in H.
    destruct (mapM (memberTextOf cfg v) ms) as [rest| |] eqn:Er;
      try discriminate H. cbn [bind] in H. injection H as <-.
    cbn [writeMembers membersText].
    rewrite (appends_Done _ _ (appends_writeValue cfg f i) Et). cbn [bind].
    rewrite (IH rest false _ eq_refl), !Write_Write. do 2 f_equal.
    unfold memberKey, memberText. cbn [fst snd]. norm_app. reflexivity.
Qed.

Lemma Marshal_objectText fields ms cfg enc v texts w :
  NewStructEncoderWithConfig (reflect.StructOf fields ms) cfg = Done enc ->
  memberTexts cfg fields v = Done texts ->
  StructEncoder_Marshal enc v w = Done (Write w (objectText texts)).
Proof.
  intros H Ht. rewrite (Marshal_writeObject _ _ _ H). unfold writeObject.
  rewrite (writeMembers_text _ _ _ _ _ Ht). cbn [bind].
  rewrite !Write_Write, membersText_joinComma. reflexivity.
Qed.



Lemma Marshal_around_field cfg pre f post ms enc :
  NewStructEncoderWithConfig (reflect.StructOf (pre ++ f :: post) ms) cfg
  = Done enc ->
  forall v w,
    StructEncoder_Marshal enc v w
    = (w1 <- writeMembers cfg (membersAt 0 pre) true v (Write w (bs "{")) ;;
       w2 <- writeMembers cfg
               (if included f then [(List.length pre, f)] else [])
               (noMembers (membersAt 0 pre)) v w1 ;;
       w3 <- writeMembers cfg (membersAt (S (List.length pre)) post)
               (noMembers (membersAt 0 pre) && negb (included f)) v w2 ;;
       Done (Write w3 (bs "}"))).
Proof.
  intros H v w. rewrite (Marshal_writeObject _ _ _ H). unfold writeObject, members.
  rewrite membersAt_app, !writeMembers_app, !bind_assoc. cbn [Nat.add andb].
  apply bind_ext. intros w1. rewrite writeMembers_app, bind_assoc.
  apply bind_ext. intros w2.
  destruct (included f); cbn [noMembers negb];
    now rewrite ?andb_false_r, ?andb_true_r.
Qed.

Lemma writeValue_raw cfg f i vs x content w :
  rawField f = true ->
  nth_error vs i = Some x ->
  fieldContent (reflect.Typ f) x = Done content ->
  writeValue cfg f i (VStruct vs) w = Done (Write w (verbatim content)).
Proof.
  unfold rawField, takesStringer, takesEncoder, takesRaw, writeValue, fieldValue.
  intros H Hx Hc. repeat (apply andb_prop in H; destruct H as [H ?]).
  repeat match goal with
         | H : negb _ = true |- _ => apply negb_true_iff in H
         end.
  match goal with H : (Contains _ "stringer" && _) = false |- _ => rewrite H end.
  match goal with H : Contains _ "encoder" = false |- _ => rewrite H end.
  match goal with H : Contains _ "raw" = true |- _ => rewrite H end.
  cbn [bind]. unfold fieldContent in Hc.
  destruct (isPtr (reflect.Typ f)); unfold ptrval, val;
    rewrite emitted_add_flunk, emitted_empty; cbn [bind fieldAt];
    rewrite Hx; cbn [bind].
  - destruct x; try discriminate Hc. destruct p as [y|].
    + unfold rawConv. rewrite Hc. cbn [bind]. unfold verbatim.
      destruct (List.length content =? 0)%nat; reflexivity.
    + injection Hc as <-. reflexivity.
  - unfold rawConv. rewrite Hc. cbn [bind]. unfold verbatim.
    destruct (List.length content =? 0)%nat; reflexivity.
Qed.



(** C10.  A field whose key name is [-] is a member like any other, written
    under the key [-]; a field whose tag yields no key name is the only
    kind of field that contributes nothing, the output being that of the
    fields before and after it. *)
Theorem dash_key_is_emitted :
  forall cfg pre f post ms enc,
    NewStructEncoderWithConfig (reflect.StructOf (pre ++ f :: post) ms) cfg
    = Done enc ->
    (keyName f = "-"%string ->
     forall v w,
       StructEncoder_Marshal enc v w
       = (w1 <- writeMembers cfg (membersAt 0 pre) true v (Write w (bs "{")) ;;
          w2 <- writeValue cfg f (List.length pre) v
                  (Write w1 ((if noMembers (membersAt 0 pre) then []
                              else bs ",")
                             ++ quote :: bs "-" ++ quote :: bs ":")) ;;
          w3 <- writeMembers cfg (membersAt (S (List.length pre)) post) false
                  v w2 ;;
          Done (Write w3 (bs "}"))))
    /\ (keyName f = EmptyString ->
        forall v w,
          StructEncoder_Marshal enc v w
          = (w1 <- writeMembers cfg (membersAt 0 pre) true v
                     (Write w (bs "{")) ;;
             w3 <- writeMembers cfg (membersAt (S (List.length pre)) post)
                     (noMembers (membersAt 0 pre)) v w1 ;;
             Done (Write w3 (bs "}"))))
    /\ (included f = false <-> keyName f = EmptyString).
Proof.
  intros cfg pre f post ms enc H. split; [|split].
  - intros Hk v w. rewrite (@Marshal_around_field cfg pre f post ms enc H).
    unfold included. rewrite Hk. cbn [String.eqb Ascii.eqb Bool.eqb negb].
    apply bind_ext. intros w1. cbn [writeMembers]. rewrite bind_assoc.
    unfold memberKey. rewrite Hk. rewrite andb_false_r. reflexivity.
  - intros Hk v w. rewrite (@Marshal_around_field cfg pre f post ms enc H).
    unfold included. rewrite Hk. cbn [String.eqb negb].
    apply bind_ext. intros w1. cbn [writeMembers bind]. now rewrite andb_true_r.
  - unfold included. rewrite negb_false_iff. apply String.eqb_eq.
Qed.

Lemma dash_key_is_emitted_witness :
  exists enc,
    NewStructEncoderWithConfig
      (reflect.StructOf
         ([reflect.mkStructField "A" "a" tInt]
          ++ reflect.mkStructField "B" "-" tInt
          :: [reflect.mkStructField "C" ",raw" tString])
         reflect.noMethods) DefaultConfig = Done enc
    /\ StructEncoder_Marshal enc (VStruct [VInt 1; VInt 2; VString (bs "x")])
         (mkBuffer [])
       = Done (mkBuffer (bs "{" ++ quote :: bs "a" ++ quote :: bs ":1,"
                         ++ quote :: bs "-" ++ quote :: bs ":2}")).
Proof.
  eexists. split; [reflexivity|].
  rewrite (proj1 (@dash_key_is_emitted DefaultConfig
                    [reflect.mkStructField "A" "a" tInt]
                    (reflect.mkStructField "B" "-" tInt)
                    [reflect.mkStructField "C" ",raw" tString]
                    reflect.noMethods _ eq_refl) eq_refl).
  reflexivity.
Defined.

Lemma mapM_Permutation {A B} (f : A -> outcome B) l1 l2 :
  Permutation l1 l2 ->
  forall r1, mapM f l1 = Done r1 ->
  exists r2, mapM f l2 = Done r2 /\ Permutation r1 r2.
Proof.
  intros P. induction P as [|x l1 l2 P IH|x y l|l1 l2 l3 P1 IH1 P2 IH2];
    intros r1 H.
  - exists r1. split; [exact H|reflexivity].
  - cbn [mapM] in *. destruct (f x) as [b| |]; try discriminate H.
    cbn [bind] in *. destruct (mapM f l1) as [r| |]; try discriminate H.
    cbn [bind] in H. injection H as <-.
    destruct (IH r eq_refl) as [r2 [E2 P2]]. rewrite E2. cbn [bind].
    exists (b :: r2). split; [reflexivity|now constructor].
  - cbn [mapM] in *. destruct (f y) as [b| |]; try discriminate H.
    cbn [bind] in *. destruct (f x) as [a| |]; try discriminate H.
    cbn [bind] in *. destruct (mapM f l) as [r| |]; try discriminate H.
    cbn [bind] in *. injection H as <-.
    exists (a :: b :: r). split; [reflexivity|apply perm_swap].
  - destruct (IH1 r1 H) as [r2 [E2 Q2]].
    destruct (IH2 r2 E2) as [r3 [E3 Q3]].
    exists r3. split; [exact E3|]. now transitivity r2.
Qed.

Lemma sortByKey_permutation_invariant texts1 texts2 :
  Permutation texts1 texts2 -> NoDup (map fst texts1) ->
  sortByKey texts1 = sortByKey texts2.
Proof. apply (insertionSort_permutation_invariant (@fst bytes bytes)). Qed.

(** In sorted mode the encoder gives one output for all the orders in which
    the iterator may visit entries whose key texts are distinct. *)
Lemma sorted_Marshal_permutation key elem ms cfg enc entries1 entries2 texts w :
  SortMapKeys cfg = true ->
  NewMapEncoderWithConfig (reflect.MapOf key elem ms) cfg = Done enc ->
  Permutation entries1 entries2 ->
  mapM (entryText cfg key elem) entries1 = Done texts ->
  NoDup (map fst texts) ->
  MapEncoder_Marshal enc (VMap (Some entries2)) w
  = Done (Write w (objectText (sortByKey texts))).
Proof.
  intros Hs Henc P H1 N.
  destruct (@mapM_Permutation _ _ _ _ _ P _ H1) as [texts2 [H2 P2]].
  rewrite (Marshal_map_text _ _ _ _ _ w Henc H2), Hs.
  now rewrite (sortByKey_permutation_invariant P2 N).
Qed.



(** C4, as amended.  With sorting on, every order in which the iterator may
    visit the entries of a map gives the same output, provided the entries
    render and their key texts are pairwise distinct.  With sorting off,
    the output is the object whose members are the rendered entries, each
    once, in the order of the iteration. *)
Theorem map_output_by_ordering_mode :
  forall key elem ms cfg enc,
    NewMapEncoderWithConfig (reflect.MapOf key elem ms) cfg = Done enc ->
    (SortMapKeys cfg = true ->
     forall entries1 entries2 texts w,
       Permutation entries1 entries2 ->
       mapM (entryText cfg key elem) entries1 = Done texts ->
       NoDup (map fst texts) ->
       MapEncoder_Marshal enc (VMap (Some entries1)) w
       = Done (Write w (objectText (sortByKey texts)))
       /\ MapEncoder_Marshal enc (VMap (Some entries2)) w
          = Done (Write w (objectText (sortByKey texts))))
    /\ (SortMapKeys cfg = false ->
        forall entries texts w,
          mapM (entryText cfg key elem) entries = Done texts ->
          MapEncoder_Marshal enc (VMap (Some entries)) w
          = Done (Write w (objectText texts))).
Proof.
  intros key elem ms cfg enc Henc. split.
  - intros Hs entries1 entries2 texts w P H1 N. split.
    + eapply sorted_Marshal_permutation; eauto.
    + eapply sorted_Marshal_permutation; eauto.
  - intros Hs entries texts w H.
    rewrite (Marshal_map_text _ _ _ _ _ w Henc H), Hs. reflexivity.
Qed.

Lemma map_output_by_ordering_mode_witness :
  exists enc,
    NewMapEncoderWithConfig
      (reflect.MapOf tString tString reflect.noMethods) DefaultConfig
    = Done enc
    /\ SortMapKeys DefaultConfig = false
    /\ MapEncoder_Marshal enc (VMap (Some bbccaa)) (mkBuffer [])
       = Done (mkBuffer
                 (bs "{"
                  ++ quote :: bs "bb" ++ quote :: bs ":"
                  ++ quote :: bs "678" ++ quote :: bs ","
                  ++ quote :: bs "cc" ++ quote :: bs ":"
                  ++ quote :: bs "345" ++ quote :: bs ","
                  ++ quote :: bs "aa" ++ quote :: bs ":"
                  ++ quote :: bs "123" ++ quote :: bs "}")).
Proof.
  eexists. split; [reflexivity|]. split; [reflexivity|].
  rewrite (proj2 (@map_output_by_ordering_mode tString tString
                    reflect.noMethods DefaultConfig _ eq_refl)
             eq_refl bbccaa _ (mkBuffer []) eq_refl).
  reflexivity.
Defined.

(** C4 as stated fails twice.  Two keys of type [label] that differ only
    in [id] render alike, and in sorted mode the two orders of iteration
    give two outputs.  And with sorting off, the map from text to text
    with the one key made of a double quote is written with that quote
    unescaped, which is not valid JSON. *)
Lemma map_output_claim_counterexample :
  (exists enc,
     NewMapEncoderWithConfig
       (reflect.MapOf label tString reflect.noMethods) sortedConfig = Done enc
     /\ Permutation [(labelA1, VString (bs "x")); (labelA2, VString (bs "y"))]
                    [(labelA2, VString (bs "y")); (labelA1, VString (bs "x"))]
     /\ labelA1 <> labelA2
     /\ MapEncoder_Marshal enc
          (VMap (Some [(labelA1, VString (bs "x")); (labelA2, VString (bs "y"))]))
          (mkBuffer [])
        <> MapEncoder_Marshal enc
             (VMap (Some [(labelA2, VString (bs "y")); (labelA1, VString (bs "x"))]))
             (mkBuffer []))
  /\ (exists enc out,
        NewMapEncoderWithConfig
          (reflect.MapOf tString tString reflect.noMethods) DefaultConfig
        = Done enc
        /\ MapEncoder_Marshal enc
             (VMap (Some [(VString [quote], VString (bs "v"))])) (mkBuffer [])
           = Done out
        /\ validJSON (Bytes out) = false).
Proof.
  split.
  - eexists. split; [reflexivity|]. split; [apply perm_swap|].
    split; [discriminate|]. vm_compute. discriminate.
  - eexists. eexists. split; [reflexivity|]. split; [reflexivity|].
    vm_compute. reflexivity.
Qed.

Lemma appends_Done_prefix (i : Instr) v w out :
  appends i -> i v w = Done out ->
  exists text,
    Bytes out = Bytes w ++ text /\ i v (mkBuffer []) = Done (mkBuffer text).
Proof.
  intros H Hd. rewrite (H v w) in Hd. unfold render in Hd.
  destruct (i v (mkBuffer [])) as [b| |]; try discriminate Hd.
  cbn [bind] in Hd. injection Hd as <-. exists (Bytes b).
  split; [reflexivity|]. now destruct b.
Qed.

(** C9.  Whatever a [Marshal] call of one of the three encoders returns
    with, the buffer holds what it held before followed by the text the
    call writes on an empty buffer; in sorted mode the old contents are
    followed at once by the opening brace of the object, the key texts of
    the first pass having been spliced out. *)
Theorem Marshal_only_appends :
  (forall t cfg enc v w out,
     NewStructEncoderWithConfig t cfg = Done enc ->
     StructEncoder_Marshal enc v w = Done out ->
     exists text,
       Bytes out = Bytes w ++ text
       /\ StructEncoder_Marshal enc v (mkBuffer []) = Done (mkBuffer text))
  /\ (forall t cfg enc v w out,
        NewSliceEncoderWithConfig t cfg = Done enc ->
        SliceEncoder_Marshal enc v w = Done out ->
        exists text,
          Bytes out = Bytes w ++ text
          /\ SliceEncoder_Marshal enc v (mkBuffer []) = Done (mkBuffer text))
  /\ (forall t cfg enc v w out,
        NewMapEncoderWithConfig t cfg = Done enc ->
        MapEncoder_Marshal enc v w = Done out ->
        exists text,
          Bytes out = Bytes w ++ text
          /\ MapEncoder_Marshal enc v (mkBuffer []) = Done (mkBuffer text))
  /\ (forall key elem ms cfg enc entries w out,
        SortMapKeys cfg = true ->
        NewMapEncoderWithConfig (reflect.MapOf key elem ms) cfg = Done enc ->
        entries <> [] ->
        MapEncoder_Marshal enc (VMap (Some entries)) w = Done out ->
        exists body, Bytes out = Bytes w ++ bs "{" ++ body ++ bs "}").
Proof.
  split; [|split; [|split]].
  - intros t cfg enc v w out E H.
    exact (appends_Done_prefix _ _ (appends_StructEncoder _ _ E) H).
  - intros t cfg enc v w out E H.
    exact (appends_Done_prefix _ _ (appends_SliceEncoder _ _ E) H).
  - intros t cfg enc v w out E H.
    exact (appends_Done_prefix _ _ (appends_MapEncoder _ _ E) H).
  - intros key elem ms cfg enc entries w out Hs E Hne H.
    destruct (NewMapEncoder_converters _ _ _ _ E) as [c [Ec Em]].
    destruct (converters_appends _ _ _ Ec) as [Hk He].
    rewrite Em, Hs, (sortInstr_eq Hk He) in H by exact Hne.
    destruct (renderKeys (fst c) entries) as [ks| |]; try discriminate H.
    cbn [bind] in H.
    match type of H with bind ?m _ = _ => destruct m as [b| |] end;
      try discriminate H.
    cbn [bind] in H. injection H as <-.
    exists (quote :: Bytes b). rewrite Bytes_Write. norm_app. reflexivity.
Qed.

Lemma Marshal_only_appends_witness :
  exists enc,
    SortMapKeys sortedConfig = true
    /\ NewMapEncoderWithConfig
         (reflect.MapOf tInt tString reflect.noMethods) sortedConfig = Done enc
    /\ MapEncoder_Marshal enc
         (VMap (Some [(VInt 2, VString (bs "b")); (VInt 1, VString (bs "a"))]))
         (mkBuffer (bs "kept"))
       = Done (mkBuffer (bs "kept{" ++ quote :: bs "1" ++ quote :: bs ":"
                         ++ quote :: bs "a" ++ quote :: bs ","
                         ++ quote :: bs "2" ++ quote :: bs ":"
                         ++ quote :: bs "b" ++ quote :: bs "}"))
    /\ exists body,
         bs "kept{" ++ quote :: bs "1" ++ quote :: bs ":"
         ++ quote :: bs "a" ++ quote :: bs ","
         ++ quote :: bs "2" ++ quote :: bs ":"
         ++ quote :: bs "b" ++ quote :: bs "}"
         = bs "kept" ++ bs "{" ++ body ++ bs "}".
Proof.
  eexists. split; [reflexivity|]. split; [reflexivity|].
  split; [reflexivity|].
  exact (proj2 (proj2 (proj2 Marshal_only_appends))
           tInt tString reflect.noMethods sortedConfig _
           [(VInt 2, VString (bs "b")); (VInt 1, VString (bs "a"))]
           (mkBuffer (bs "kept")) _ eq_refl eq_refl
           ltac:(discriminate) eq_refl).
Defined.


(* ------------------------------------------------------------------------- *)
(** * The configuration *)

Lemma testbit_254 i :
  Z.testbit 254 i = ((0 <? i) && (i <? 8))%Z.
Proof.
  destruct (Z.ltb_spec 0 i) as [Hp|Hn]; cbn [andb].
  - destruct (Z.ltb_spec i 8) as [Hs|Hl].
    + assert (E : (i = 1 \/ i = 2 \/ i = 3 \/ i = 4 \/ i = 5 \/ i = 6
                   \/ i = 7)%Z) by lia.
      destruct E as [->|[->|[->|[->|[->|[->| ->]]]]]]; reflexivity.
    + apply Z.bits_above_log2; [lia|].
      apply Z.log2_lt_pow2; [lia|].
      apply Z.lt_le_trans with (2 ^ 8)%Z; [reflexivity|].
      apply Z.pow_le_mono_r; lia.
  - destruct (Z.eq_dec i 0) as [->|Hne]; [reflexivity|].
    apply Z.testbit_neg_r. lia.
Qed.

Lemma testbit_uint8_high m i :
  (0 <= m < 256)%Z -> (8 <= i)%Z -> Z.testbit m i = false.
Proof.
  intros Hm Hi. destruct (Z.eq_dec m 0) as [->|Hne]; [apply Z.testbit_0_l|].
  apply Z.bits_above_log2; [lia|].
  apply Z.log2_lt_pow2; [lia|].
  apply Z.lt_le_trans with (2 ^ 8)%Z; [change (2 ^ 8)%Z with 256%Z; lia|].
  apply Z.pow_le_mono_r; lia.
Qed.

(** X1.  Reading the sort option after setting it gives what was set,
    whatever the configuration held; on a configuration of eight bits
    setting it leaves every other bit as it was and the result within
    eight bits. *)
Theorem SortMapKeys_after_SetSortMapKeys :
  forall c on,
    SortMapKeys (SetSortMapKeys c on) = on
    /\ ((0 <= mapEncoder c < 256)%Z ->
        (0 <= mapEncoder (SetSortMapKeys c on) < 256)%Z
        /\ forall i, i <> 0%Z ->
             Z.testbit (mapEncoder (SetSortMapKeys c on)) i
             = Z.testbit (mapEncoder c) i).
Proof.
  intros [m] on. unfold SortMapKeys, SetSortMapKeys, sortMapKeys.
  change (Z.shiftl 1 0) with 1%Z. change (Z.lxor 255 1) with 254%Z.
  assert (B : forall x, Z.land x 1 = (if Z.testbit x 0 then 1 else 0)%Z).
  { intros x. apply Z.bits_inj'. intros i Hi. rewrite Z.land_spec.
    destruct (Z.eq_dec i 0) as [->|Hne].
    - destruct (Z.testbit x 0); reflexivity.
    - replace (Z.testbit 1 i) with false.
      + rewrite andb_false_r. destruct (Z.testbit x 0);
          [|now rewrite Z.testbit_0_l].
        symmetry. apply (Z.bits_above_log2 1 i); [lia|].
        change (Z.log2 1) with 0%Z. lia.
      + symmetry. apply (Z.bits_above_log2 1 i); [lia|].
        change (Z.log2 1) with 0%Z. lia. }
  split.
  - destruct on; cbn [mapEncoder]; rewrite B.
    + rewrite Z.lor_spec. change (Z.testbit 1 0) with true.
      now rewrite orb_true_r.
    + rewrite Z.land_spec. change (Z.testbit 254 0) with false.
      now rewrite andb_false_r.
  - cbn [mapEncoder]. intros Hm. split.
    + assert (L : forall x, (0 <= x)%Z -> (Z.log2 x < 8)%Z -> (x < 256)%Z).
      { intros x Hx Hl. destruct (Z.eq_dec x 0) as [->|Hne]; [lia|].
        change 256%Z with (2 ^ 8)%Z. apply Z.log2_lt_pow2; lia. }
      assert (Lm : (Z.log2 m < 8)%Z).
      { destruct (Z.eq_dec m 0) as [->|Hne]; [cbn; lia|].
        apply Z.log2_lt_pow2; [lia|]. change (2 ^ 8)%Z with 256%Z. lia. }
      destruct on; cbn [mapEncoder].
      * assert (H0 : (0 <= Z.lor m 1)%Z) by (apply Z.lor_nonneg; lia).
        split; [exact H0|]. apply L; [exact H0|].
        rewrite Z.log2_lor by lia. change (Z.log2 1) with 0%Z. lia.
      * assert (H0 : (0 <= Z.land m 254)%Z) by (apply Z.land_nonneg; lia).
        split; [exact H0|]. apply L; [exact H0|].
        pose proof (Z.log2_land m 254) as Hl. lia.
    + intros i Hi. destruct on; cbn [mapEncoder].
      * rewrite Z.lor_spec. replace (Z.testbit 1 i) with false;
          [now rewrite orb_false_r|].
        destruct (Z.ltb_spec i 0) as [Hneg|Hpos].
        -- now rewrite Z.testbit_neg_r.
        -- symmetry. apply (Z.bits_above_log2 1 i); [lia|].
           change (Z.log2 1) with 0%Z. lia.
      * rewrite Z.land_spec, testbit_254.
        destruct (Z.ltb_spec 0 i) as [Hp|Hn]; cbn [andb].
        -- destruct (Z.ltb_spec i 8) as [Hs|Hl];
             [now rewrite andb_true_r|].
           rewrite andb_false_r. symmetry. now apply testbit_uint8_high.
        -- rewrite andb_false_r. symmetry. apply Z.testbit_neg_r. lia.
Qed.

Lemma SortMapKeys_after_SetSortMapKeys_witness :
  SortMapKeys (SetSortMapKeys DefaultConfig true) = true
  /\ (0 <= mapEncoder (SetSortMapKeys DefaultConfig true) < 256)%Z
  /\ Z.testbit (mapEncoder (SetSortMapKeys DefaultConfig true)) 3
     = Z.testbit (mapEncoder DefaultConfig) 3.
Proof.
  destruct (SortMapKeys_after_SetSortMapKeys DefaultConfig true) as [G H].
  split; [exact G|].
  assert (R : (0 <= mapEncoder DefaultConfig < 256)%Z)
    by (vm_compute; split; [discriminate|reflexivity]).
  destruct (H R) as [H1 H2]. split; [exact H1|]. apply H2. discriminate.
Defined.

(* ------------------------------------------------------------------------- *)
(** * The pool of buffers *)

Lemma bufpool_Get_sliceOK pick p :
  Forall sliceOK p ->
  sliceOK (fst (bufpool_Get pick p)) /\ Forall sliceOK (snd (bufpool_Get pick p)).
Proof.
  intros H. assert (N : sliceOK bufpool_New) by (unfold sliceOK; cbn; lia).
  unfold bufpool_Get. destruct pick as [n|]; [|now split].
  destruct (nth_error p n) as [b|] eqn:E; [|now split]. cbn [fst snd]. split.
  - apply nth_error_In in E. rewrite Forall_forall in H. now apply H.
  - apply Forall_app. split.
    + rewrite <- (firstn_skipn n p) in H. now apply Forall_app in H.
    + rewrite <- (firstn_skipn (S n) p) in H. now apply Forall_app in H.
Qed.



(* ------------------------------------------------------------------------- *)
(** * Tags and their options *)

Lemma cutComma_Some s : forall before after,
  cutComma s = Some (before, after) ->
  s = (before ++ "," ++ after)%string
  /\ hasComma before = false
  /\ splitComma s = before :: splitComma after
  /\ (String.length after < String.length s)%nat.
Proof.
  induction s as [|c s IH]; intros before after H; cbn in H; [discriminate|].
  cbn [splitComma String.length].
  destruct (Ascii.eqb c ",") eqn:Ec.
  - injection H as <- <-. apply Ascii.eqb_eq in Ec. subst c.
    cbn. repeat split. lia.
  - destruct (cutComma s) as [[b a]|] eqn:E; [|discriminate].
    injection H as <- <-. destruct (IH _ _ eq_refl) as [E1 [E2 [E3 E4]]].
    rewrite E3. cbn. rewrite Ec, E2. repeat split; [|lia].
    now rewrite E1 at 1.
Qed.

Lemma cutComma_None s :
  cutComma s = None -> hasComma s = false /\ splitComma s = [s].
Proof.
  induction s as [|c s IH]; intros H; cbn in H; [now split|].
  cbn [splitComma hasComma].
  destruct (Ascii.eqb c ","); [discriminate|].
  destruct (cutComma s) as [[b a]|]; [discriminate|].
  destruct (IH eq_refl) as [E1 E2]. now rewrite E1, E2.
Qed.

Lemma cutComma_app name opts :
  hasComma name = false ->
  cutComma (name ++ "," ++ opts) = Some (name, opts).
Proof.
  induction name as [|c name IH]; intros H; [reflexivity|].
  cbn in H. apply orb_false_iff in H as [Hc Hn].
  cbn. rewrite Hc. specialize (IH Hn). cbn in IH. now rewrite IH.
Qed.

(** X3.  [parseTag] cuts a tag at its first comma: the name it returns
    holds no comma and, with the options after a comma, makes up the tag
    again; a tag without comma is all name.  Conversely a name without
    comma and any options are read back from the tag they make. *)
Theorem parseTag_cuts_at_first_comma :
  (forall tag,
     hasComma (fst (parseTag tag)) = false
     /\ (if hasComma tag
         then tag = (fst (parseTag tag) ++ "," ++ snd (parseTag tag))%string
         else parseTag tag = (tag, EmptyString)))
  /\ (forall name opts,
        hasComma name = false ->
        parseTag (name ++ "," ++ opts) = (name, opts)).
Proof.
  split.
  - intros tag. unfold parseTag.
    destruct (cutComma tag) as [[name opts]|] eqn:E; cbn [fst snd].
    + destruct (cutComma_Some _ E) as [E1 [E2 _]]. split; [exact E2|].
      assert (C : forall a b, hasComma (a ++ "," ++ b) = true).
      { induction a as [|c a IH]; intros b; [reflexivity|].
        cbn. specialize (IH b). cbn in IH. rewrite IH. apply orb_true_r. }
      assert (Ht : hasComma tag = true) by (rewrite E1; apply C).
      rewrite Ht. exact E1.
    + destruct (cutComma_None _ E) as [E1 _]. now rewrite E1.
  - intros name opts H. unfold parseTag. now rewrite (@cutComma_app name opts H).
Qed.

Lemma parseTag_cuts_at_first_comma_witness :
  parseTag "name,stringer,raw" = ("name", "stringer,raw")%string.
Proof.
  apply (proj2 parseTag_cuts_at_first_comma "name" "stringer,raw")%string.
  reflexivity.
Defined.

Lemma ContainsLoop_pieces name :
  name <> EmptyString ->
  forall turns s,
    (String.length s <= turns)%nat ->
    ContainsLoop turns s name = true <-> In name (splitComma s).
Proof.
  intros Hn. induction turns as [|turns IH]; intros s Hl.
  - destruct s; [|cbn in Hl; lia]. cbn. split; [discriminate|].
    intros [H|[]]. now destruct Hn.
  - cbn [ContainsLoop]. destruct (String.eqb s EmptyString) eqn:Es.
    + apply String.eqb_eq in Es. subst s. cbn. split; [discriminate|].
      intros [H|[]]. now destruct Hn.
    + destruct (cutComma s) as [[b a]|] eqn:E.
      * destruct (cutComma_Some _ E) as [_ [_ [E3 E4]]]. rewrite E3.
        destruct (String.eqb b name) eqn:Eb.
        -- apply String.eqb_eq in Eb. split; [intros _; now left|reflexivity].
        -- apply String.eqb_neq in Eb. rewrite IH by lia. cbn [In].
           split; [now right|]. intros [H|H]; [contradiction|exact H].
      * destruct (cutComma_None _ E) as [_ E2]. rewrite E2.
        destruct (String.eqb s name) eqn:Eb.
        -- apply String.eqb_eq in Eb. split; [intros _; now left|reflexivity].
        -- apply String.eqb_neq in Eb.
           assert (F : ContainsLoop turns EmptyString name = false)
             by (destruct turns; reflexivity).
           rewrite F. cbn [In]. split; [discriminate|].
           intros [H|[]]. contradiction.
Qed.

(** X4.  [Contains] finds an option exactly when it is one of the pieces
    of the options between commas: never as a part of a longer piece, and
    in no options at all. *)
Theorem Contains_iff_piece :
  forall (o : tagOptions) optionName,
    optionName <> EmptyString ->
    Contains o optionName = true <-> In optionName (splitComma o).
Proof.
  intros o name Hn. unfold Contains.
  destruct (String.length o =? 0)%nat eqn:E.
  - apply Nat.eqb_eq in E. destruct o; [|discriminate E]. cbn.
    split; [discriminate|]. intros [H|[]]. now destruct Hn.
  - now apply ContainsLoop_pieces.
Qed.

Lemma Contains_iff_piece_witness :
  Contains "omitempty,stringer"%string "stringer" = true
  /\ Contains "stringers,xstringer"%string "stringer" = false.
Proof.
  assert (N : "stringer"%string <> EmptyString) by discriminate.
  split.
  - apply (proj2 (@Contains_iff_piece "omitempty,stringer"%string
                    "stringer"%string N)).
    right. left. reflexivity.
  - destruct (Contains "stringers,xstringer"%string "stringer") eqn:E;
      [|reflexivity].
    apply (proj1 (@Contains_iff_piece "stringers,xstringer"%string
                    "stringer"%string N)) in E.
    destruct E as [E|[E|[]]]; discriminate E.
Defined.

(* ------------------------------------------------------------------------- *)
(** * The options of a field *)

Lemma Marshal_objectAround cfg pre f post ms enc v text :
  NewStructEncoderWithConfig (reflect.StructOf (pre ++ f :: post) ms) cfg
  = Done enc ->
  included f = true ->
  (forall w, writeValue cfg f (List.length pre) v w = Done (Write w text)) ->
  forall w, StructEncoder_Marshal enc v w = objectAround cfg pre f post text v w.
Proof.
  intros H Hin Ht w. rewrite (@Marshal_around_field cfg pre f post ms enc H).
  unfold objectAround. rewrite Hin. cbn [negb]. rewrite andb_false_r.
  apply bind_ext. intros w1. cbn [writeMembers]. rewrite Ht. cbn [bind].
  now rewrite Write_Write.
Qed.

Lemma writeValue_byKind cfg f i vs x conv text w :
  nth_error vs i = Some x ->
  (forall e, fieldValue f i (snd (parseTag (reflect.Tag f)))
               (NewSliceEncoderWithConfig (reflect.Typ f) cfg)
               (NewStructEncoderWithConfig (pointee (reflect.Typ f)) cfg)
               (NewMapEncoderWithConfig (pointee (reflect.Typ f)) cfg) e
             = Done ((if isPtr (reflect.Typ f) then ptrval i else val i)
                       conv e)) ->
  (forall y w, conv y w = Done (Write w (text y))) ->
  writeValue cfg f i (VStruct vs) w
  = (t <- throughPointer (reflect.Typ f) text x ;; Done (Write w t)).
Proof.
  intros Hx Hf Hc. unfold writeValue. rewrite Hf. cbn [bind].
  unfold throughPointer.
  destruct (isPtr (reflect.Typ f)); unfold ptrval, val;
    rewrite emitted_add_flunk, emitted_empty; cbn [bind fieldAt];
    rewrite Hx; cbn [bind].
  - destruct x; try reflexivity. destruct p as [y|]; [apply Hc|reflexivity].
  - apply Hc.
Qed.

(** X5.  A field with the [encoder] option, which the [stringer] option
    does not take, is written as what [JSONEncode] writes for its value,
    after its key and between the other members; when the type has no such
    method, or the field is a nil pointer, [null] is written. *)
Theorem encoder_field_written_by_JSONEncode :
  forall cfg pre f post ms enc vs x text w,
    NewStructEncoderWithConfig (reflect.StructOf (pre ++ f :: post) ms) cfg
    = Done enc ->
    included f = true ->
    takesStringer f = false ->
    takesEncoder f = true ->
    nth_error vs (List.length pre) = Some x ->
    throughPointer (reflect.Typ f) (jsonEncoded (reflect.Typ f)) x
    = Done text ->
    StructEncoder_Marshal enc (VStruct vs) w
    = objectAround cfg pre f post text (VStruct vs) w.
Proof.
  intros cfg pre f post ms enc vs x text w H Hin Hs He Hx Ht.
  apply (@Marshal_objectAround cfg pre f post ms enc (VStruct vs) text H Hin).
  intros w'.
  rewrite (@writeValue_byKind cfg f _ vs x
             (encoderConv (pointee (reflect.Typ f)))
             (jsonEncoded (reflect.Typ f)) w' Hx).
  - now rewrite Ht.
  - intros e. unfold fieldValue. unfold takesStringer in Hs.
    unfold takesEncoder in He. rewrite Hs, He. reflexivity.
  - intros y w0. unfold encoderConv, jsonEncoded.
    destruct (reflect.lookup _ _); reflexivity.
Qed.

Lemma encoder_field_written_by_JSONEncode_witness :
  exists enc,
    NewStructEncoderWithConfig
      (reflect.StructOf
         ([reflect.mkStructField "PropEncode" "propEncode,encoder" encode0]
          ++ reflect.mkStructField "PropEncodenilP" "propEncodenilP,encoder"
               (reflect.PtrTo encode0)
          :: [])
         reflect.noMethods) DefaultConfig = Done enc
    /\ StructEncoder_Marshal enc
         (VStruct [VStruct [VInt 49]; VPtr None]) (mkBuffer [])
       = Done (mkBuffer (bs "{" ++ quote :: bs "propEncode" ++ quote
                         :: bs ":1," ++ quote :: bs "propEncodenilP"
                         ++ quote :: bs ":null}")).
Proof.
  eexists. split; [reflexivity|].
  rewrite (@encoder_field_written_by_JSONEncode DefaultConfig
             [reflect.mkStructField "PropEncode" "propEncode,encoder" encode0]
             (reflect.mkStructField "PropEncodenilP" "propEncodenilP,encoder"
                (reflect.PtrTo encode0))
             [] reflect.noMethods _
             [VStruct [VInt 49]; VPtr None] (VPtr None) null (mkBuffer [])
             eq_refl eq_refl eq_refl eq_refl eq_refl eq_refl).
  reflexivity.
Defined.

Lemma wf_byKind (ptr : bool) i conv e :
  wf e -> wf ((if ptr then ptrval i else val i) conv e).
Proof.
  intros He. destruct ptr; [apply (@hom_ptrval i conv e He)
                           |apply (@hom_val i conv e He)].
Qed.

Lemma wf_chunk b e : wf e -> wf (chunk b e).
Proof. intros He. apply (@hom_chunk b e He). Qed.

(** X6.  A field with the [stringer] option whose type has a [String]
    method is written as the text the method returns, between quotes and
    as it is, after its key and between the other members; the quotes are
    also put around the [null] of a nil pointer. *)
Theorem stringer_field_written_in_quotes :
  forall cfg pre f post ms enc vs x text w,
    NewStructEncoderWithConfig (reflect.StructOf (pre ++ f :: post) ms) cfg
    = Done enc ->
    included f = true ->
    takesStringer f = true ->
    nth_error vs (List.length pre) = Some x ->
    throughPointer (reflect.Typ f) (stringText (reflect.Typ f)) x
    = Done text ->
    StructEncoder_Marshal enc (VStruct vs) w
    = objectAround cfg pre f post (quotedText text) (VStruct vs) w.
Proof.
  intros cfg pre f post ms enc vs x text w H Hin Hs Hx Ht.
  apply (@Marshal_objectAround cfg pre f post ms enc (VStruct vs) _ H Hin).
  intros w'. unfold writeValue, fieldValue. unfold takesStringer in Hs.
  rewrite Hs. cbn [bind].
  assert (W1 : wf (chunk [quote] emptyStructEncoder))
    by (apply wf_chunk, wf_empty).
  rewrite emitted_chunk by (apply wf_byKind, W1).
  assert (E : forall conv,
            emitted ((if isPtr (reflect.Typ f)
                      then ptrval (List.length pre)
                      else val (List.length pre)) conv
                       (chunk [quote] emptyStructEncoder)) (VStruct vs) w'
            = (x' <- fieldAt (List.length pre) (VStruct vs) ;;
               if isPtr (reflect.Typ f) then
                 match x' with
                 | VPtr None => Done (Write (Write w' [quote]) null)
                 | VPtr (Some p) => conv p (Write w' [quote])
                 | _ => BadRead
                 end
               else conv x' (Write w' [quote]))).
  { intros conv. destruct (isPtr (reflect.Typ f)); unfold ptrval, val;
      rewrite emitted_add_flunk, emitted_chunk, emitted_empty by apply wf_empty;
      reflexivity. }
  rewrite E. cbn [fieldAt]. rewrite Hx. cbn [bind].
  unfold throughPointer in Ht. unfold stringerConv, stringText in *.
  unfold quotedText.
  set (m := reflect.lookup reflect.mString
              (reflect.PtrTo (pointee (reflect.Typ f)))) in *.
  clearbody m.
  destruct (isPtr (reflect.Typ f)).
  - destruct x; try discriminate Ht. destruct p as [y|].
    + injection Ht as <-.
      destruct m; cbn [bind]; rewrite ?Write_Write; reflexivity.
    + injection Ht as <-. cbn [bind]. now rewrite !Write_Write.
  - injection Ht as <-.
    destruct m; cbn [bind]; rewrite ?Write_Write; reflexivity.
Qed.

Lemma stringer_field_written_in_quotes_witness :
  exists enc,
    NewStructEncoderWithConfig
      (reflect.StructOf
         ([reflect.mkStructField "N" "n" tInt]
          ++ reflect.mkStructField "D" "d,stringer"
               (Duration (fun _ => bs "1h0m0s"))
          :: [])
         reflect.noMethods) DefaultConfig = Done enc
    /\ StructEncoder_Marshal enc (VStruct [VInt 7; VInt 3600]) (mkBuffer [])
       = Done (mkBuffer (bs "{" ++ quote :: bs "n" ++ quote :: bs ":7,"
                         ++ quote :: bs "d" ++ quote :: bs ":"
                         ++ quote :: bs "1h0m0s" ++ quote :: bs "}")).
Proof.
  eexists. split; [reflexivity|].
  rewrite (@stringer_field_written_in_quotes DefaultConfig
             [reflect.mkStructField "N" "n" tInt]
             (reflect.mkStructField "D" "d,stringer"
                (Duration (fun _ => bs "1h0m0s")))
             [] reflect.noMethods _
             [VInt 7; VInt 3600] (VInt 3600) (bs "1h0m0s") (mkBuffer [])
             eq_refl eq_refl eq_refl eq_refl eq_refl).
  reflexivity.
Defined.

Lemma cutComma_no_comma s : hasComma s = false -> cutComma s = None.
Proof.
  induction s as [|c s IH]; intros H; [reflexivity|].
  cbn in H. apply orb_false_iff in H as [Hc Hs]. cbn.
  now rewrite Hc, (IH Hs).
Qed.

Lemma fieldInstr_stringer_ignored n name t i emit encSlice encStruct encMap e :
  hasComma name = false ->
  hasStringMethod t = false ->
  fieldInstr (reflect.mkStructField n (name ++ ",stringer") t) i emit
    encSlice encStruct encMap e
  = fieldInstr (reflect.mkStructField n name t) i emit
      encSlice encStruct encMap e.
Proof.
  intros Hn Ht. unfold fieldInstr. cbn [reflect.Tag]. unfold parseTag.
  change (name ++ ",stringer")%string with (name ++ "," ++ "stringer")%string.
  rewrite (@cutComma_app name "stringer" Hn), (@cutComma_no_comma name Hn).
  destruct (String.eqb name EmptyString); [reflexivity|].
  f_equal. unfold fieldValue. cbn [reflect.Typ]. rewrite Ht.
  reflexivity.
Qed.



(* ------------------------------------------------------------------------- *)
(** * Fields that [valueInst] compiles *)

Lemma plainField_fieldValue f i encSlice encStruct encMap e :
  plainField f = true ->
  fieldValue f i (snd (parseTag (reflect.Tag f))) encSlice encStruct encMap e
  = valueInst f i (reflect.KindOf (pointee (reflect.Typ f)))
      (if isPtr (reflect.Typ f) then ptrval i else val i)
      encSlice encStruct encMap e.
Proof.
  unfold plainField, takesStringer, takesEncoder, takesRaw, isTimeField.
  intros H. repeat (apply andb_prop in H; destruct H as [H ?]).
  repeat match goal with
         | H : negb _ = true |- _ => apply negb_true_iff in H
         end.
  match goal with H : (_ || _) = false |- _ =>
    apply orb_false_iff in H; destruct H as [T1 T2] end.
  unfold fieldValue.
  match goal with H : (Contains _ "stringer" && _) = false |- _ => rewrite H end.
  match goal with H : Contains _ "encoder" = false |- _ => rewrite H end.
  match goal with H : Contains _ "raw" = false |- _ => rewrite H end.
  rewrite T1, T2.
  destruct (isPtr (reflect.Typ f)) eqn:P; [reflexivity|].
  now rewrite (pointee_not_ptr _ P).
Qed.

Lemma derefText_Done ft (i : Instr) x text w :
  appends i ->
  derefText ft i x = Done text ->
  (if isPtr ft then
     match x with
     | VPtr None => Done (Write w null)
     | VPtr (Some y) => i y w
     | _ => BadRead
     end
   else i x w) = Done (Write w text).
Proof.
  intros Hi. unfold derefText. destruct (isPtr ft).
  - destruct x; try discriminate. destruct p as [y|].
    + intros H. now apply appends_Done.
    + now intros [= <-].
  - intros H. now apply appends_Done.
Qed.

(** X8.  A field of a struct, map or slice type, or a pointer to a struct
    or a map, that no option takes is written by the encoder of that type:
    its value is the text the [Marshal] of that encoder writes for the
    field value, and [null] for a nil pointer. *)
Theorem nested_field_written_by_its_encoder :
  forall cfg pre f post ms enc vs x sub text w,
    NewStructEncoderWithConfig (reflect.StructOf (pre ++ f :: post) ms) cfg
    = Done enc ->
    included f = true ->
    plainField f = true ->
    nestedEncoder cfg (reflect.Typ f) = Some (Done sub) ->
    nth_error vs (List.length pre) = Some x ->
    derefText (reflect.Typ f) sub x = Done text ->
    StructEncoder_Marshal enc (VStruct vs) w
    = objectAround cfg pre f post text (VStruct vs) w.
Proof.
  intros cfg pre f post ms enc vs x sub text w H Hin Hp Hs Hx Ht.
  apply (@Marshal_objectAround cfg pre f post ms enc (VStruct vs) text H Hin).
  intros w'. unfold writeValue. rewrite plainField_fieldValue by exact Hp.
  unfold nestedEncoder in Hs. unfold valueInst.
  destruct (reflect.KindOf (pointee (reflect.Typ f))); try discriminate Hs.
  - (* map *)
    destruct (NewMapEncoderWithConfig (pointee (reflect.Typ f)) cfg)
      as [m| |] eqn:Em; try discriminate Hs.
    cbn [bind] in Hs. injection Hs as <-.
    pose proof (@appends_MapEncoder _ _ _ Em) as A.
    pose proof (@derefText_Done _ _ _ _ w' A Ht) as D.
    cbn [bind]. destruct (isPtr (reflect.Typ f));
      cbn [bind]; rewrite emitted_add_flunk, emitted_empty;
      cbn [bind fieldAt]; rewrite Hx; cbn [bind]; exact D.
  - (* slice *)
    destruct (isPtr (reflect.Typ f)) eqn:P; try discriminate Hs.
    destruct (NewSliceEncoderWithConfig (reflect.Typ f) cfg)
      as [m| |] eqn:Em; try discriminate Hs.
    cbn [bind] in Hs. injection Hs as <-.
    pose proof (@appends_SliceEncoder _ _ _ Em) as A.
    pose proof (@derefText_Done _ _ _ _ w' A Ht) as D. rewrite P in D.
    cbn [bind]. rewrite emitted_add_flunk, emitted_empty.
    cbn [bind fieldAt]. rewrite Hx. cbn [bind]. exact D.
  - (* struct *)
    destruct (NewStructEncoderWithConfig (pointee (reflect.Typ f)) cfg)
      as [m| |] eqn:Em; try discriminate Hs.
    cbn [bind] in Hs. injection Hs as <-.
    pose proof (@appends_StructEncoder _ _ _ Em) as A.
    pose proof (@derefText_Done _ _ _ _ w' A Ht) as D.
    cbn [bind]. destruct (isPtr (reflect.Typ f));
      cbn [bind]; rewrite emitted_add_flunk, emitted_empty;
      cbn [bind fieldAt]; rewrite Hx; cbn [bind]; exact D.
Qed.

Lemma nested_field_written_by_its_encoder_witness :
  exists enc,
    NewStructEncoderWithConfig testStruct0 DefaultConfig = Done enc
    /\ StructEncoder_Marshal enc (VStruct [VPtr None]) (mkBuffer [])
       = Done (mkBuffer (bs "{" ++ quote :: bs "structPtr" ++ quote
                         :: bs ":null}")).
Proof.
  eexists. split; [reflexivity|]. unfold testStruct0.
  rewrite (@nested_field_written_by_its_encoder DefaultConfig
             [] (reflect.mkStructField "StructPtr" "structPtr"
                   (reflect.PtrTo testStruct1))
             [] reflect.noMethods _ [VPtr None] (VPtr None) _ null
             (mkBuffer [])
             eq_refl eq_refl eq_refl eq_refl eq_refl eq_refl).
  reflexivity.
Defined.

Lemma skipn_cons_nth {A} (l : list A) : forall j y tl,
  skipn j l = y :: tl -> nth_error l j = Some y /\ skipn (S j) l = tl.
Proof.
  induction l as [|x l IH]; intros [|j] y tl H; cbn in H; try discriminate.
  - injection H as <- <-. now split.
  - destruct (IH _ _ _ H) as [E1 E2]. split; [exact E1|exact E2].
Qed.

Lemma arrayLoop_text i conv vs elems :
  appends conv ->
  nth_error vs i = Some (VArray elems) ->
  forall ts j e,
    wf e ->
    Forall2 (fun y t => render conv y = Done t)
      (firstn (List.length ts) (skipn j elems)) ts ->
    forall w,
      emitted (arrayLoop i conv j (List.length ts) e) (VStruct vs) w
      = (w' <- emitted e (VStruct vs) w ;; Done (Write w' (arrayFrom j ts))).
Proof.
  intros Hc Hx. induction ts as [|t rest IH]; intros j e He F w.
  - cbn [List.length arrayLoop arrayFrom].
    rewrite <- (bind_Done_r (emitted e (VStruct vs) w)) at 1.
    apply bind_ext. intros w'. now rewrite Write_nil.
  - cbn [List.length arrayLoop arrayFrom].
    destruct (skipn j elems) as [|y tl] eqn:Es; [inversion F|].
    destruct (skipn_cons_nth _ _ Es) as [Ey Etl].
    cbn [firstn] in F. inversion F as [|? ? ? ? Ry Frest]; subst.
    set (e1 := if (0 <? j)%nat then chunk (bs ", ") e else e).
    assert (W1 : wf e1) by (unfold e1; destruct (0 <? j)%nat;
                            [now apply wf_chunk|exact He]).
    rewrite IH.
    + rewrite emitted_add_flunk, bind_assoc.
      assert (E1 : emitted e1 (VStruct vs) w
                   = (w' <- emitted e (VStruct vs) w ;;
                      Done (Write w' (if (0 <? j)%nat then bs ", " else [])))).
      { unfold e1. destruct (0 <? j)%nat; [now apply emitted_chunk|].
        rewrite <- (bind_Done_r (emitted e (VStruct vs) w)) at 1.
        apply bind_ext. intros w'. now rewrite Write_nil. }
      rewrite E1, bind_assoc. apply bind_ext. intros w'.
      cbn [bind fieldAt]. rewrite Hx. cbn [bind]. rewrite Ey.
      rewrite (appends_Done _ _ Hc Ry). cbn [bind].
      now rewrite !Write_Write.
    + apply (@hom_add_flunk _ e1 W1).
    + exact Frest.
Qed.

Lemma arrayFrom_joinWith texts :
  arrayFrom 0 texts = joinWith (bs ", ") texts.
Proof.
  assert (G : forall l j, arrayFrom (S j) l
                          = List.concat (map (fun t => bs ", " ++ t) l)).
  { induction l as [|t l IH]; intros j; [reflexivity|].
    cbn [arrayFrom map List.concat Nat.ltb Nat.leb]. rewrite IH.
    now rewrite <- app_assoc. }
  assert (J : forall x l, joinWith (bs ", ") (x :: l)
                          = x ++ List.concat (map (fun t => bs ", " ++ t) l)).
  { intros x l. revert x. induction l as [|y l IH]; intros x.
    - cbn. now rewrite app_nil_r.
    - change (joinWith (bs ", ") (x :: y :: l))
        with (x ++ bs ", " ++ joinWith (bs ", ") (y :: l)).
      rewrite IH. cbn [map List.concat]. now rewrite <- !app_assoc. }
  destruct texts as [|t texts]; [reflexivity|].
  cbn [arrayFrom Nat.ltb Nat.leb]. rewrite G, J. reflexivity.
Qed.

(** X9.  An array field that no option takes, with elements of a kind that
    has a conversion, is written as the texts of its elements between
    brackets, with a comma and a space between them; an array of length
    zero is written as the two brackets. *)
Theorem array_field_written_with_comma_space :
  forall cfg pre f post ms enc vs n elem ems conv elems texts w,
    NewStructEncoderWithConfig (reflect.StructOf (pre ++ f :: post) ms) cfg
    = Done enc ->
    included f = true ->
    plainField f = true ->
    reflect.Typ f = reflect.ArrayOf n elem ems ->
    typeconv (reflect.KindOf elem) = Some conv ->
    nth_error vs (List.length pre) = Some (VArray elems) ->
    List.length elems = n ->
    Forall2 (fun y t => render conv y = Done t) elems texts ->
    StructEncoder_Marshal enc (VStruct vs) w
    = objectAround cfg pre f post (arrayText texts) (VStruct vs) w.
Proof.
  intros cfg pre f post ms enc vs n elem ems conv elems texts w
    H Hin Hp Ht Hc Hx Hn F.
  apply (@Marshal_objectAround cfg pre f post ms enc (VStruct vs) _ H Hin).
  intros w'. unfold writeValue. rewrite plainField_fieldValue by exact Hp.
  rewrite Ht. cbn [pointee reflect.KindOf isPtr reflect.Kind_eqb].
  unfold valueInst. rewrite Ht. cbn [reflect.Elem bind]. rewrite Hc.
  cbn [Len bind].
  assert (L : n = List.length texts).
  { rewrite <- Hn. apply (Forall2_length F). }
  rewrite L.
  assert (W0 : wf (chunk (bs "[") emptyStructEncoder))
    by (apply wf_chunk, wf_empty).
  rewrite emitted_chunk
    by (apply (@hom_arrayLoop _ _ _ _ _ W0)).
  rewrite (@arrayLoop_text _ conv vs elems (appends_typeconv _ Hc) Hx).
  - rewrite emitted_chunk, emitted_empty by apply wf_empty. cbn [bind].
    rewrite !Write_Write, arrayFrom_joinWith. reflexivity.
  - exact W0.
  - cbn [skipn]. rewrite <- L, <- Hn, firstn_all. exact F.
Qed.

Lemma array_field_written_with_comma_space_witness :
  exists enc,
    NewStructEncoderWithConfig
      (reflect.StructOf
         ([] ++ reflect.mkStructField "A" "a"
                  (reflect.ArrayOf 3 tInt reflect.noMethods) :: [])
         reflect.noMethods) DefaultConfig = Done enc
    /\ StructEncoder_Marshal enc (VStruct [VArray [VInt 1; VInt 2; VInt 3]])
         (mkBuffer [])
       = Done (mkBuffer (bs "{" ++ quote :: bs "a" ++ quote
                         :: bs ":[1, 2, 3]}")).
Proof.
  eexists. split; [reflexivity|].
  rewrite (@array_field_written_with_comma_space DefaultConfig
             [] (reflect.mkStructField "A" "a"
                   (reflect.ArrayOf 3 tInt reflect.noMethods))
             [] reflect.noMethods _ [VArray [VInt 1; VInt 2; VInt 3]]
             3 tInt reflect.noMethods ptrIntToBuf [VInt 1; VInt 2; VInt 3]
             [bs "1"; bs "2"; bs "3"] (mkBuffer [])
             eq_refl eq_refl eq_refl eq_refl eq_refl eq_refl eq_refl).
  - reflexivity.
  - repeat constructor.
Defined.



(* ------------------------------------------------------------------------- *)
(** * The texts of slices *)

Lemma NewSliceEncoderWithConfig_Elem t cfg elem :
  reflect.Elem t = Done elem ->
  NewSliceEncoderWithConfig t cfg = sliceEncoderFor cfg elem.
Proof.
  destruct t; try discriminate; intros [= <-]; reflexivity.
Qed.

Lemma sliceFrom_joinComma texts : sliceFrom 0 texts = joinComma texts.
Proof.
  assert (G : forall l j, sliceFrom (S j) l
                          = List.concat (map (fun t => bs "," ++ t) l)).
  { induction l as [|t l IH]; intros j; [reflexivity|].
    cbn [sliceFrom map List.concat Nat.ltb Nat.leb]. rewrite IH.
    now rewrite <- app_assoc. }
  assert (J : forall x l, joinComma (x :: l)
                          = x ++ List.concat (map (fun t => bs "," ++ t) l)).
  { intros x l. revert x. induction l as [|y l IH]; intros x.
    - cbn. now rewrite app_nil_r.
    - change (joinComma (x :: y :: l))
        with (x ++ bs "," ++ joinComma (y :: l)).
      rewrite IH. cbn [map List.concat]. now rewrite <- !app_assoc. }
  destruct texts as [|t texts]; [reflexivity|].
  cbn [sliceFrom Nat.ltb Nat.leb]. rewrite G, J. reflexivity.
Qed.

Lemma sliceLoop_text step conv :
  (forall i len x w, step i len x w = conv x (comma i w)) ->
  appends conv ->
  forall xs texts,
    Forall2 (fun x t => render conv x = Done t) xs texts ->
    forall i len w,
      sliceLoop step i len xs w = Done (Write w (sliceFrom i texts)).
Proof.
  intros Hs Hc xs texts F. induction F as [|x t xs texts R _ IH];
    intros i len w; cbn [sliceLoop sliceFrom].
  - now rewrite Write_nil.
  - rewrite Hs, (appends_Done _ _ Hc R). cbn [bind]. rewrite IH.
    unfold comma. destruct (0 <? i)%nat;
      rewrite ?WriteByte_Write, !Write_Write; do 2 f_equal;
      now rewrite <- ?app_assoc.
Qed.

Lemma overSlice_text step conv :
  (forall i len x w, step i len x w = conv x (comma i w)) ->
  appends conv ->
  forall xs texts w,
    Forall2 (fun x t => render conv x = Done t) xs texts ->
    overSlice step (VSlice xs) w = Done (Write w (sliceText texts)).
Proof.
  intros Hs Hc xs texts w F. unfold overSlice.
  rewrite (sliceLoop_text _ Hs Hc F). cbn [bind].
  rewrite !WriteByte_Write, !Write_Write, sliceFrom_joinComma.
  reflexivity.
Qed.

Lemma appends_derefOrNull conv : appends conv -> appends (derefOrNull conv).
Proof.
  intros H. apply appends_app1. intros v. now apply app1_derefOrNull.
Qed.

Lemma derefText_render elem (i : Instr) x :
  derefText elem i x
  = render (if isPtr elem then derefOrNull i else i) x.
Proof.
  unfold derefText. destruct (isPtr elem); [|reflexivity].
  unfold render, derefOrNull. destruct x; try reflexivity.
  destruct p; reflexivity.
Qed.

Lemma isPtr_cases elem :
  isPtr elem = true ->
  (exists elem2, elem = reflect.PtrTo elem2)
  \/ (exists ms, elem = reflect.Basic reflect.Ptr ms).
Proof.
  destruct elem; try discriminate; intros H; [right|left; eauto].
  match goal with
  | H : isPtr (reflect.Basic ?kd _) = true |- _ =>
      destruct kd; try discriminate H
  end.
  eauto.
Qed.

(** X11.  A slice whose elements are structs, maps or slices, or pointers
    to structs or maps, is written as the texts of its elements between
    brackets, with commas between them; each element is written by the
    encoder of its type, a nil pointer as [null], and a slice without
    elements as the two brackets. *)
Theorem slice_of_composites_written_by_their_encoder :
  forall t cfg enc elem sub xs texts w,
    NewSliceEncoderWithConfig t cfg = Done enc ->
    reflect.Elem t = Done elem ->
    reflect.isTimeType (pointee elem) = false ->
    nestedEncoder cfg elem = Some (Done sub) ->
    Forall2 (fun x t => derefText elem sub x = Done t) xs texts ->
    SliceEncoder_Marshal enc (VSlice xs) w = Done (Write w (sliceText texts)).
Proof.
  intros t cfg enc elem sub xs texts w H He Ht Hs F.
  rewrite (NewSliceEncoderWithConfig_Elem _ cfg He) in H.
  assert (F' : Forall2 (fun x t => render (if isPtr elem then derefOrNull sub
                                           else sub) x = Done t) xs texts).
  { eapply Forall2_impl; [|exact F]. intros x t' E.
    now rewrite <- derefText_render. }
  clear F. unfold sliceEncoderFor in H. unfold nestedEncoder in Hs.
  destruct (isPtr elem) eqn:P.
  - destruct (isPtr_cases _ P) as [[elem2 ->]|[ms ->]];
      [|cbn in H; discriminate H].
    cbn [pointee] in Ht, Hs. cbn [reflect.isTimeType reflect.KindOf] in H.
    rewrite Ht in H.
    destruct (reflect.KindOf elem2); try discriminate Hs.
    + destruct (NewMapEncoderWithConfig elem2 cfg) as [m| |] eqn:Em;
        try discriminate H.
      cbn [bind] in H, Hs. injection H as <-. injection Hs as <-.
      apply (@overSlice_text _ (derefOrNull (MapEncoder_Marshal m)));
        [reflexivity| |exact F'].
      apply appends_derefOrNull, (@appends_MapEncoder _ _ _ Em).
    + destruct (NewStructEncoderWithConfig elem2 cfg) as [m| |] eqn:Em;
        try discriminate H.
      cbn [bind] in H, Hs. injection H as <-. injection Hs as <-.
      apply (@overSlice_text _ (derefOrNull (StructEncoder_Marshal m)));
        [reflexivity| |exact F'].
      apply appends_derefOrNull, (@appends_StructEncoder _ _ _ Em).
  - rewrite (pointee_not_ptr _ P) in Ht, Hs. rewrite Ht in H.
    destruct (reflect.KindOf elem); try discriminate Hs.
    + destruct (NewMapEncoderWithConfig elem cfg) as [m| |] eqn:Em;
        try discriminate H.
      cbn [bind] in H, Hs. injection H as <-. injection Hs as <-.
      apply (@overSlice_text _ (MapEncoder_Marshal m));
        [reflexivity| |exact F'].
      apply (@appends_MapEncoder _ _ _ Em).
    + destruct (NewSliceEncoderWithConfig elem cfg) as [m| |] eqn:Em;
        try discriminate H.
      cbn [bind] in H, Hs. injection H as <-. injection Hs as <-.
      apply (@overSlice_text _ (SliceEncoder_Marshal m));
        [reflexivity| |exact F'].
      apply (@appends_SliceEncoder _ _ _ Em).
    + destruct (NewStructEncoderWithConfig elem cfg) as [m| |] eqn:Em;
        try discriminate H.
      cbn [bind] in H, Hs. injection H as <-. injection Hs as <-.
      apply (@overSlice_text _ (StructEncoder_Marshal m));
        [reflexivity| |exact F'].
      apply (@appends_StructEncoder _ _ _ Em).
Qed.

Lemma slice_of_composites_written_by_their_encoder_witness :
  exists enc,
    NewSliceEncoderWithConfig DSUsers DefaultConfig = Done enc
    /\ SliceEncoder_Marshal enc
         (VSlice [VPtr (Some (VStruct [VString (bs "test0")])); VPtr None])
         (mkBuffer [])
       = Done (mkBuffer (bs "[{" ++ quote :: bs "username" ++ quote
                         :: bs ":" ++ quote :: bs "test0" ++ quote
                         :: bs "},null]")).
Proof.
  eexists. split; [reflexivity|].
  rewrite (@slice_of_composites_written_by_their_encoder
             DSUsers DefaultConfig _ (reflect.PtrTo DSUser) _
             [VPtr (Some (VStruct [VString (bs "test0")])); VPtr None]
             [bs "{" ++ quote :: bs "username" ++ quote :: bs ":"
              ++ quote :: bs "test0" ++ quote :: bs "}"; null]
             (mkBuffer []) eq_refl eq_refl eq_refl eq_refl).
  - reflexivity.
  - repeat constructor.
Defined.

Lemma render_quoted_string x t :
  render (quoted ptrStringToBuf) x = Done t ->
  exists s, x = VString s /\ t = quotedText s.
Proof.
  unfold render, quoted, ptrStringToBuf. destruct x; try discriminate.
  cbn. intros [= <-]. eexists. split; reflexivity.
Qed.

Lemma stringInstr_loop : forall ss i len w,
  (i + List.length ss = len)%nat ->
  sliceLoop (fun i len x w =>
    let w := if (i =? 0)%nat then WriteByte w quote else w in
    let w := if (0 <? i)%nat then Write w (quote :: bs "," ++ [quote])
             else w in
    w <- ptrStringToBuf x w ;;
    Done (if (i =? len - 1)%nat then WriteByte w quote else w))
    i len (map VString ss) w
  = Done (Write w (stringsFrom i ss)).
Proof.
  induction ss as [|s rest IH]; intros i len w Hl;
    cbn [map sliceLoop stringsFrom].
  - now rewrite Write_nil.
  - cbn [List.length] in Hl. cbv zeta. cbn [ptrStringToBuf bind].
    rewrite (IH (S i) len) by lia.
    assert (Elast : (i =? len - 1)%nat
                    = match rest with [] => true | _ :: _ => false end).
    { destruct rest; cbn [List.length] in Hl.
      - apply Nat.eqb_eq. lia.
      - apply Nat.eqb_neq. lia. }
    rewrite Elast.
    destruct i as [|i]; cbn [Nat.eqb Nat.ltb Nat.leb]; destruct rest;
      rewrite ?WriteByte_Write, !Write_Write; do 2 f_equal;
      cbn [app]; rewrite <- ?app_assoc; reflexivity.
Qed.

Lemma stringsFrom_joinComma ss :
  stringsFrom 0 ss = joinComma (map quotedText ss).
Proof.
  assert (G : forall l i,
            (match l with [] => [quote] | _ :: _ => [] end)
            ++ stringsFrom (S i) l
            = quote :: List.concat
                         (map (fun s => bs "," ++ quotedText s) l)).
  { induction l as [|s l IH]; intros i; [reflexivity|].
    cbn [stringsFrom Nat.eqb map List.concat app]. rewrite (IH (S i)).
    unfold quotedText. norm_app. reflexivity. }
  assert (J : forall x l, joinComma (x :: l)
                          = x ++ List.concat (map (fun t => bs "," ++ t) l)).
  { intros x l. revert x. induction l as [|y l IH]; intros x.
    - cbn. now rewrite app_nil_r.
    - change (joinComma (x :: y :: l))
        with (x ++ bs "," ++ joinComma (y :: l)).
      rewrite IH. cbn [map List.concat]. now rewrite <- !app_assoc. }
  destruct ss as [|s ss]; [reflexivity|].
  cbn [stringsFrom Nat.eqb map]. rewrite J, map_map, (G ss 0%nat).
  unfold quotedText. norm_app. reflexivity.
Qed.

Lemma stringInstr_text xs texts w :
  Forall2 (fun x t => render (quoted ptrStringToBuf) x = Done t) xs texts ->
  SliceEncoder_Marshal stringInstr (VSlice xs) w
  = Done (Write w (sliceText texts)).
Proof.
  intros F.
  assert (S : exists ss, xs = map VString ss /\ texts = map quotedText ss).
  { induction F as [|x t' xs texts R _ IH]; [exists []; now split|].
    destruct (render_quoted_string _ R) as [s [-> ->]].
    destruct IH as [ss [-> ->]]. exists (s :: ss). now split. }
  destruct S as [ss [-> ->]].
  unfold SliceEncoder_Marshal, stringInstr, slice_instruction, overSlice.
  rewrite stringInstr_loop by (rewrite length_map; reflexivity).
  cbn [bind]. rewrite !WriteByte_Write, !Write_Write, stringsFrom_joinComma.
  reflexivity.
Qed.

(** X12.  A slice of strings, or of pointers to strings, is written as
    its elements between brackets with commas between them, each string
    between quotes and as it is, a nil pointer as [null]; the loop of
    [stringInstr], which writes the quotes with the commas, gives the same
    text as quoting each element. *)
Theorem slice_of_strings_quotes_each_element :
  forall t cfg enc elem xs texts w,
    NewSliceEncoderWithConfig t cfg = Done enc ->
    reflect.Elem t = Done elem ->
    reflect.KindOf (pointee elem) = reflect.String ->
    Forall2 (fun x t => derefText elem (quoted ptrStringToBuf) x = Done t)
      xs texts ->
    SliceEncoder_Marshal enc (VSlice xs) w = Done (Write w (sliceText texts)).
Proof.
  intros t cfg enc elem xs texts w H He Hk F.
  rewrite (NewSliceEncoderWithConfig_Elem _ cfg He) in H.
  assert (Ht : reflect.isTimeType (pointee elem) = false)
    by (destruct (pointee elem); try reflexivity; discriminate Hk).
  assert (F' : Forall2 (fun x t => render (if isPtr elem
                                           then derefOrNull
                                                  (quoted ptrStringToBuf)
                                           else quoted ptrStringToBuf) x
                                    = Done t) xs texts).
  { eapply Forall2_impl; [|exact F]. intros x t' E.
    now rewrite <- derefText_render. }
  clear F. unfold sliceEncoderFor in H.
  destruct (isPtr elem) eqn:P.
  - destruct (isPtr_cases _ P) as [[elem2 ->]|[ms ->]];
      [|cbn in H; discriminate H].
    cbn [pointee] in Ht, Hk. cbn [reflect.isTimeType reflect.KindOf] in H.
    rewrite Ht, Hk in H. injection H as <-.
    apply (@overSlice_text _ (derefOrNull (quoted ptrStringToBuf)));
      [reflexivity| |exact F'].
    apply appends_derefOrNull, appends_quoted, appends_ptrStringToBuf.
  - rewrite (pointee_not_ptr _ P) in Ht, Hk. rewrite Ht, Hk in H.
    injection H as <-. now apply stringInstr_text.
Qed.

Lemma slice_of_strings_quotes_each_element_witness :
  exists enc,
    NewSliceEncoderWithConfig
      (reflect.SliceOf tString reflect.noMethods) DefaultConfig = Done enc
    /\ SliceEncoder_Marshal enc
         (VSlice [VString (bs "a name"); VString (bs "another name")])
         (mkBuffer [])
       = Done (mkBuffer (bs "[" ++ quote :: bs "a name" ++ quote :: bs ","
                         ++ quote :: bs "another name" ++ quote :: bs "]")).
Proof.
  eexists. split; [reflexivity|].
  rewrite (@slice_of_strings_quotes_each_element
             (reflect.SliceOf tString reflect.noMethods) DefaultConfig _
             tString
             [VString (bs "a name"); VString (bs "another name")]
             [quotedText (bs "a name"); quotedText (bs "another name")]
             (mkBuffer []) eq_refl eq_refl eq_refl).
  - reflexivity.
  - repeat constructor.
Defined.

Lemma slice_primitives_text :
  forall t cfg enc elem conv xs texts w,
    NewSliceEncoderWithConfig t cfg = Done enc ->
    reflect.Elem t = Done elem ->
    isPrimitive (reflect.KindOf (pointee elem)) = true ->
    typeconv (reflect.KindOf (pointee elem)) = Some conv ->
    Forall2 (fun x t => derefText elem conv x = Done t) xs texts ->
    SliceEncoder_Marshal enc (VSlice xs) w = Done (Write w (sliceText texts)).
Proof.
  intros t cfg enc elem conv xs texts w H He Hk Hc F.
  rewrite (NewSliceEncoderWithConfig_Elem _ cfg He) in H.
  assert (Ht : reflect.isTimeType (pointee elem) = false)
    by (destruct (pointee elem); try reflexivity; discriminate Hk).
  assert (F' : Forall2 (fun x t => render (if isPtr elem
                                           then derefOrNull conv
                                           else conv) x = Done t) xs texts).
  { eapply Forall2_impl; [|exact F]. intros x t' E.
    now rewrite <- derefText_render. }
  clear F. unfold sliceEncoderFor in H.
  pose proof (appends_typeconv _ Hc) as A.
  destruct (isPtr elem) eqn:P.
  - destruct (isPtr_cases _ P) as [[elem2 ->]|[ms ->]];
      [|cbn in H; discriminate H].
    cbn [pointee] in Ht, Hk, Hc. cbn [reflect.isTimeType reflect.KindOf] in H.
    rewrite Ht in H.
    assert (E : enc = ptrOtherInstr (reflect.KindOf elem2))
      by (destruct (reflect.KindOf elem2); try discriminate Hk;
          now injection H as <-).
    subst enc. unfold SliceEncoder_Marshal, ptrOtherInstr. rewrite Hc.
    cbn [slice_instruction].
    apply (@overSlice_text _ (derefOrNull conv)); [reflexivity| |exact F'].
    now apply appends_derefOrNull.
  - rewrite (pointee_not_ptr _ P) in Ht, Hk, Hc. rewrite Ht in H.
    assert (E : enc = otherInstr (reflect.KindOf elem))
      by (destruct (reflect.KindOf elem); try discriminate Hk;
          now injection H as <-).
    subst enc. unfold SliceEncoder_Marshal, otherInstr. rewrite Hc.
    cbn [slice_instruction].
    apply (@overSlice_text _ conv); [reflexivity|exact A|exact F'].
Qed.

(** X13.  A slice of booleans, integers or floating-point numbers, or of
    pointers to them, is written as the texts of its elements between
    brackets with commas between them; each element is written by the
    conversion [typeconv] has for its kind, a nil pointer as [null]. *)
Theorem slice_of_primitives_written_by_typeconv :
  forall t cfg enc elem conv xs texts w,
    NewSliceEncoderWithConfig t cfg = Done enc ->
    reflect.Elem t = Done elem ->
    isPrimitive (reflect.KindOf (pointee elem)) = true ->
    typeconv (reflect.KindOf (pointee elem)) = Some conv ->
    Forall2 (fun x t => derefText elem conv x = Done t) xs texts ->
    SliceEncoder_Marshal enc (VSlice xs) w = Done (Write w (sliceText texts)).
Proof. exact slice_primitives_text. Qed.

Lemma slice_of_primitives_written_by_typeconv_witness :
  exists enc,
    NewSliceEncoderWithConfig
      (reflect.SliceOf (reflect.PtrTo tInt) reflect.noMethods) DefaultConfig
    = Done enc
    /\ SliceEncoder_Marshal enc
         (VSlice [VPtr (Some (VInt 2)); VPtr None; VPtr (Some (VInt (-1)))])
         (mkBuffer [])
       = Done (mkBuffer (bs "[2,null,-1]")).
Proof.
  eexists. split; [reflexivity|].
  rewrite (@slice_of_primitives_written_by_typeconv
             (reflect.SliceOf (reflect.PtrTo tInt) reflect.noMethods)
             DefaultConfig _ (reflect.PtrTo tInt) ptrIntToBuf
             [VPtr (Some (VInt 2)); VPtr None; VPtr (Some (VInt (-1)))]
             [bs "2"; null; bs "-1"]
             (mkBuffer []) eq_refl eq_refl eq_refl eq_refl).
  - reflexivity.
  - repeat constructor.
Defined.

(** X14.  The slice constructor never reports an element type it cannot
    encode.  For elements of a kind without encoder or conversion, for
    pointers to such elements and for pointers to pointers, it returns an
    encoder without instruction, and every [Marshal] of it panics on the
    nil function; for pointers to slices it panics inside [reflect]. *)
Theorem slice_constructor_never_reports_unsupported_elements :
  forall t cfg elem,
    reflect.Elem t = Done elem ->
    (unconvertible (reflect.KindOf elem) = true ->
     exists enc,
       NewSliceEncoderWithConfig t cfg = Done enc
       /\ forall v w, SliceEncoder_Marshal enc v w = Panic nilDeref)
    /\ (forall elem2,
          elem = reflect.PtrTo elem2 ->
          reflect.isTimeType elem2 = false ->
          (unconvertible (reflect.KindOf elem2) = true
           \/ reflect.KindOf elem2 = reflect.Ptr ->
           exists enc,
             NewSliceEncoderWithConfig t cfg = Done enc
             /\ forall v w, SliceEncoder_Marshal enc v w = Panic nilDeref)
          /\ (reflect.KindOf elem2 = reflect.Slice ->
              NewSliceEncoderWithConfig t cfg
              = Panic "reflect: call of reflect.Value.Interface on zero Value")).
Proof.
  intros t cfg elem He.
  rewrite (NewSliceEncoderWithConfig_Elem _ cfg He). unfold sliceEncoderFor.
  split.
  - intros Hu.
    assert (Ht : reflect.isTimeType elem = false)
      by (destruct elem; try reflexivity; discriminate Hu).
    rewrite Ht.
    destruct (reflect.KindOf elem); try discriminate Hu;
      (eexists; split; [reflexivity|]; intros v w; reflexivity).
  - intros elem2 -> Ht. cbn [reflect.isTimeType reflect.KindOf].
    rewrite Ht. split.
    + intros [Hu|Hp].
      * destruct (reflect.KindOf elem2); try discriminate Hu;
          (eexists; split; [reflexivity|]; intros v w; reflexivity).
      * rewrite Hp. eexists. split; [reflexivity|]. intros v w. reflexivity.
    + intros Hs. now rewrite Hs.
Qed.

Lemma slice_constructor_never_reports_unsupported_elements_witness :
  (exists enc,
     NewSliceEncoderWithConfig
       (reflect.SliceOf (reflect.ChanOf tInt) reflect.noMethods) DefaultConfig
     = Done enc
     /\ forall v w, SliceEncoder_Marshal enc v w = Panic nilDeref)
  /\ NewSliceEncoderWithConfig
       (reflect.SliceOf
          (reflect.PtrTo (reflect.SliceOf tInt reflect.noMethods))
          reflect.noMethods) DefaultConfig
     = Panic "reflect: call of reflect.Value.Interface on zero Value".
Proof.
  split.
  - apply (proj1 (@slice_constructor_never_reports_unsupported_elements
                    (reflect.SliceOf (reflect.ChanOf tInt) reflect.noMethods)
                    DefaultConfig (reflect.ChanOf tInt) eq_refl)).
    reflexivity.
  - apply (proj2 (proj2 (@slice_constructor_never_reports_unsupported_elements
                    (reflect.SliceOf
                       (reflect.PtrTo (reflect.SliceOf tInt reflect.noMethods))
                       reflect.noMethods)
                    DefaultConfig
                    (reflect.PtrTo (reflect.SliceOf tInt reflect.noMethods))
                    eq_refl)
                  (reflect.SliceOf tInt reflect.noMethods) eq_refl eq_refl)).
    reflexivity.
Defined.

(* ------------------------------------------------------------------------- *)
(** * The map constructor *)



(** X16.  For a map whose keys and elements are both of string kind the
    constructor always returns an encoder, and the instruction written
    for this case alone gives, on every value and buffer, what the
    instruction of the other maps gives with the conversions of strings:
    the key as it is, the element between quotes. *)
Theorem string_map_fast_path_is_the_generic_path :
  forall key elem ms cfg,
    isString key = true ->
    isString elem = true ->
    exists enc,
      NewMapEncoderWithConfig (reflect.MapOf key elem ms) cfg = Done enc
      /\ forall v w,
           MapEncoder_Marshal enc v w
           = (if SortMapKeys cfg then sortInstr else instr)
               ptrStringToBuf (quoted ptrStringToBuf) v w.
Proof.
  intros key elem ms cfg Hk He.
  assert (U : NewMapEncoderWithConfig (reflect.MapOf key elem ms) cfg
              = (if SortMapKeys cfg then Done (mkMapEncoder sortStrStrInstr)
                 else Done (mkMapEncoder strStrInstr))).
  { change (NewMapEncoderWithConfig (reflect.MapOf key elem ms) cfg)
      with (if isString key && isString elem then
              if SortMapKeys cfg then Done (mkMapEncoder sortStrStrInstr)
              else Done (mkMapEncoder strStrInstr)
            else
              econv <- elemInstr elem
                         (NewSliceEncoderWithConfig (pointee elem) cfg)
                         (NewStructEncoderWithConfig (pointee elem) cfg)
                         (NewMapEncoderWithConfig (pointee elem) cfg) ;;
              kconv <- keyInstr key ;;
              if SortMapKeys cfg
              then Done (mkMapEncoder (sortInstr kconv econv))
              else Done (mkMapEncoder (instr kconv econv))).
    now rewrite Hk, He. }
  rewrite U. destruct (SortMapKeys cfg); eexists; (split; [reflexivity|]);
    intros v w; unfold MapEncoder_Marshal; cbn [map_instruction].
  - apply sortStrStrInstr_generic.
  - apply strStrInstr_generic.
Qed.

Lemma string_map_fast_path_is_the_generic_path_witness :
  exists enc,
    NewMapEncoderWithConfig
      (reflect.MapOf tString tString reflect.noMethods) sortedConfig
    = Done enc
    /\ MapEncoder_Marshal enc (VMap (Some bbccaa)) (mkBuffer [])
       = sortInstr ptrStringToBuf (quoted ptrStringToBuf)
           (VMap (Some bbccaa)) (mkBuffer []).
Proof.
  destruct (@string_map_fast_path_is_the_generic_path
              tString tString reflect.noMethods sortedConfig
              eq_refl eq_refl) as [enc [E M]].
  exists enc. split; [exact E|]. apply (M (VMap (Some bbccaa)) (mkBuffer [])).
Defined.

(* ------------------------------------------------------------------------- *)
(** * Keys that are strings or integers *)

Lemma formatBase10_inj z1 z2 : formatBase10 z1 = formatBase10 z2 -> z1 = z2.
Proof.
  unfold formatBase10. intros H.
  apply (f_equal string_of_list_byte) in H.
  rewrite !string_of_list_byte_of_string in H.
  assert (N : forall z, Z.to_int z <> Decimal.Pos Decimal.Nil
                        /\ Z.to_int z <> Decimal.Neg Decimal.Nil).
  { intros [|p|p]; cbn; split; try discriminate; intros [= E];
      now apply DecimalPos.Unsigned.to_uint_nonnil in E. }
  apply (f_equal NilZero.int_of_string) in H.
  destruct (N z1) as [A1 B1]. destruct (N z2) as [A2 B2].
  rewrite !NilZero.isi in H by assumption.
  injection H as H. now apply DecimalZ.to_int_inj.
Qed.

Lemma wrapS_small w z :
  (0 < w)%Z -> (- 2 ^ (w - 1) <= z < 2 ^ (w - 1))%Z -> wrapS w z = z.
Proof.
  intros Hw Hz. unfold wrapS.
  assert (P : (2 ^ w = 2 * 2 ^ (w - 1))%Z).
  { replace w with (Z.succ (w - 1)) at 1 by lia. apply Z.pow_succ_r. lia. }
  assert (Q : (0 < 2 ^ (w - 1))%Z) by (apply Z.pow_pos_nonneg; lia).
  destruct (Z_lt_le_dec z 0) as [Hn|Hp].
  - assert (E : (z mod 2 ^ w = z + 2 ^ w)%Z).
    { symmetry. apply (Z.mod_unique z (2 ^ w) (-1)); lia. }
    rewrite E. destruct (Z.ltb_spec (z + 2 ^ w) (2 ^ (w - 1))); lia.
  - rewrite Z.mod_small by lia.
    destruct (Z.ltb_spec z (2 ^ (w - 1))); lia.
Qed.

Lemma wrapU_small w z : (0 <= z < 2 ^ w)%Z -> wrapU w z = z.
Proof. intros Hz. unfold wrapU. now apply Z.mod_small. Qed.

Lemma typeconv_key_text k v conv t :
  keyOfKind k v = true ->
  typeconv k = Some conv ->
  render conv v = Done t ->
  t = keyText v.
Proof.
  unfold keyOfKind. intros Hk Hc Hr. destruct v; try discriminate Hk.
  - destruct (intRange k) as [[lo hi]|] eqn:R; [|discriminate Hk].
    apply andb_prop in Hk as [H1 H2].
    apply Z.leb_le in H1. apply Z.ltb_lt in H2.
    destruct k; try discriminate R; injection R as <- <-;
      injection Hc as <-; unfold render in Hr; cbn in Hr;
      injection Hr as <-; cbn [keyText]; f_equal;
      first [apply wrapS_small; [reflexivity|cbn; lia]
            |apply wrapU_small; cbn; lia].
  - destruct k; try discriminate Hk. injection Hc as <-.
    unfold render in Hr. cbn in Hr. now injection Hr as <-.
Qed.

Lemma converters_key_text cfg key elem c v t :
  converters cfg key elem = Done c ->
  keyOfKind (reflect.KindOf key) v = true ->
  render (fst c) v = Done t ->
  t = keyText v.
Proof.
  unfold converters. intros Hc Hk Hr.
  assert (K : exists conv, typeconv (reflect.KindOf key) = Some conv).
  { unfold keyOfKind in Hk. destruct v; try discriminate Hk.
    - destruct (reflect.KindOf key); try discriminate Hk; cbn; eauto.
    - destruct (reflect.KindOf key); try discriminate Hk; cbn; eauto. }
  destruct K as [conv Ec].
  assert (P : isPrimitive (reflect.KindOf key)
              || reflect.Kind_eqb (reflect.KindOf key) reflect.String = true).
  { destruct (reflect.KindOf key); try discriminate Ec; reflexivity. }
  destruct (isString key && isString elem) eqn:F.
  - injection Hc as <-. cbn [fst] in Hr.
    apply andb_prop in F as [F _]. unfold isString in F.
    destruct (reflect.KindOf key); try discriminate F.
    exact (@typeconv_key_text _ v _ t Hk eq_refl Hr).
  - match type of Hc with bind ?m _ = _ =>
      destruct m as [econv| |]; try discriminate Hc end.
    cbn [bind] in Hc. unfold keyInstr in Hc. rewrite P in Hc.
    cbn [bind] in Hc. injection Hc as <-. cbn [fst] in Hr.
    unfold typeconvOrNil in Hr. rewrite Ec in Hr.
    exact (@typeconv_key_text _ v _ t Hk Ec Hr).
Qed.

Lemma keyText_inj k v1 v2 :
  keyOfKind k v1 = true -> keyOfKind k v2 = true ->
  keyText v1 = keyText v2 -> v1 = v2.
Proof.
  unfold keyOfKind. intros H1 H2 E.
  destruct v1; try discriminate H1; destruct v2; try discriminate H2;
    cbn [keyText] in E.
  - f_equal. now apply formatBase10_inj.
  - destruct k; try discriminate H2; discriminate H1.
  - destruct k; try discriminate H1; discriminate H2.
  - now subst.
Qed.

(** X17.  In sorted mode a map whose keys are strings or integers is
    written the same whatever order the iterator visits its entries in:
    distinct keys have distinct texts, so the sort leaves one order. *)
Theorem sorted_map_of_string_or_integer_keys_is_deterministic :
  forall key elem ms cfg enc entries1 entries2 texts w,
    SortMapKeys cfg = true ->
    NewMapEncoderWithConfig (reflect.MapOf key elem ms) cfg = Done enc ->
    Forall (fun en => keyOfKind (reflect.KindOf key) (fst en) = true)
      entries1 ->
    NoDup (map fst entries1) ->
    Permutation entries1 entries2 ->
    mapM (entryText cfg key elem) entries1 = Done texts ->
    MapEncoder_Marshal enc (VMap (Some entries1)) w
    = Done (Write w (objectText (sortByKey texts)))
    /\ MapEncoder_Marshal enc (VMap (Some entries2)) w
       = MapEncoder_Marshal enc (VMap (Some entries1)) w.
Proof.
  intros key elem ms cfg enc entries1 entries2 texts w Hs Henc Hk Hn P Ht.
  destruct (NewMapEncoder_converters _ _ _ _ Henc) as [c [Ec _]].
  pose proof (entryText_Forall2 _ _ _ _ Ec Ht) as F.
  assert (M : map fst texts = map keyText (map fst entries1)).
  { clear Hn P Ht. induction F as [|en m l l' [R _] _ IH];
      [reflexivity|].
    inversion Hk as [|? ? K Hk']; subst. cbn [map].
    rewrite (IH Hk'). f_equal.
    exact (@converters_key_text cfg key elem c _ _ Ec K R). }
  assert (N : NoDup (map fst texts)).
  { rewrite M. apply NoDup_map_NoDup_ForallPairs; [|exact Hn].
    intros v1 v2 I1 I2 E.
    apply in_map_iff in I1 as [e1 [<- I1]].
    apply in_map_iff in I2 as [e2 [<- I2]].
    rewrite Forall_forall in Hk.
    exact (@keyText_inj _ _ _ (Hk _ I1) (Hk _ I2) E). }
  rewrite (@sorted_Marshal_permutation key elem ms cfg enc entries1 entries1
             texts w Hs Henc (Permutation_refl _) Ht N).
  split; [reflexivity|].
  exact (@sorted_Marshal_permutation key elem ms cfg enc entries1 entries2
           texts w Hs Henc P Ht N).
Qed.

Lemma sorted_map_of_string_or_integer_keys_is_deterministic_witness :
  exists enc,
    NewMapEncoderWithConfig (reflect.MapOf tInt tInt reflect.noMethods)
      sortedConfig = Done enc
    /\ MapEncoder_Marshal enc
         (VMap (Some [(VInt 3, VInt 1); (VInt 1, VInt 2)])) (mkBuffer [])
       = Done (mkBuffer (bs "{" ++ quote :: bs "1" ++ quote :: bs ":2,"
                         ++ quote :: bs "3" ++ quote :: bs ":1}"))
    /\ MapEncoder_Marshal enc
         (VMap (Some [(VInt 1, VInt 2); (VInt 3, VInt 1)])) (mkBuffer [])
       = MapEncoder_Marshal enc
           (VMap (Some [(VInt 3, VInt 1); (VInt 1, VInt 2)])) (mkBuffer []).
Proof.
  eexists. split; [reflexivity|].
  assert (F : Forall (fun en : Value * Value =>
                        keyOfKind (reflect.KindOf tInt) (fst en) = true)
                [(VInt 3, VInt 1); (VInt 1, VInt 2)])
    by (repeat constructor).
  assert (N : NoDup (map fst [(VInt 3, VInt 1); (VInt 1, VInt 2)])).
  { constructor; [intros [E|[]]; discriminate E|].
    constructor; [intros []|constructor]. }
  destruct (@sorted_map_of_string_or_integer_keys_is_deterministic
              tInt tInt reflect.noMethods sortedConfig _
              [(VInt 3, VInt 1); (VInt 1, VInt 2)]
              [(VInt 1, VInt 2); (VInt 3, VInt 1)]
              [(bs "3", bs "1"); (bs "1", bs "2")] (mkBuffer [])
              eq_refl eq_refl F N (perm_swap _ _ _) eq_refl) as [A B].
  split; [exact A|exact B].
Defined.

(** X18.  [Less] of [mapSlice] is the strict order [sort.Sort] asks for:
    no entry is less than itself, the order is transitive and never holds
    both ways, and two entries of which neither is less than the other
    have the same key text. *)
Theorem mapSlice_Less_is_a_strict_order :
  (forall x, Less x x = false)
  /\ (forall x y z, Less x y = true -> Less y z = true -> Less x z = true)
  /\ (forall x y, Less x y = true -> Less y x = false)
  /\ (forall x y, Less x y = false -> Less y x = false -> k x = k y).
Proof.
  unfold Less. repeat split.
  - intros x. rewrite bytes_Compare_refl. reflexivity.
  - intros x y z H1 H2. apply Z.ltb_lt in H1, H2. apply Z.ltb_lt.
    assert (L : (bytes_Compare (k x) (k z) <= 0)%Z)
      by (apply (@bytes_Compare_trans (k x) (k y) (k z)); lia).
    destruct (Z.eq_dec (bytes_Compare (k x) (k z)) 0) as [E|E]; [|lia].
    apply bytes_Compare_eq in E. rewrite E in H1.
    rewrite (bytes_Compare_antisym (k y) (k z)) in H1. lia.
  - intros x y H. apply Z.ltb_lt in H. apply Z.ltb_ge.
    rewrite (bytes_Compare_antisym (k x) (k y)). lia.
  - intros x y H1 H2. apply Z.ltb_ge in H1, H2. apply bytes_Compare_eq.
    rewrite (bytes_Compare_antisym (k x) (k y)) in H2. lia.
Qed.

Lemma mapSlice_Less_is_a_strict_order_witness :
  Less (mkUnsafeke (bs "aa") (VInt 1)) (mkUnsafeke (bs "cc") (VInt 3)) = true.
Proof.
  apply (proj1 (proj2 mapSlice_Less_is_a_strict_order)
           (mkUnsafeke (bs "aa") (VInt 1)) (mkUnsafeke (bs "bb") (VInt 2))
           (mkUnsafeke (bs "cc") (VInt 3))); reflexivity.
Defined.

(* ------------------------------------------------------------------------- *)
(** * Integers as JSON numbers *)

Lemma to_uint_no_leading_zero p d :
  Pos.to_uint p <> Decimal.D0 d.
Proof.
  intros E.
  pose proof (DecimalPos.Unsigned.of_to p) as H. rewrite E in H.
  cbn [Pos.of_uint] in H.
  pose proof (DecimalPos.Unsigned.to_of d) as T. rewrite H in T.
  cbn [N.to_uint] in T. rewrite E in T.
  destruct d as [|d|d|d|d|d|d|d|d|d|d];
    [now apply (DecimalPos.Unsigned.to_uint_nonzero p)|..];
    match type of T with _ = Decimal.unorm ?u =>
      assert (L : (Decimal.nb_digits (Decimal.unorm u)
                   <= Decimal.nb_digits u)%nat)
        by (apply DecimalFacts.nb_digits_unorm; discriminate);
      rewrite <- T in L; cbn in L; lia
    end.
Qed.

Lemma digits_are_digits d :
  Forall (fun b => isDigit b = true) (bs (NilEmpty.string_of_uint d)).
Proof.
  induction d; cbn; constructor; try reflexivity; exact IHd.
Qed.

Lemma skipDigits_all l :
  Forall (fun b => isDigit b = true) l -> skipDigits l = [].
Proof.
  induction 1 as [|b l Hb _ IH]; [reflexivity|].
  cbn [skipDigits]. now rewrite Hb.
Qed.

Lemma formatBase10_valid z : validJSON (formatBase10 z) = true.
Proof.
  assert (U : forall d,
            d <> Decimal.Nil ->
            (forall d', d = Decimal.D0 d' -> d' = Decimal.Nil) ->
            forall n,
              scanValue (S n) (bs (NilEmpty.string_of_uint d)) = Some []
              /\ scanValue (S n) (bs (String "-" (NilEmpty.string_of_uint d)))
                 = Some []
              /\ skipSpace (bs (NilEmpty.string_of_uint d))
                 = bs (NilEmpty.string_of_uint d)).
  { intros d Hn Hz n.
    pose proof (digits_are_digits d) as D.
    destruct d as [|d|d|d|d|d|d|d|d|d|d];
      [now destruct Hn
      |rewrite (Hz d eq_refl); repeat split; reflexivity
      |..];
      cbn [NilEmpty.string_of_uint] in D |- *;
      change (bs (String ?c ?s)) with (byte_of_ascii c :: bs s) in D |- *;
      inversion D as [|? ? _ D']; subst;
      repeat split; cbn;
      unfold bs, list_byte_of_string in D' |- *;
      rewrite (skipDigits_all D'); reflexivity. }
  unfold validJSON, formatBase10.
  change (list_byte_of_string ?s) with (bs s).
  destruct z as [|p|p]; [reflexivity| |].
  - cbn [Z.to_int NilZero.string_of_int]. unfold NilZero.string_of_uint.
    pose proof (@DecimalPos.Unsigned.to_uint_nonnil p) as Hn.
    assert (Hz : forall d', Pos.to_uint p = Decimal.D0 d' -> d' = Decimal.Nil)
      by (intros d' E; now apply to_uint_no_leading_zero in E).
    destruct (U _ Hn Hz (List.length (bs (NilEmpty.string_of_uint
                                            (Pos.to_uint p)))))
      as [A [_ C]].
    destruct (Pos.to_uint p) eqn:E; [now destruct Hn|..];
      rewrite C, A; reflexivity.
  - cbn [Z.to_int NilZero.string_of_int]. unfold NilZero.string_of_uint.
    pose proof (@DecimalPos.Unsigned.to_uint_nonnil p) as Hn.
    assert (Hz : forall d', Pos.to_uint p = Decimal.D0 d' -> d' = Decimal.Nil)
      by (intros d' E; now apply to_uint_no_leading_zero in E).
    destruct (U _ Hn Hz (List.length (bs (String "-"
                                            (NilEmpty.string_of_uint
                                               (Pos.to_uint p))))))
      as [_ [B _]].
    destruct (Pos.to_uint p) eqn:E; [now destruct Hn|..];
      change (skipSpace (bs (String "-" ?s))) with (bs (String "-" s));
      rewrite B; reflexivity.
Qed.

(** X19.  Each of the ten integer conversions appends, for whatever the
    integer read, a text that is a valid JSON number: decimal digits with
    no leading zero, after a minus sign when negative. *)
Theorem integer_conversions_write_JSON_numbers :
  forall k conv z w,
    intRange k <> None ->
    typeconv k = Some conv ->
    exists t,
      conv (VInt z) w = Done (Write w t) /\ validJSON t = true.
Proof.
  intros k conv z w Hr Hc.
  destruct k; try (now destruct Hr); injection Hc as <-;
    (eexists; split; [reflexivity|apply formatBase10_valid]).
Qed.

Lemma integer_conversions_write_JSON_numbers_witness :
  exists t,
    ptrInt8ToBuf (VInt 200) (mkBuffer []) = Done (Write (mkBuffer []) t)
    /\ validJSON t = true.
Proof.
  apply (@integer_conversions_write_JSON_numbers reflect.Int8 ptrInt8ToBuf
           200 (mkBuffer [])); [discriminate|reflexivity].
Defined.

(* ------------------------------------------------------------------------- *)
(** * Texts that are JSON values *)

Lemma delimiter_cases b :
  isDelimiter b = true -> b = x2c \/ b = x5d \/ b = x7d.
Proof. destruct b; try discriminate; auto. Qed.

Lemma skipSpace_delimited tail : delimited tail -> skipSpace tail = tail.
Proof.
  destruct tail as [|b tail]; [reflexivity|]. intros H.
  destruct (delimiter_cases _ H) as [->|[->| ->]]; reflexivity.
Qed.

Lemma skipDigits_app ds tail :
  Forall (fun b => isDigit b = true) ds -> delimited tail ->
  skipDigits (ds ++ tail) = tail.
Proof.
  intros D T. induction D as [|b ds Hb _ IH]; cbn [app skipDigits].
  - destruct tail as [|b tail]; [reflexivity|].
    destruct (delimiter_cases _ T) as [->|[->| ->]]; reflexivity.
  - now rewrite Hb.
Qed.

Lemma scanFraction_delimited tail :
  delimited tail -> scanFraction tail = Some tail.
Proof.
  destruct tail as [|b tail]; [reflexivity|]. intros H.
  destruct (delimiter_cases _ H) as [->|[->| ->]]; reflexivity.
Qed.

Lemma uint_reads d :
  d <> Decimal.Nil ->
  (forall d', d = Decimal.D0 d' -> d' = Decimal.Nil) ->
  jsonValue (bs (NilEmpty.string_of_uint d))
  /\ jsonValue (bs (String "-" (NilEmpty.string_of_uint d))).
Proof.
  intros Hn Hz. pose proof (digits_are_digits d) as D.
  destruct d as [|d|d|d|d|d|d|d|d|d|d];
    [now destruct Hn
    |rewrite (Hz d eq_refl); split; (split; [now split|]);
     intros n tail T _; cbn; now apply scanFraction_delimited
    |..];
    cbn [NilEmpty.string_of_uint] in D |- *;
    change (bs (String ?c ?s)) with (byte_of_ascii c :: bs s) in D |- *;
    inversion D as [|? ? _ D']; subst;
    (split; (split; [now split|]); intros n tail T _; cbn;
     change (map byte_of_ascii (list_ascii_of_string ?s)) with (bs s);
     rewrite (@skipDigits_app _ _ D' T); now apply scanFraction_delimited).
Qed.

Lemma jsonValue_formatBase10 z : jsonValue (formatBase10 z).
Proof.
  unfold formatBase10. change (list_byte_of_string ?s) with (bs s).
  destruct z as [|p|p].
  - split; [now split|]. intros n tail T _. cbn.
    now apply scanFraction_delimited.
  - cbn [Z.to_int NilZero.string_of_int]. unfold NilZero.string_of_uint.
    pose proof (@DecimalPos.Unsigned.to_uint_nonnil p) as Hn.
    assert (Hz : forall d', Pos.to_uint p = Decimal.D0 d' -> d' = Decimal.Nil)
      by (intros d' E; now apply to_uint_no_leading_zero in E).
    destruct (uint_reads Hn Hz) as [A _].
    destruct (Pos.to_uint p); [now destruct Hn|..]; exact A.
  - cbn [Z.to_int NilZero.string_of_int]. unfold NilZero.string_of_uint.
    pose proof (@DecimalPos.Unsigned.to_uint_nonnil p) as Hn.
    assert (Hz : forall d', Pos.to_uint p = Decimal.D0 d' -> d' = Decimal.Nil)
      by (intros d' E; now apply to_uint_no_leading_zero in E).
    destruct (uint_reads Hn Hz) as [_ B].
    destruct (Pos.to_uint p); [now destruct Hn|..]; exact B.
Qed.

Lemma jsonValue_null : jsonValue null.
Proof.
  split; [now split|]. intros n tail T _. reflexivity.
Qed.

Lemma jsonValue_valid t : jsonValue t -> validJSON t = true.
Proof.
  intros [S R]. unfold validJSON.
  assert (E : skipSpace t = t).
  { destruct t as [|b t]; [destruct S|]. destruct S as [S _].
    cbn [skipSpace]. now rewrite S. }
  rewrite E. rewrite <- (app_nil_r t) at 2.
  rewrite (R (List.length t) [] I (le_n _)). reflexivity.
Qed.

Lemma jsonValue_nonempty t : jsonValue t -> (1 <= List.length t)%nat.
Proof. intros [S _]. destruct t; [destruct S|cbn; lia]. Qed.

Lemma skipSpace_value t rest : startsValue t -> skipSpace (t ++ rest) = t ++ rest.
Proof.
  destruct t as [|b t]; [intros []|]. intros [S _]. cbn [app skipSpace].
  now rewrite S.
Qed.

Lemma length_joinComma_cons t ts :
  ts <> [] ->
  List.length (joinComma (t :: ts))
  = (List.length t + 1 + List.length (joinComma ts))%nat.
Proof.
  destruct ts as [|t' ts]; [now intros []|]. intros _.
  change (joinComma (t :: t' :: ts))
    with (t ++ bs "," ++ joinComma (t' :: ts)).
  rewrite !length_app. cbn. lia.
Qed.

Lemma scanElements_joinComma : forall ts m tail,
  ts <> [] ->
  Forall jsonValue ts ->
  (List.length (joinComma ts) + 1 <= m)%nat ->
  scanElements (S m) (joinComma ts ++ bs "]" ++ tail) = Some tail.
Proof.
  induction ts as [|t ts IH]; intros m tail Hne F Hm; [now destruct Hne|].
  inversion F as [|? ? [St Rt] F']; subst.
  destruct ts as [|t' ts].
  - cbn [joinComma] in *. destruct m as [|m]; [lia|].
    cbn [scanElements].
    change (scanValue (S m) (t ++ bs "]" ++ tail))
      with (scanValue (S m) (t ++ (x5d :: tail))).
    rewrite (Rt m (x5d :: tail)) by (try reflexivity; lia).
    reflexivity.
  - assert (L := @length_joinComma_cons t (t' :: ts)).
    rewrite L in Hm by discriminate.
    change (joinComma (t :: t' :: ts))
      with (t ++ bs "," ++ joinComma (t' :: ts)).
    rewrite <- !app_assoc.
    destruct m as [|m]; [lia|].
    change (bs "," ++ joinComma (t' :: ts) ++ bs "]" ++ tail)
      with (x2c :: (joinComma (t' :: ts) ++ bs "]" ++ tail)).
    assert (E : scanElements (S (S m))
                  (t ++ x2c :: joinComma (t' :: ts) ++ bs "]" ++ tail)
                = scanElements (S m)
                    (joinComma (t' :: ts) ++ bs "]" ++ tail)).
    { change (scanElements (S (S m)) ?s)
        with (match scanValue (S m) s with
              | Some rest =>
                  match skipSpace rest with
                  | d :: rest =>
                      if byteIs "," d then scanElements (S m) (skipSpace rest)
                      else if byteIs "]" d then Some rest
                      else None
                  | [] => None
                  end
              | None => None
              end).
      rewrite (Rt m (x2c :: _)) by (try reflexivity; lia).
      change (skipSpace (x2c :: ?r)) with (x2c :: r). cbv iota.
      change (byteIs "," x2c) with true. cbv iota.
      inversion F' as [|? ? [St' _] _]; subst.
      change (joinComma (t' :: ts) ++ bs "]" ++ tail)
        with (joinComma (t' :: ts) ++ (bs "]" ++ tail)).
      assert (S' : startsValue (joinComma (t' :: ts))).
      { destruct ts; [exact St'|].
        change (joinComma (t' :: ?x :: ?y))
          with (t' ++ bs "," ++ joinComma (x :: y)).
        destruct t'; [destruct St'|exact St']. }
      rewrite (@skipSpace_value _ _ S').
      reflexivity. }
    rewrite E. apply IH; [discriminate|exact F'|].
    pose proof (jsonValue_nonempty (conj St Rt)). lia.
Qed.

Lemma jsonValue_sliceText ts : Forall jsonValue ts -> jsonValue (sliceText ts).
Proof.
  intros F. split; [now split|]. intros n tail T Hn.
  unfold sliceText in *.
  destruct ts as [|t ts].
  - cbn. reflexivity.
  - rewrite <- !app_assoc.
    change (bs "[" ++ ?r) with (x5b :: r).
    rewrite !length_app in Hn.
    change (List.length (bs "[")) with 1%nat in Hn.
    change (List.length (bs "]")) with 1%nat in Hn.
    destruct n as [|n]; [lia|].
    inversion F as [|? ? [St _] _]; subst.
    assert (S' : startsValue (joinComma (t :: ts))).
    { destruct ts; [exact St|].
      change (joinComma (t :: ?x :: ?y))
        with (t ++ bs "," ++ joinComma (x :: y)).
      destruct t; [destruct St|exact St]. }
    change (scanValue (S (S n)) (x5b :: ?r))
      with (match skipSpace r with
            | c :: rest' =>
                if byteIs "]" c then Some rest'
                else scanElements (S n) (c :: rest')
            | [] => None
            end).
    rewrite (@skipSpace_value _ _ S').
    destruct (joinComma (t :: ts)) as [|c r] eqn:J; [destruct S'|].
    destruct S' as [_ Sb]. cbn [app]. rewrite Sb.
    change (c :: r ++ bs "]" ++ tail) with ((c :: r) ++ bs "]" ++ tail).
    rewrite <- J. apply scanElements_joinComma; [discriminate|exact F|].
    rewrite J. cbn [List.length] in *. lia.
Qed.

Lemma integer_text k conv z :
  intRange k <> None ->
  typeconv k = Some conv ->
  exists t, render conv (VInt z) = Done t /\ jsonValue t.
Proof.
  intros Hr Hc.
  destruct k; try (now destruct Hr); injection Hc as <-;
    (eexists; split; [reflexivity|apply jsonValue_formatBase10]).
Qed.

(* ------------------------------------------------------------------------- *)
(** * Fields of primitive and string kinds *)

Lemma field_primitive_text cfg pre f post ms enc vs x conv text w :
  NewStructEncoderWithConfig (reflect.StructOf (pre ++ f :: post) ms) cfg
  = Done enc ->
  included f = true ->
  plainField f = true ->
  isPrimitive (reflect.KindOf (pointee (reflect.Typ f))) = true ->
  typeconv (reflect.KindOf (pointee (reflect.Typ f))) = Some conv ->
  nth_error vs (List.length pre) = Some x ->
  derefText (reflect.Typ f) conv x = Done text ->
  StructEncoder_Marshal enc (VStruct vs) w
  = objectAround cfg pre f post text (VStruct vs) w.
Proof.
  intros H Hin Hp Hk Hc Hx Ht.
  apply (@Marshal_objectAround cfg pre f post ms enc (VStruct vs) text H Hin).
  intros w'. unfold writeValue. rewrite plainField_fieldValue by exact Hp.
  pose proof (@derefText_Done _ _ _ _ w' (appends_typeconv _ Hc) Ht) as D.
  assert (V : forall e,
            valueInst f (List.length pre)
              (reflect.KindOf (pointee (reflect.Typ f)))
              (if isPtr (reflect.Typ f) then ptrval (List.length pre)
               else val (List.length pre))
              (NewSliceEncoderWithConfig (reflect.Typ f) cfg)
              (NewStructEncoderWithConfig (pointee (reflect.Typ f)) cfg)
              (NewMapEncoderWithConfig (pointee (reflect.Typ f)) cfg) e
            = Done ((if isPtr (reflect.Typ f) then ptrval (List.length pre)
                     else val (List.length pre)) conv e)).
  { intros e. unfold valueInst.
    destruct (reflect.KindOf (pointee (reflect.Typ f)));
      try discriminate Hk; rewrite Hc; reflexivity. }
  rewrite V. cbn [bind].
  destruct (isPtr (reflect.Typ f)); unfold ptrval, val;
    rewrite emitted_add_flunk, emitted_empty; cbn [bind fieldAt];
    rewrite Hx; cbn [bind]; exact D.
Qed.

Lemma field_string_text cfg pre f post ms enc vs x text w :
  NewStructEncoderWithConfig (reflect.StructOf (pre ++ f :: post) ms) cfg
  = Done enc ->
  included f = true ->
  plainField f = true ->
  reflect.KindOf (pointee (reflect.Typ f)) = reflect.String ->
  nth_error vs (List.length pre) = Some x ->
  derefText (reflect.Typ f) (quoted ptrStringToBuf) x = Done text ->
  StructEncoder_Marshal enc (VStruct vs) w
  = objectAround cfg pre f post text (VStruct vs) w.
Proof.
  intros H Hin Hp Hk Hx Ht.
  apply (@Marshal_objectAround cfg pre f post ms enc (VStruct vs) text H Hin).
  intros w'. unfold writeValue. rewrite plainField_fieldValue by exact Hp.
  pose proof (@derefText_Done _ _ _ _ w'
                (appends_quoted appends_ptrStringToBuf) Ht) as D.
  rewrite Hk. unfold valueInst.
  destruct (isPtr (reflect.Typ f)); cbn [bind].
  - unfold ptrstringval. rewrite emitted_add_flunk, emitted_empty.
    cbn [bind fieldAt]. rewrite Hx. cbn [bind]. exact D.
  - assert (W1 : wf (chunk [quote] emptyStructEncoder))
      by (apply wf_chunk, wf_empty).
    rewrite emitted_chunk by (apply (@hom_val _ _ _ W1)).
    unfold val. rewrite emitted_add_flunk, emitted_chunk, emitted_empty
      by apply wf_empty.
    cbn [bind fieldAt]. rewrite Hx. cbn [bind].
    unfold quoted in D. rewrite WriteByte_Write in D.
    destruct (ptrStringToBuf x (Write w' [quote])) as [b| |];
      cbn [bind] in *; try discriminate D.
    now rewrite <- WriteByte_Write.
Qed.

(** X20.  A field of a boolean or number kind, or a pointer to one, that
    no option takes is written by the conversion [typeconv] has for the
    kind, after its key and between the other members; a nil pointer is
    written as [null]. *)
Theorem primitive_field_written_by_typeconv :
  forall cfg pre f post ms enc vs x conv text w,
    NewStructEncoderWithConfig (reflect.StructOf (pre ++ f :: post) ms) cfg
    = Done enc ->
    included f = true ->
    plainField f = true ->
    isPrimitive (reflect.KindOf (pointee (reflect.Typ f))) = true ->
    typeconv (reflect.KindOf (pointee (reflect.Typ f))) = Some conv ->
    nth_error vs (List.length pre) = Some x ->
    derefText (reflect.Typ f) conv x = Done text ->
    StructEncoder_Marshal enc (VStruct vs) w
    = objectAround cfg pre f post text (VStruct vs) w.
Proof. exact field_primitive_text. Qed.

Lemma primitive_field_written_by_typeconv_witness :
  exists enc,
    NewStructEncoderWithConfig
      (reflect.StructOf
         ([reflect.mkStructField "Name" "name" tString]
          ++ reflect.mkStructField "Age" "age" (reflect.PtrTo tInt) :: [])
         reflect.noMethods) DefaultConfig = Done enc
    /\ StructEncoder_Marshal enc
         (VStruct [VString (bs "Mr Payload"); VPtr None]) (mkBuffer [])
       = Done (mkBuffer (bs "{" ++ quote :: bs "name" ++ quote :: bs ":"
                         ++ quote :: bs "Mr Payload" ++ quote :: bs ","
                         ++ quote :: bs "age" ++ quote :: bs ":null}")).
Proof.
  eexists. split; [reflexivity|].
  rewrite (@primitive_field_written_by_typeconv DefaultConfig
             [reflect.mkStructField "Name" "name" tString]
             (reflect.mkStructField "Age" "age" (reflect.PtrTo tInt))
             [] reflect.noMethods _
             [VString (bs "Mr Payload"); VPtr None] (VPtr None)
             ptrIntToBuf null (mkBuffer [])
             eq_refl eq_refl eq_refl eq_refl eq_refl eq_refl eq_refl).
  reflexivity.
Defined.

(** X21.  A field of string kind that no option takes is written as the
    string between quotes, as it is, after its key and between the other
    members; a pointer to a string is written the same when it is not nil
    and as [null], without quotes, when it is. *)
Theorem string_field_written_in_quotes :
  forall cfg pre f post ms enc vs x text w,
    NewStructEncoderWithConfig (reflect.StructOf (pre ++ f :: post) ms) cfg
    = Done enc ->
    included f = true ->
    plainField f = true ->
    reflect.KindOf (pointee (reflect.Typ f)) = reflect.String ->
    nth_error vs (List.length pre) = Some x ->
    derefText (reflect.Typ f) (quoted ptrStringToBuf) x = Done text ->
    StructEncoder_Marshal enc (VStruct vs) w
    = objectAround cfg pre f post text (VStruct vs) w.
Proof. exact field_string_text. Qed.

Lemma string_field_written_in_quotes_witness :
  exists enc,
    NewStructEncoderWithConfig
      (reflect.StructOf
         ([] ++ reflect.mkStructField "S" "s" (reflect.PtrTo tString)
          :: [reflect.mkStructField "T" "t" (reflect.PtrTo tString)])
         reflect.noMethods) DefaultConfig = Done enc
    /\ StructEncoder_Marshal enc
         (VStruct [VPtr (Some (VString (bs "a b"))); VPtr None])
         (mkBuffer [])
       = Done (mkBuffer (bs "{" ++ quote :: bs "s" ++ quote :: bs ":"
                         ++ quote :: bs "a b" ++ quote :: bs ","
                         ++ quote :: bs "t" ++ quote :: bs ":null}")).
Proof.
  eexists. split; [reflexivity|].
  rewrite (@string_field_written_in_quotes DefaultConfig
             [] (reflect.mkStructField "S" "s" (reflect.PtrTo tString))
             [reflect.mkStructField "T" "t" (reflect.PtrTo tString)]
             reflect.noMethods _
             [VPtr (Some (VString (bs "a b"))); VPtr None]
             (VPtr (Some (VString (bs "a b"))))
             (quotedText (bs "a b")) (mkBuffer [])
             eq_refl eq_refl eq_refl eq_refl eq_refl eq_refl).
  reflexivity.
Defined.

(* ------------------------------------------------------------------------- *)
(** * Strings and objects as JSON values *)

Lemma scanString_plain s tail :
  plainText s = true -> scanString (s ++ quote :: tail) = Some tail.
Proof.
  induction s as [|b s IH]; intros H.
  - reflexivity.
  - cbn [plainText forallb] in H. apply andb_prop in H as [Hb Hs].
    unfold plainByte in Hb. apply andb_prop in Hb as [Hb H3].
    apply andb_prop in Hb as [H1 H2].
    apply negb_true_iff in H1, H2. apply N.leb_le in H3.
    cbn [app scanString]. rewrite H1, H2.
    destruct (N.ltb_spec (Byte.to_N b) 32) as [L|_]; [lia|].
    now apply IH.
Qed.

Lemma jsonValue_quotedText s : plainText s = true -> jsonValue (quotedText s).
Proof.
  intros H. split; [now split|]. intros n tail _ _. unfold quotedText.
  cbn [app]. rewrite <- app_assoc. cbn [app].
  change (scanValue (S n) (quote :: ?r)) with (scanString r).
  now apply scanString_plain.
Qed.

Lemma length_memberText m :
  List.length (memberText m)
  = (List.length (fst m) + List.length (snd m) + 3)%nat.
Proof.
  unfold memberText. cbn [List.length]. rewrite length_app.
  cbn [List.length]. rewrite length_app. cbn. lia.
Qed.

Lemma scanMembers_joinComma : forall ms m tail,
  ms <> [] ->
  Forall (fun e => plainText (fst e) = true /\ jsonValue (snd e)) ms ->
  (List.length (joinComma (map memberText ms)) + 1 <= m)%nat ->
  scanMembers (S m) (joinComma (map memberText ms) ++ bs "}" ++ tail)
  = Some tail.
Proof.
  induction ms as [|e ms IH]; intros m tail Hne F Hm; [now destruct Hne|].
  inversion F as [|? ? [Pk [Sv Rv]] F']; subst.
  assert (Step : forall rest,
            delimited rest ->
            (List.length (snd e) + 1 <= m)%nat ->
            scanMembers (S m) (memberText e ++ rest)
            = match rest with
              | d :: rest' =>
                  if byteIs "," d then scanMembers m (skipSpace rest')
                  else if byteIs "}" d then Some rest'
                  else None
              | [] => None
              end).
  { intros rest D Hl. unfold memberText. cbn [app]. rewrite <- !app_assoc.
    cbn [app].
    change (scanMembers (S m) (quote :: ?r))
      with (match scanString r with
            | Some rest =>
                match skipSpace rest with
                | c :: rest =>
                    if byteIs ":" c then
                      match scanValue m (skipSpace rest) with
                      | Some rest =>
                          match skipSpace rest with
                          | d :: rest =>
                              if byteIs "," d
                              then scanMembers m (skipSpace rest)
                              else if byteIs "}" d then Some rest
                              else None
                          | [] => None
                          end
                      | None => None
                      end
                    else None
                | [] => None
                end
            | None => None
            end).
    rewrite (scanString_plain _ _ Pk), <- app_assoc.
    change (skipSpace (bs ":" ++ ?r)) with (x3a :: r). cbv iota.
    change (byteIs ":" x3a) with true. cbv iota.
    rewrite (@skipSpace_value _ _ Sv).
    destruct m as [|m']; [lia|].
    rewrite (Rv m' rest D) by lia.
    now rewrite (skipSpace_delimited _ D). }
  destruct ms as [|e' ms].
  - cbn [map joinComma] in *. rewrite length_memberText in Hm.
    rewrite (Step (bs "}" ++ tail)) by (try reflexivity; lia).
    reflexivity.
  - change (joinComma (map memberText (e :: e' :: ms)))
      with (memberText e ++ bs "," ++ joinComma (map memberText (e' :: ms)))
      in *.
    rewrite !length_app, length_memberText in Hm. cbn [List.length bs] in Hm.
    change (List.length (bs ",")) with 1%nat in Hm.
    rewrite <- !app_assoc.
    rewrite (Step (bs "," ++ _)) by (try reflexivity; lia).
    change (bs "," ++ ?r) with (x2c :: r). cbv iota.
    change (byteIs "," x2c) with true. cbv iota.
    assert (Sk : forall r, skipSpace (joinComma (map memberText (e' :: ms))
                                        ++ r)
                           = joinComma (map memberText (e' :: ms)) ++ r).
    { intros r. destruct ms; reflexivity. }
    rewrite Sk. destruct m as [|m']; [lia|].
    apply IH; [discriminate|exact F'|lia].
Qed.

Lemma jsonValue_objectText ms :
  Forall (fun e => plainText (fst e) = true /\ jsonValue (snd e)) ms ->
  jsonValue (objectText ms).
Proof.
  intros F. split; [now split|]. intros n tail T Hn. unfold objectText in *.
  destruct ms as [|e ms].
  - reflexivity.
  - rewrite <- !app_assoc. change (bs "{" ++ ?r) with (x7b :: r).
    rewrite !length_app in Hn.
    change (List.length (bs "{")) with 1%nat in Hn.
    change (List.length (bs "}")) with 1%nat in Hn.
    destruct n as [|n]; [lia|].
    assert (Q : exists r, joinComma (map memberText (e :: ms)) = quote :: r).
    { destruct ms; cbn [map joinComma]; unfold memberText at 1;
        cbn [app]; eauto. }
    destruct Q as [r Q].
    change (scanValue (S (S n)) (x7b :: ?s))
      with (match skipSpace s with
            | c :: rest' =>
                if byteIs "}" c then Some rest'
                else scanMembers (S n) (c :: rest')
            | [] => None
            end).
    rewrite Q. cbn [app]. change (skipSpace (quote :: ?s)) with (quote :: s).
    cbv iota. change (byteIs "}" quote) with false. cbv iota.
    change (quote :: r ++ bs "}" ++ tail)
      with ((quote :: r) ++ bs "}" ++ tail).
    rewrite <- Q. apply scanMembers_joinComma; [discriminate|exact F|lia].
Qed.

Lemma plainByte_digit b : isDigit b = true -> plainByte b = true.
Proof. destruct b; try discriminate; reflexivity. Qed.

Lemma plainText_formatBase10 z : plainText (formatBase10 z) = true.
Proof.
  assert (D : forall d, plainText (bs (NilEmpty.string_of_uint d)) = true).
  { intros d. unfold plainText. apply forallb_forall. intros b Hb.
    pose proof (digits_are_digits d) as F. rewrite Forall_forall in F.
    apply plainByte_digit, F, Hb. }
  unfold formatBase10. change (list_byte_of_string ?s) with (bs s).
  destruct z as [|p|p]; [reflexivity| |];
    cbn [Z.to_int NilZero.string_of_int]; unfold NilZero.string_of_uint.
  - destruct (Pos.to_uint p); try reflexivity; apply D.
  - change (bs (String "-" ?s)) with (x2d :: bs s).
    cbn [plainText forallb]. change (plainByte x2d) with true. cbn [andb].
    destruct (Pos.to_uint p); try reflexivity; apply D.
Qed.

(* ------------------------------------------------------------------------- *)
(** * Safe types are written as valid JSON *)

Lemma typeconvOrNil_integer k :
  isInteger k = true ->
  exists conv, typeconv k = Some conv /\ typeconvOrNil k = conv
               /\ intRange k <> None.
Proof.
  unfold isInteger. destruct k; try discriminate; intros _;
    eexists; (split; [reflexivity|split; [reflexivity|discriminate]]).
Qed.

Lemma leaf_writesJSON cfg t :
  leafType t = true ->
  exists i, valueInstr cfg t = Done i /\ writesJSON t i.
Proof.
  destruct t as [kd ms| | | | | | | | |]; try discriminate. cbn [leafType].
  intros H. apply andb_prop in H as [H _]. apply orb_prop in H as [H|H].
  - destruct (typeconvOrNil_integer _ H) as [conv [Ec [En Hr]]].
    exists conv. split.
    + unfold valueInstr. cbn [pointee reflect.KindOf isPtr].
      destruct kd; try discriminate H; cbn; now rewrite <- En.
    + split; [exact (appends_typeconv _ Ec)|].
      intros v Hv. cbn [hasType] in Hv. destruct v; try discriminate Hv.
      * exact (@integer_text _ conv z Hr Ec).
      * apply andb_prop in Hv as [Hv _]. destruct kd; discriminate.
  - destruct kd; try discriminate H. exists (quoted ptrStringToBuf). split.
    + reflexivity.
    + split; [apply appends_quoted, appends_ptrStringToBuf|].
      intros v Hv. cbn [hasType] in Hv. destruct v; try discriminate Hv.
      cbn in Hv. exists (quotedText s). split; [|now apply jsonValue_quotedText].
      unfold render, quoted, quotedText. cbn. reflexivity.
Qed.

Lemma ptr_writesJSON cfg t' i' :
  isPtr t' = false ->
  valueInstr cfg t' = Done i' ->
  writesJSON t' i' ->
  valueInstr cfg (reflect.PtrTo t') = Done (derefOrNull i')
  /\ writesJSON (reflect.PtrTo t') (derefOrNull i').
Proof.
  intros P V [A W]. split.
  - unfold valueInstr in *. cbn [pointee isPtr reflect.KindOf reflect.Kind_eqb].
    rewrite (pointee_not_ptr _ P), P in V.
    match type of V with bind ?m _ = _ => destruct m as [b| |] end;
      try discriminate V.
    cbn [bind] in *. now injection V as ->.
  - split; [now apply appends_derefOrNull|].
    intros v Hv. cbn [hasType] in Hv. destruct v; try discriminate Hv.
    destruct p as [y|].
    + destruct (W y Hv) as [out [R J]]. exists out. split; [|exact J].
      exact R.
    + exists null. split; [reflexivity|apply jsonValue_null].
Qed.

Ltac use_overSlice :=
  eexists; split; [reflexivity|];
  intros xs texts w F;
  match goal with
  | A : appends ?i |- _ =>
      apply (@overSlice_text _ i); [reflexivity|exact A|exact F]
  end.

Lemma slice_enc_text cfg elem ie :
  safeType elem = true ->
  valueInstr cfg elem = Done ie ->
  appends ie ->
  exists enc,
    sliceEncoderFor cfg elem = Done enc
    /\ forall xs texts w,
         Forall2 (fun x t => render ie x = Done t) xs texts ->
         SliceEncoder_Marshal enc (VSlice xs) w
         = Done (Write w (sliceText texts)).
Proof.
  intros S V A. unfold valueInstr in V. unfold sliceEncoderFor.
  destruct elem as [kd ms|n el ms|el| | |ky el ms|el|el ms|fields ms|];
    try discriminate S.
  - (* a leaf *)
    cbn [safeType leafType] in S. apply andb_prop in S as [S _].
    cbn [pointee reflect.KindOf isPtr reflect.isTimeType] in *.
    apply orb_prop in S as [S|S].
    + destruct kd; try discriminate S; cbn in V; injection V as <-;
        use_overSlice.
    + destruct kd; try discriminate S. cbn in V. injection V as <-.
      eexists. split; [reflexivity|]. intros xs texts w F.
      now apply stringInstr_text.
  - (* a map *)
    cbn [pointee reflect.KindOf isPtr reflect.Kind_eqb reflect.isTimeType] in *.
    destruct (NewMapEncoderWithConfig (reflect.MapOf ky el ms) cfg)
      as [enc'| |]; try discriminate V.
    cbn [bind] in *. injection V as <-. use_overSlice.
  - (* a pointer *)
    cbn [pointee reflect.KindOf isPtr reflect.Kind_eqb reflect.isTimeType] in *.
    destruct el as [kd ms| | | | |ky el ms| | |fields ms|];
      try discriminate S;
      cbn [reflect.KindOf reflect.isTimeType] in *.
    + cbn [safeType leafType] in S. apply andb_prop in S as [S _].
      apply orb_prop in S as [S|S];
        destruct kd; try discriminate S; cbn in V; injection V as <-;
        use_overSlice.
    + destruct (NewMapEncoderWithConfig (reflect.MapOf ky el ms) cfg)
        as [enc'| |]; try discriminate V.
      cbn [bind] in *. injection V as <-.
      use_overSlice.
    + destruct (NewStructEncoderWithConfig (reflect.StructOf fields ms) cfg)
        as [enc'| |]; try discriminate V.
      cbn [bind] in *. injection V as <-.
      use_overSlice.
  - (* a slice *)
    cbn [pointee reflect.KindOf isPtr reflect.Kind_eqb reflect.isTimeType] in *.
    destruct (NewSliceEncoderWithConfig (reflect.SliceOf el ms) cfg)
      as [enc'| |]; try discriminate V.
    cbn [bind] in *. injection V as <-.
    use_overSlice.
  - (* a struct *)
    cbn [pointee reflect.KindOf isPtr reflect.Kind_eqb reflect.isTimeType] in *.
    destruct (NewStructEncoderWithConfig (reflect.StructOf fields ms) cfg)
      as [enc'| |]; try discriminate V.
    cbn [bind] in *. injection V as <-.
    use_overSlice.
Qed.

Lemma texts_of_typed t i xs :
  writesJSON t i ->
  forallb (hasType t) xs = true ->
  exists texts,
    Forall2 (fun x out => render i x = Done out) xs texts
    /\ Forall jsonValue texts.
Proof.
  intros [_ W]. induction xs as [|x xs IH]; intros H.
  - exists []. split; constructor.
  - cbn [forallb] in H. apply andb_prop in H as [Hx Hxs].
    destruct (IH Hxs) as [texts [F J]].
    destruct (W x Hx) as [out [R Jo]].
    exists (out :: texts). split; constructor; assumption.
Qed.

Lemma slice_writesJSON cfg elem ms ie :
  safeType elem = true ->
  valueInstr cfg elem = Done ie ->
  writesJSON elem ie ->
  exists enc,
    NewSliceEncoderWithConfig (reflect.SliceOf elem ms) cfg = Done enc
    /\ writesJSON (reflect.SliceOf elem ms) (SliceEncoder_Marshal enc).
Proof.
  intros S V W.
  destruct (@slice_enc_text cfg elem ie S V (proj1 W)) as [enc [E T]].
  exists enc.
  assert (N : NewSliceEncoderWithConfig (reflect.SliceOf elem ms) cfg
              = Done enc)
    by (rewrite (@NewSliceEncoderWithConfig_Elem
                   (reflect.SliceOf elem ms) cfg elem eq_refl); exact E).
  split; [exact N|]. split; [exact (@appends_SliceEncoder _ _ _ N)|].
  intros v Hv. cbn [hasType] in Hv. destruct v; try discriminate Hv.
  destruct (@texts_of_typed _ _ _ W Hv) as [texts [F J]].
  exists (sliceText texts). split.
  - unfold render. rewrite (T _ _ (mkBuffer []) F). reflexivity.
  - now apply jsonValue_sliceText.
Qed.

Lemma safeType_StructOf fields ms :
  safeType (reflect.StructOf fields ms) = safeFields fields && noText ms.
Proof.
  cbn [safeType]. f_equal.
  induction fields as [|[n tag ft] fields IH]; [reflexivity|].
  cbn [safeFields reflect.Tag reflect.Typ]. now rewrite <- IH.
Qed.

Lemma hasType_StructOf fields ms vs :
  hasType (reflect.StructOf fields ms) (VStruct vs) = fieldsTyped fields vs.
Proof.
  cbn [hasType]. revert vs.
  induction fields as [|[n tag ft] fields IH]; intros [|x vs];
    try reflexivity.
  cbn [fieldsTyped reflect.Tag reflect.Typ]. now rewrite <- IH.
Qed.

Lemma safeType_not_time t : safeType t = true -> reflect.isTimeType t = false.
Proof. destruct t; try reflexivity; discriminate. Qed.

Lemma safeType_pointee_not_time t :
  safeType t = true -> reflect.isTimeType (pointee t) = false.
Proof.
  destruct t; try reflexivity; try discriminate.
  cbn [pointee safeType]. destruct t; try reflexivity; discriminate.
Qed.

Lemma Contains_empty name : Contains EmptyString name = false.
Proof. reflexivity. Qed.

Lemma plain_tag f :
  hasComma (reflect.Tag f) = false ->
  safeType (reflect.Typ f) = true ->
  parseTag (reflect.Tag f) = (reflect.Tag f, EmptyString)
  /\ keyName f = reflect.Tag f
  /\ plainField f = true.
Proof.
  intros Hc Hs.
  assert (P : parseTag (reflect.Tag f) = (reflect.Tag f, EmptyString))
    by (unfold parseTag; now rewrite (@cutComma_no_comma _ Hc)).
  split; [exact P|]. split; [unfold keyName; now rewrite P|].
  unfold plainField, takesStringer, takesEncoder, takesRaw, isTimeField.
  rewrite P. cbn [snd]. rewrite !Contains_empty. cbn [andb negb].
  rewrite (safeType_not_time _ Hs), (safeType_pointee_not_time _ Hs).
  now rewrite andb_false_r.
Qed.

Ltac field_step :=
  cbn [isPtr reflect.KindOf reflect.Kind_eqb typeconv];
  eexists; split; [intros e; reflexivity|];
  intros vs x w Hx;
  unfold val, ptrval, ptrstringval;
  rewrite ?emitted_add_flunk, ?emitted_empty; cbn [bind fieldAt];
  rewrite Hx; cbn [bind]; reflexivity.

Lemma valueInst_safe cfg n tag ft idx i :
  safeType ft = true ->
  valueInstr cfg ft = Done i ->
  exists step : StructEncoder -> StructEncoder,
    (forall e,
       valueInst (reflect.mkStructField n tag ft) idx
         (reflect.KindOf (pointee ft))
         (if isPtr ft then ptrval idx else val idx)
         (NewSliceEncoderWithConfig ft cfg)
         (NewStructEncoderWithConfig (pointee ft) cfg)
         (NewMapEncoderWithConfig (pointee ft) cfg) e
       = Done (step e))
    /\ forall vs x w,
         nth_error vs idx = Some x ->
         emitted (step emptyStructEncoder) (VStruct vs) w = i x w.
Proof.
  intros S V. unfold valueInstr in V. unfold valueInst.
  cbn [reflect.Typ].
  destruct ft as [kd ms|len el ms|el| | |ky el ms|el|el ms|fields ms|];
    try discriminate S.
  - (* a leaf *)
    cbn [safeType leafType] in S. apply andb_prop in S as [S _].
    cbn [pointee reflect.KindOf isPtr] in *.
    apply orb_prop in S as [S|S].
    + destruct kd; try discriminate S; cbn in V; injection V as <-;
        cbn [typeconv reflect.Kind_eqb]; field_step.
    + destruct kd; try discriminate S. cbn in V. injection V as <-.
      cbn [isPtr reflect.KindOf reflect.Kind_eqb].
      eexists. split; [intros e; reflexivity|]. intros vs x w Hx.
      assert (W1 : wf (chunk [quote] emptyStructEncoder))
        by (apply wf_chunk, wf_empty).
      cbv beta.
      rewrite emitted_chunk by (apply (@hom_val _ _ _ W1)).
      unfold val. rewrite emitted_add_flunk, emitted_chunk, emitted_empty
        by apply wf_empty.
      cbn [bind fieldAt]. rewrite Hx. cbn [bind]. unfold quoted.
      rewrite <- WriteByte_Write.
      destruct (ptrStringToBuf x (WriteByte w quote)); cbn [bind];
        rewrite ?WriteByte_Write; reflexivity.
  - (* a map *)
    cbn [pointee reflect.KindOf isPtr reflect.Kind_eqb] in *.
    destruct (NewMapEncoderWithConfig (reflect.MapOf ky el ms) cfg)
      as [enc'| |]; try discriminate V.
    cbn [bind] in *. injection V as <-. field_step.
  - (* a pointer *)
    cbn [pointee reflect.KindOf isPtr reflect.Kind_eqb] in *.
    destruct el as [kd ms| | | | |ky el ms| | |fields ms|];
      try discriminate S; cbn [reflect.KindOf] in *.
    + cbn [safeType leafType] in S. apply andb_prop in S as [S _].
      apply orb_prop in S as [S|S];
        destruct kd; try discriminate S; cbn in V; injection V as <-;
        cbn [typeconv isPtr reflect.KindOf reflect.Kind_eqb]; field_step.
    + destruct (NewMapEncoderWithConfig (reflect.MapOf ky el ms) cfg)
        as [enc'| |]; try discriminate V.
      cbn [bind] in *. injection V as <-.
      cbn [isPtr reflect.KindOf reflect.Kind_eqb]. field_step.
    + destruct (NewStructEncoderWithConfig (reflect.StructOf fields ms) cfg)
        as [enc'| |]; try discriminate V.
      cbn [bind] in *. injection V as <-.
      cbn [isPtr reflect.KindOf reflect.Kind_eqb]. field_step.
  - (* a slice *)
    cbn [pointee reflect.KindOf isPtr reflect.Kind_eqb] in *.
    destruct (NewSliceEncoderWithConfig (reflect.SliceOf el ms) cfg)
      as [enc'| |]; try discriminate V.
    cbn [bind] in *. injection V as <-. field_step.
  - (* a struct *)
    cbn [pointee reflect.KindOf isPtr reflect.Kind_eqb] in *.
    destruct (NewStructEncoderWithConfig (reflect.StructOf fields ms) cfg)
      as [enc'| |]; try discriminate V.
    cbn [bind] in *. injection V as <-.
    cbn [isPtr reflect.KindOf reflect.Kind_eqb]. field_step.
Qed.

Lemma field_safe cfg f idx i :
  hasComma (reflect.Tag f) = false ->
  safeType (reflect.Typ f) = true ->
  valueInstr cfg (reflect.Typ f) = Done i ->
  (forall emit e, exists r,
      fieldInstr f idx emit
        (NewSliceEncoderWithConfig (reflect.Typ f) cfg)
        (NewStructEncoderWithConfig (pointee (reflect.Typ f)) cfg)
        (NewMapEncoderWithConfig (pointee (reflect.Typ f)) cfg) e = Done r)
  /\ forall vs x w,
       nth_error vs idx = Some x ->
       writeValue cfg f idx (VStruct vs) w = i x w.
Proof.
  intros Hc S V. destruct (plain_tag f Hc S) as [P [_ Hp]].
  destruct f as [n tag ft]. cbn [reflect.Tag reflect.Typ] in *.
  destruct (@valueInst_safe cfg n tag ft idx i S V) as [step [E1 E2]].
  assert (Q : forall e,
            fieldValue (reflect.mkStructField n tag ft) idx EmptyString
              (NewSliceEncoderWithConfig ft cfg)
              (NewStructEncoderWithConfig (pointee ft) cfg)
              (NewMapEncoderWithConfig (pointee ft) cfg) e
            = Done (step e)).
  { intros e. rewrite <- E1.
    pose proof (@plainField_fieldValue (reflect.mkStructField n tag ft) idx
                  (NewSliceEncoderWithConfig ft cfg)
                  (NewStructEncoderWithConfig (pointee ft) cfg)
                  (NewMapEncoderWithConfig (pointee ft) cfg) e Hp) as R.
    cbn [reflect.Tag reflect.Typ] in R. rewrite P in R. exact R. }
  split.
  - intros emit e. unfold fieldInstr. cbn [reflect.Tag reflect.Typ].
    rewrite P. destruct (String.eqb tag EmptyString); [eauto|].
    rewrite Q. cbn [bind]. eauto.
  - intros vs x w Hx. unfold writeValue. cbn [reflect.Tag reflect.Typ].
    rewrite P. cbn [snd]. rewrite Q. cbn [bind]. now apply E2.
Qed.

Lemma fieldInstr_untagged f idx emit encSlice encStruct encMap e :
  reflect.Tag f = EmptyString ->
  fieldInstr f idx emit encSlice encStruct encMap e = Done (emit, e).
Proof. intros H. unfold fieldInstr. rewrite H. reflexivity. Qed.

Lemma fieldsLoop_safe cfg fields :
  safeFields fields = true ->
  (forall f, In f fields -> reflect.Tag f <> EmptyString ->
             exists i, valueInstr cfg (reflect.Typ f) = Done i) ->
  forall idx emit e, exists r, fieldsLoop cfg fields idx emit e = Done r.
Proof.
  induction fields as [|f fields IH]; intros S H idx emit e.
  - cbn. eauto.
  - cbn [safeFields] in S. apply andb_prop in S as [S Srest].
    apply andb_prop in S as [Hc S]. apply negb_true_iff in Hc.
    cbn [fieldsLoop].
    assert (F : exists r,
              fieldInstr f idx emit
                (NewSliceEncoderWithConfig (reflect.Typ f) cfg)
                (NewStructEncoderWithConfig (pointee (reflect.Typ f)) cfg)
                (NewMapEncoderWithConfig (pointee (reflect.Typ f)) cfg) e
              = Done r).
    { destruct (String.eqb (reflect.Tag f) EmptyString) eqn:Et.
      - apply String.eqb_eq in Et. rewrite fieldInstr_untagged by exact Et.
        eauto.
      - cbn [orb] in S. apply andb_prop in S as [_ St].
        apply String.eqb_neq in Et.
        destruct (H f (or_introl eq_refl) Et) as [i V].
        apply (proj1 (@field_safe cfg f idx i Hc St V)). }
    destruct F as [r ->]. cbn [bind].
    apply IH; [exact Srest|]. intros g Hg. apply H. now right.
Qed.

Lemma membersAt_cons i f fields :
  membersAt i (f :: fields)
  = (if included f then [(i, f)] else []) ++ membersAt (S i) fields.
Proof.
  unfold membersAt. cbn [indexed filter snd]. now destruct (included f).
Qed.

Lemma member_texts cfg vs fields :
  safeFields fields = true ->
  (forall f, In f fields -> reflect.Tag f <> EmptyString ->
             exists i, valueInstr cfg (reflect.Typ f) = Done i
                       /\ writesJSON (reflect.Typ f) i) ->
  forall idx xs,
    skipn idx vs = xs ->
    fieldsTyped fields xs = true ->
    exists texts,
      mapM (memberTextOf cfg (VStruct vs)) (membersAt idx fields) = Done texts
      /\ Forall (fun e => plainText (fst e) = true /\ jsonValue (snd e)) texts.
Proof.
  induction fields as [|f fields IH]; intros S H idx xs Hs T.
  - exists []. split; [reflexivity|constructor].
  - destruct xs as [|x xs]; [discriminate T|].
    cbn [fieldsTyped] in T. apply andb_prop in T as [Tx Txs].
    cbn [safeFields] in S. apply andb_prop in S as [S Srest].
    apply andb_prop in S as [Hc S]. apply negb_true_iff in Hc.
    destruct (skipn_cons_nth _ _ Hs) as [Hx Hs'].
    destruct (IH Srest (fun g Hg => H g (or_intror Hg)) (Datatypes.S idx) xs
                Hs' Txs) as [texts [M F]].
    rewrite membersAt_cons.
    assert (K : keyName f = reflect.Tag f)
      by (unfold keyName, parseTag; now rewrite (@cutComma_no_comma _ Hc)).
    unfold included. rewrite K.
    destruct (String.eqb (reflect.Tag f) EmptyString) eqn:Et;
      cbn [negb app]; [exists texts; now split|].
    cbn [orb] in S, Tx. apply andb_prop in S as [Pk St].
    apply String.eqb_neq in Et.
    destruct (H f (or_introl eq_refl) Et) as [i [V [A W]]].
    destruct (W x Tx) as [out [R J]].
    exists ((bs (reflect.Tag f), out) :: texts). split.
    + cbn [mapM]. unfold memberTextOf at 1. cbn [fst snd].
      assert (E : render (writeValue cfg f idx) (VStruct vs) = Done out).
      { unfold render in *.
        rewrite (proj2 (@field_safe cfg f idx i Hc St V) vs x _ Hx).
        exact R. }
      rewrite E. cbn [bind]. rewrite M. cbn [bind]. now rewrite K.
    + constructor; [split; assumption|exact F].
Qed.

Lemma struct_writesJSON cfg fields ms :
  safeType (reflect.StructOf fields ms) = true ->
  (forall f, In f fields -> reflect.Tag f <> EmptyString ->
             exists i, valueInstr cfg (reflect.Typ f) = Done i
                       /\ writesJSON (reflect.Typ f) i) ->
  exists enc,
    NewStructEncoderWithConfig (reflect.StructOf fields ms) cfg = Done enc
    /\ writesJSON (reflect.StructOf fields ms) (StructEncoder_Marshal enc).
Proof.
  intros S H. rewrite safeType_StructOf in S. apply andb_prop in S as [S _].
  assert (L : exists r,
            fieldsLoop cfg fields 0 0 (chunk (bs "{") emptyStructEncoder)
            = Done r).
  { apply fieldsLoop_safe; [exact S|]. intros f Hf Ht.
    destruct (H f Hf Ht) as [i [V _]]. eauto. }
  destruct L as [r L].
  assert (N : NewStructEncoderWithConfig (reflect.StructOf fields ms) cfg
              = Done (flunk (chunk (bs "}") (snd r))))
    by (rewrite NewStructEncoderWithConfig_StructOf, L; reflexivity).
  eexists. split; [exact N|].
  split; [exact (@appends_StructEncoder _ _ _ N)|].
  intros v Hv.
  destruct v as [b|z|ft|s|p|xs|xs|m|vs|tr ts|]; try discriminate Hv.
  rewrite hasType_StructOf in Hv.
  destruct (@member_texts cfg vs fields S H 0%nat vs eq_refl Hv)
    as [texts [M F]].
  exists (objectText texts). split; [|now apply jsonValue_objectText].
  unfold render.
  rewrite (@Marshal_objectText fields ms cfg _ (VStruct vs) texts
             (mkBuffer []) N M).
  reflexivity.
Qed.

Lemma lookup_noText_leaf kd ms :
  noText ms = true ->
  reflect.lookup reflect.mMarshalText (reflect.Basic kd ms) = None.
Proof.
  unfold noText. cbn. destruct (reflect.mMarshalText ms); [discriminate|].
  reflexivity.
Qed.

Lemma safeType_noText elem :
  safeType elem = true ->
  reflect.lookup reflect.mMarshalText elem = None.
Proof.
  assert (N : forall ms, noText ms = true -> reflect.mMarshalText ms = None)
    by (intros ms; unfold noText; destruct (reflect.mMarshalText ms);
        [discriminate|reflexivity]).
  intros S.
  destruct elem as [kd ms|len el ms|el| | |ky el ms|el|el ms|fields ms|];
    try discriminate S; cbn [safeType leafType] in S.
  - apply andb_prop in S as [_ S]. cbn. now rewrite (N _ S).
  - apply andb_prop in S as [_ S]. cbn. now rewrite (N _ S).
  - destruct el as [kd ms| | | | |ky el ms| | |fields ms|];
      try discriminate S; cbn [safeType leafType] in S;
      apply andb_prop in S as [_ S]; cbn; now rewrite (N _ S).
  - apply andb_prop in S as [_ S]. cbn. now rewrite (N _ S).
  - apply andb_prop in S as [_ S]. cbn. now rewrite (N _ S).
Qed.

Lemma elemInstr_safe cfg elem ie :
  safeType elem = true ->
  valueInstr cfg elem = Done ie ->
  elemInstr elem
    (NewSliceEncoderWithConfig (pointee elem) cfg)
    (NewStructEncoderWithConfig (pointee elem) cfg)
    (NewMapEncoderWithConfig (pointee elem) cfg) = Done ie.
Proof.
  intros S V. unfold elemInstr. rewrite (safeType_noText _ S).
  unfold valueInstr in V.
  destruct elem as [kd ms|len el ms|el| | |ky el ms|el|el ms|fields ms|];
    try discriminate S.
  - cbn [safeType leafType] in S. apply andb_prop in S as [S _].
    cbn [pointee reflect.KindOf isPtr] in *.
    apply orb_prop in S as [S|S];
      destruct kd; try discriminate S; cbn in V; injection V as <-;
      reflexivity.
  - cbn [pointee reflect.KindOf isPtr reflect.Kind_eqb] in *.
    destruct (NewMapEncoderWithConfig (reflect.MapOf ky el ms) cfg)
      as [enc'| |]; try discriminate V.
    cbn [bind] in *. now injection V as <-.
  - cbn [pointee reflect.KindOf isPtr reflect.Kind_eqb] in *.
    destruct el as [kd ms| | | | |ky el ms| | |fields ms|];
      try discriminate S; cbn [reflect.KindOf] in *.
    + cbn [safeType leafType] in S. apply andb_prop in S as [S _].
      apply orb_prop in S as [S|S];
        destruct kd; try discriminate S; cbn in V; injection V as <-;
        reflexivity.
    + destruct (NewMapEncoderWithConfig (reflect.MapOf ky el ms) cfg)
        as [enc'| |]; try discriminate V.
      cbn [bind] in *. now injection V as <-.
    + destruct (NewStructEncoderWithConfig (reflect.StructOf fields ms) cfg)
        as [enc'| |]; try discriminate V.
      cbn [bind] in *. now injection V as <-.
  - cbn [pointee reflect.KindOf isPtr reflect.Kind_eqb] in *.
    destruct (NewSliceEncoderWithConfig (reflect.SliceOf el ms) cfg)
      as [enc'| |]; try discriminate V.
    cbn [bind] in *. now injection V as <-.
  - cbn [pointee reflect.KindOf isPtr reflect.Kind_eqb] in *.
    destruct (NewStructEncoderWithConfig (reflect.StructOf fields ms) cfg)
      as [enc'| |]; try discriminate V.
    cbn [bind] in *. now injection V as <-.
Qed.

Lemma keyInstr_leaf key :
  leafType key = true ->
  exists kconv,
    keyInstr key = Done kconv
    /\ (isString key = true -> kconv = ptrStringToBuf)
    /\ appends kconv
    /\ forall v, hasType key v = true ->
         exists out, render kconv v = Done out /\ plainText out = true.
Proof.
  destruct key as [kd ms| | | | | | | | |]; try discriminate.
  cbn [leafType]. intros H. apply andb_prop in H as [H _].
  exists (typeconvOrNil kd).
  assert (K : exists conv, typeconv kd = Some conv
                           /\ typeconvOrNil kd = conv).
  { apply orb_prop in H as [H|H]; destruct kd; try discriminate H;
      eexists; split; reflexivity. }
  destruct K as [conv [Ec En]]. repeat split.
  - unfold keyInstr. cbn [reflect.KindOf].
    apply orb_prop in H as [H|H]; destruct kd; try discriminate H;
      reflexivity.
  - unfold isString. cbn [reflect.KindOf]. intros E.
    destruct kd; try discriminate E. reflexivity.
  - rewrite En. exact (appends_typeconv _ Ec).
  - intros v Hv. cbn [hasType] in Hv.
    destruct v as [b|z|ft|s|p|xs|xs|m|vs|tr ts|]; try discriminate Hv.
    + destruct kd; try discriminate Hv;
        (eexists; split; [reflexivity|apply plainText_formatBase10]).
    + apply andb_prop in Hv as [Hk Hs]. destruct kd; try discriminate Hk.
      exists s. split; [reflexivity|exact Hs].
Qed.

Lemma map_writesJSON cfg key elem ms ie :
  leafType key = true ->
  safeType elem = true ->
  valueInstr cfg elem = Done ie ->
  writesJSON elem ie ->
  exists enc,
    NewMapEncoderWithConfig (reflect.MapOf key elem ms) cfg = Done enc
    /\ writesJSON (reflect.MapOf key elem ms) (MapEncoder_Marshal enc).
Proof.
  intros Lk S V [A W].
  destruct (keyInstr_leaf _ Lk) as [kconv [Ek [Eks [Ak Wk]]]].
  pose proof (@elemInstr_safe cfg elem ie S V) as Ee.
  assert (C : exists kc ec,
            converters cfg key elem = Done (kc, ec)
            /\ (forall v out, render kconv v = Done out ->
                              render kc v = Done out)
            /\ (forall v out, render ie v = Done out ->
                              render ec v = Done out)).
  { unfold converters. destruct (isString key && isString elem) eqn:F.
    - apply andb_prop in F as [Fk Fe].
      exists ptrStringToBuf, (quoted ptrStringToBuf).
      split; [reflexivity|]. split.
      + intros v out. now rewrite (Eks Fk).
      + assert (E : ie = quoted ptrStringToBuf).
        { unfold valueInstr in V. unfold isString in Fe.
          destruct elem as [kd ems| | | | | | | | |];
            try discriminate S; try discriminate Fe.
          cbn [pointee reflect.KindOf isPtr] in *.
          destruct kd; try discriminate Fe. cbn in V. now injection V as <-. }
        now rewrite E.
    - rewrite Ee. cbn [bind]. rewrite Ek. cbn [bind].
      exists kconv, ie. split; [reflexivity|]. split; auto. }
  destruct C as [kc [ec [Ec [Rk Re]]]].
  assert (N : exists enc,
            NewMapEncoderWithConfig (reflect.MapOf key elem ms) cfg
            = Done enc).
  { change (NewMapEncoderWithConfig (reflect.MapOf key elem ms) cfg)
      with (if isString key && isString elem then
              if SortMapKeys cfg then Done (mkMapEncoder sortStrStrInstr)
              else Done (mkMapEncoder strStrInstr)
            else
              econv <- elemInstr elem
                         (NewSliceEncoderWithConfig (pointee elem) cfg)
                         (NewStructEncoderWithConfig (pointee elem) cfg)
                         (NewMapEncoderWithConfig (pointee elem) cfg) ;;
              kconv <- keyInstr key ;;
              if SortMapKeys cfg
              then Done (mkMapEncoder (sortInstr kconv econv))
              else Done (mkMapEncoder (instr kconv econv))).
    destruct (isString key && isString elem).
    - destruct (SortMapKeys cfg); eauto.
    - rewrite Ee. cbn [bind]. rewrite Ek. cbn [bind].
      destruct (SortMapKeys cfg); eauto. }
  destruct N as [enc N]. exists enc. split; [exact N|].
  split; [exact (@appends_MapEncoder _ _ _ N)|].
  intros v Hv. cbn [hasType] in Hv.
  destruct v as [b|z|ft|s|p|xs|xs|m|vs|tr ts|]; try discriminate Hv.
  destruct m as [entries|].
  - assert (T : exists texts,
              mapM (entryText cfg key elem) entries = Done texts
              /\ Forall (fun e => plainText (fst e) = true
                                  /\ jsonValue (snd e)) texts).
    { induction entries as [|[k0 e0] entries IH].
      - exists []. split; [reflexivity|constructor].
      - cbn [forallb fst snd] in Hv. apply andb_prop in Hv as [Hen Hrest].
        apply andb_prop in Hen as [Hk0 He0].
        destruct (IH Hrest) as [texts [M F]].
        destruct (Wk k0 Hk0) as [kt [Rkt Pk]].
        destruct (W e0 He0) as [vt [Rvt Jv]].
        exists ((kt, vt) :: texts). split.
        + cbn [mapM]. unfold entryText at 1. rewrite Ec. cbn [bind fst snd].
          rewrite (Rk _ _ Rkt). cbn [bind]. rewrite (Re _ _ Rvt).
          cbn [bind]. rewrite M. reflexivity.
        + constructor; [split; assumption|exact F]. }
    destruct T as [texts [M F]].
    exists (objectText (if SortMapKeys cfg then sortByKey texts else texts)).
    split.
    + unfold render.
      rewrite (@Marshal_map_text key elem ms cfg enc entries texts
                 (mkBuffer []) N M).
      reflexivity.
    + apply jsonValue_objectText. destruct (SortMapKeys cfg); [|exact F].
      eapply Permutation_Forall; [|exact F].
      apply Permutation_sym, sortByKey_perm.
  - exists null. split; [|apply jsonValue_null].
    unfold render. rewrite (@Marshal_map_nil key elem ms cfg enc _ N).
    reflexivity.
Qed.

Lemma safeFields_In fields f :
  safeFields fields = true ->
  In f fields ->
  reflect.Tag f <> EmptyString ->
  safeType (reflect.Typ f) = true.
Proof.
  induction fields as [|g fields IH]; intros S Hin Ht; [contradiction|].
  cbn [safeFields] in S. apply andb_prop in S as [S Srest].
  apply andb_prop in S as [_ S].
  destruct Hin as [->|Hin]; [|now apply IH].
  apply orb_prop in S as [S|S].
  - apply String.eqb_eq in S. contradiction.
  - now apply andb_prop in S as [_ S].
Qed.

Lemma safeType_writesJSON_size n : forall t cfg,
  (size t < n)%nat ->
  safeType t = true ->
  exists i, valueInstr cfg t = Done i /\ writesJSON t i.
Proof.
  induction n as [|n IH]; intros t cfg Hsz S; [lia|].
  destruct t as [kd ms|len el ms|el| | |ky el ms|el|el ms|fields ms|];
    try discriminate S.
  - now apply leaf_writesJSON.
  - (* a map *)
    pose proof S as S'. cbn [safeType] in S'.
    apply andb_prop in S' as [S' _]. apply andb_prop in S' as [Lk Se].
    cbn [size] in Hsz.
    destruct (IH el cfg ltac:(lia) Se) as [ie [V W]].
    destruct (@map_writesJSON cfg ky el ms ie Lk Se V W) as [enc [N Wm]].
    exists (MapEncoder_Marshal enc). split; [|exact Wm].
    unfold valueInstr. cbn [pointee reflect.KindOf isPtr reflect.Kind_eqb].
    rewrite N. reflexivity.
  - (* a pointer *)
    assert (Se : safeType el = true /\ isPtr el = false).
    { cbn [safeType] in S.
      destruct el as [kd ms| | | | |ky el ms| | |fields ms|];
        try discriminate S; split; try exact S; try reflexivity.
      cbn [safeType leafType] in S. apply andb_prop in S as [S _].
      apply orb_prop in S as [S|S]; destruct kd; try discriminate S;
        reflexivity. }
    destruct Se as [Se Pe]. cbn [size] in Hsz.
    destruct (IH el cfg ltac:(lia) Se) as [ie [V W]].
    destruct (@ptr_writesJSON cfg el ie Pe V W) as [Vp Wp].
    exists (derefOrNull ie). now split.
  - (* a slice *)
    pose proof S as S'. cbn [safeType] in S'.
    apply andb_prop in S' as [Se _]. cbn [size] in Hsz.
    destruct (IH el cfg ltac:(lia) Se) as [ie [V W]].
    destruct (@slice_writesJSON cfg el ms ie Se V W) as [enc [N Ws]].
    exists (SliceEncoder_Marshal enc). split; [|exact Ws].
    unfold valueInstr. cbn [pointee reflect.KindOf isPtr reflect.Kind_eqb].
    rewrite N. reflexivity.
  - (* a struct *)
    pose proof S as S'. rewrite safeType_StructOf in S'.
    apply andb_prop in S' as [Sf _].
    assert (H : forall f, In f fields -> reflect.Tag f <> EmptyString ->
                exists i, valueInstr cfg (reflect.Typ f) = Done i
                          /\ writesJSON (reflect.Typ f) i).
    { intros f Hin Ht. apply IH.
      - pose proof (@size_field f fields ms Hin). lia.
      - exact (@safeFields_In fields f Sf Hin Ht). }
    destruct (@struct_writesJSON cfg fields ms S H) as [enc [N Ws]].
    exists (StructEncoder_Marshal enc). split; [|exact Ws].
    unfold valueInstr. cbn [pointee reflect.KindOf isPtr reflect.Kind_eqb].
    rewrite N. reflexivity.
Qed.

Lemma writesJSON_valid t (i : Instr) v :
  writesJSON t i -> hasType t v = true ->
  exists out, i v (mkBuffer []) = Done (mkBuffer out) /\ validJSON out = true.
Proof.
  intros [_ W] Hv. destruct (W v Hv) as [out [R J]]. exists out.
  split; [|now apply jsonValue_valid].
  unfold render in R. destruct (i v (mkBuffer [])) as [[b]| |];
    try discriminate R.
  cbn in R. now injection R as ->.
Qed.


